(** * html-expand: implicit repeat and content insertion

    A shallow embedding of [lib/repeater-content.js] and the properties of
    its two steps, [prepare] and [insert].

    The abbreviation tree is a graph of mutable JavaScript objects with
    parent back-references, edited while it is walked.  It is modelled as
    a store of node records addressed by references, and every function of
    the source is a state-passing program over that store. *)

From Stdlib Require Import Ascii String List Arith Lia Bool.
From stdpp Require Import base option list gmap strings.

Set Default Proof Using "Type".
Set Warnings "-register-all".
Local Open Scope nat_scope.

(** ** Strings *)

Lemma append_cons (a : ascii) (s t : string) :
  String a s +:+ t = String a (s +:+ t).
Proof. reflexivity. Qed.

Lemma append_empty_l (s : string) : "" +:+ s = s.
Proof. reflexivity. Qed.

Lemma append_empty_r (s : string) : s +:+ "" = s.
Proof. induction s as [|a s IH]; [done|]. by rewrite append_cons, IH. Qed.

Lemma append_assoc (s t u : string) : (s +:+ t) +:+ u = s +:+ (t +:+ u).
Proof. induction s as [|a s IH]; [done|]. by rewrite !append_cons, IH. Qed.

(** [const placeholder = '$#'] *)
Definition placeholder : string := "$#".

(** [const caret = '|'] *)
Definition caret : string := "|".

(** The escape marker of the token scanner: a backslash. *)
Definition escape_marker : ascii := "\"%char.

(** ** The token scanner ([./utils]) *)

(** A range [[start, end)] of a string. *)
Definition range : Type := nat * nat.

(** What a scan hands to the replace step: the ranges of the unescaped
    occurrences, and the recorded spans "escape marker + token". *)
Inductive span :=
  | Matched (r : range)
  | Escaped (r : range).

Definition is_matched (sp : span) : bool :=
  match sp with Matched _ => true | Escaped _ => false end.

Definition span_start (sp : span) : nat :=
  match sp with Matched r | Escaped r => r.1 end.

(** Left-to-right scan from position [pos]; [skip] counts the characters of
    an occurrence already recorded that are still to be passed over. *)
Fixpoint scan_tokens (token s : string) (pos skip : nat) : list span :=
  match s with
  | "" => []
  | String c rest =>
    match skip with
    | S k => scan_tokens token rest (S pos) k
    | 0 =>
      if Ascii.eqb c escape_marker && String.prefix token rest then
        Escaped (pos, S pos + String.length token)
          :: scan_tokens token rest (S pos) (String.length token)
      else if String.prefix token s then
        Matched (pos, pos + String.length token)
          :: scan_tokens token rest (S pos) (String.length token - 1)
      else scan_tokens token rest (S pos) 0
    end
  end.

(** Modelled from the spec: [findUnescapedTokens(str, token)] of [./utils],
    which is not part of the sources at hand.  "Scans left to right; an
    occurrence of token immediately preceded by the designated escape marker
    is skipped as a match but the escape marker + token together are recorded
    for removal/unescaping by the caller's replace step.  Returns ranges in
    ascending, non-overlapping order." *)
Definition findUnescapedTokens (str token : string) : list span :=
  scan_tokens token str 0 0.

(** [ranges.length]: the number of unescaped occurrences found. *)
Definition ranges_length (ranges : list span) : nat :=
  length (filter is_matched ranges).

(** JavaScript's string coercion of a content item; [None] is [undefined]. *)
Definition to_js_string (v : option string) : string :=
  match v with Some s => s | None => "undefined" end.

Definition span_at (ranges : list span) (pos : nat) : option span :=
  find (fun sp => span_start sp =? pos) ranges.

(** One rebuild pass over [s], whose first character is at position [pos]. *)
Fixpoint rebuild (s : string) (pos skip : nat) (ranges : list span)
    (value : string) : string :=
  match s with
  | "" => ""
  | String c rest =>
    match skip with
    | S k => rebuild rest (S pos) k ranges value
    | 0 =>
      match span_at ranges pos with
      | Some (Matched (a, b)) =>
        if b <=? a then value +:+ String c (rebuild rest (S pos) 0 ranges value)
        else value +:+ rebuild rest (S pos) (b - a - 1) ranges value
      | Some (Escaped _) => rebuild rest (S pos) 0 ranges value
      | None => String c (rebuild rest (S pos) 0 ranges value)
      end
    end
  end.

(** Modelled from the spec: [replaceRanges(str, ranges, value)] of [./utils].
    "Replaces each range with value, and strips the escape marker preceding
    any escaped-but-matched token elsewhere in the string."  A value that is
    not a string is written the way JavaScript coerces it. *)
Definition replaceRanges (str : string) (ranges : list span)
    (value : option string) : string :=
  rebuild str 0 0 ranges (to_js_string value).

(** ** Regular expressions

    The three patterns of the source use no back-references or look-around,
    so [RegExp.prototype.test] decides membership in a regular language.
    It is computed with derivatives. *)

Inductive regex :=
  | Void
  | Eps
  | Class (p : ascii -> bool)
  | Cat (r1 r2 : regex)
  | Alt (r1 r2 : regex)
  | Star (r : regex).

Fixpoint nullable (r : regex) : bool :=
  match r with
  | Void => false
  | Eps => true
  | Class _ => false
  | Cat r1 r2 => nullable r1 && nullable r2
  | Alt r1 r2 => nullable r1 || nullable r2
  | Star _ => true
  end.

Definition cat (r1 r2 : regex) : regex :=
  match r1, r2 with
  | Void, _ | _, Void => Void
  | Eps, r | r, Eps => r
  | _, _ => Cat r1 r2
  end.

Definition alt (r1 r2 : regex) : regex :=
  match r1, r2 with
  | Void, r | r, Void => r
  | _, _ => Alt r1 r2
  end.

Fixpoint deriv (c : ascii) (r : regex) : regex :=
  match r with
  | Void | Eps => Void
  | Class p => if p c then Eps else Void
  | Cat r1 r2 =>
    if nullable r1 then alt (cat (deriv c r1) r2) (deriv c r2)
    else cat (deriv c r1) r2
  | Alt r1 r2 => alt (deriv c r1) (deriv c r2)
  | Star r1 => cat (deriv c r1) (Star r1)
  end.

Fixpoint matches (r : regex) (s : string) : bool :=
  match s with
  | "" => nullable r
  | String c rest => matches (deriv c r) rest
  end.

Definition chr (c : ascii) : regex := Class (Ascii.eqb c).

Fixpoint lit (s : string) : regex :=
  match s with
  | "" => Eps
  | String c rest => Cat (chr c) (lit rest)
  end.

Definition opt (r : regex) : regex := Alt Eps r.
Definition plus (r : regex) : regex := Cat r (Star r).

(** [r{lo,lo+extra}] *)
Fixpoint at_most (extra : nat) (r : regex) : regex :=
  match extra with
  | 0 => Eps
  | S k => opt (Cat r (at_most k r))
  end.

Fixpoint times (lo extra : nat) (r : regex) : regex :=
  match lo with
  | 0 => at_most extra r
  | S k => Cat r (times k extra r)
  end.

Definition in_range (lo hi c : ascii) : bool :=
  (nat_of_ascii lo <=? nat_of_ascii c) && (nat_of_ascii c <=? nat_of_ascii hi).

Definition is_digit (c : ascii) : bool := in_range "0" "9" c.
Definition is_lower (c : ascii) : bool := in_range "a" "z" c.
Definition is_upper (c : ascii) : bool := in_range "A" "Z" c.
Definition is_one_of (s : string) (c : ascii) : bool :=
  existsb (Ascii.eqb c) (list_ascii_of_string s).

(** [\w] *)
Definition is_word (c : ascii) : bool :=
  is_lower c || is_upper c || is_digit c || Ascii.eqb c "_".

(** [[\da-z\.-]] *)
Definition host_char (c : ascii) : bool :=
  is_digit c || is_lower c || is_one_of ".-" c.

(** [[a-z\.]] *)
Definition tld_char (c : ascii) : bool := is_lower c || Ascii.eqb c ".".

(** [[\/\w \.-]] *)
Definition path_char (c : ascii) : bool := is_word c || is_one_of "/ .-" c.

(** [[a-z0-9_\.-]] *)
Definition local_char (c : ascii) : bool :=
  is_lower c || is_digit c || is_one_of "_.-" c.

(** [reUrl]: an optional scheme [(?:https?|ftp|file):\/\/], a host
    [[\da-z\.-]+], a dot, a top-level domain [[a-z\.]{2,6}], any number of
    groups of path characters [[\/\w \.-]], and an optional final slash,
    between [^] and [$]. *)
Definition reUrl : regex :=
  Cat (opt (Cat (Alt (Cat (lit "http") (opt (chr "s")))
                     (Alt (lit "ftp") (lit "file")))
                (lit "://")))
 (Cat (plus (Class host_char))
 (Cat (chr ".")
 (Cat (times 2 4 (Class tld_char))
 (Cat (Star (Star (Class path_char)))
      (opt (chr "/")))))).

(** [/^([a-z0-9_\.-]+)@([\da-z\.-]+)\.([a-z\.]{2,6})$/] *)
Definition reEmail : regex :=
  Cat (plus (Class local_char))
 (Cat (chr "@")
 (Cat (plus (Class host_char))
 (Cat (chr ".")
      (times 2 4 (Class tld_char))))).

(** [/^([a-z]+:)?\/\//i]: anchored at the start only, so any text may
    follow; the flag [i] makes the letter class [[A-Za-z]]. *)
Definition reProto : regex :=
  Cat (opt (Cat (plus (Class (fun c => is_lower c || is_upper c))) (chr ":")))
 (Cat (lit "//") (Star (Class (fun _ => true)))).

(** [re.test(content)]: the argument is coerced to a string. *)
Definition test (re : regex) (content : option string) : bool :=
  matches re (to_js_string content).

(** ** The abbreviation tree

    The tree is made of [Node] objects of the parser's node library.  The
    class is not among the sources.  Its record and its methods are
    modelled below from the data model and the tree node contract of the
    spec (sections 3 and 6), and from the way the source calls them. *)

(** Modelled from the spec: an entry [{name, value}] of the attribute
    list of a node. *)
Record Attribute := mkAttribute {
  attr_name : string;
  attr_value : option string            (* [None]: no value *)
}.

(** Modelled from the spec: the repeat state
    [{count: number|null, implicit: boolean, value: number, index: number}]. *)
Record Repeat := mkRepeat {
  rep_count : option nat;               (* [None]: [null], unresolved *)
  rep_implicit : bool;
  rep_value : nat;
  rep_index : nat
}.

(** A reference to a node object. *)
Abbreviation ref := nat (only parsing).

(** Modelled from the spec: the node, with its name, value, attributes in
    insertion order, children in order, parent back-reference and optional
    repeat state. *)
Record Node := mkNode {
  name : string;
  value : option string;                (* [None]: [null] or [undefined] *)
  attributes : list Attribute;
  children : list ref;
  parent : option ref;
  repeat : option Repeat
}.

Record Store := mkStore {
  cells : gmap nat Node;
  next_ref : nat                        (* the next object to be created *)
}.

Inductive error :=
  | TypeError                           (* a property of [null] is used *)
  | NodeError                           (* [throw new Error(...)] of the tree *)
  | Dangling                            (* a reference to no object *)
  | OutOfFuel.

Inductive result (A : Type) :=
  | Ok (a : A) (st : Store)
  | Err (e : error).
Arguments Ok {A} a st.
Arguments Err {A} e.

(** Programs over the store. *)
Definition M (A : Type) : Type := Store -> result A.

Global Instance M_ret : MRet M := fun A a st => Ok a st.

Global Instance M_bind : MBind M := fun A B f m st =>
  match m st with Ok a st' => f a st' | Err e => Err e end.

Definition throw {A} (e : error) : M A := fun _ => Err e.

(** [list.forEach(f)] over a list that [f] does not change, and the
    counting [for] loop. *)
Definition for_each {A} (l : list A) (f : A -> M unit) : M unit :=
  (fix go (l : list A) : M unit :=
     match l with
     | [] => mret tt
     | x :: rest => f x ;; go rest
     end) l.

Definition get_node (r : ref) : M Node :=
  fun st => match cells st !! r with
            | Some o => Ok o st
            | None => Err Dangling
            end.

Definition update_node (r : ref) (f : Node -> Node) : M unit :=
  fun st => match cells st !! r with
            | Some o => Ok tt (mkStore (<[r := f o]> (cells st)) (next_ref st))
            | None => Err Dangling
            end.

(** [new Node(...)] *)
Definition alloc (o : Node) : M ref :=
  fun st => Ok (next_ref st)
               (mkStore (<[next_ref st := o]> (cells st)) (S (next_ref st))).

Definition with_value (v : option string) (o : Node) : Node :=
  mkNode (name o) v (attributes o) (children o) (parent o) (repeat o).
Definition with_attributes (a : list Attribute) (o : Node) : Node :=
  mkNode (name o) (value o) a (children o) (parent o) (repeat o).
Definition with_children (c : list ref) (o : Node) : Node :=
  mkNode (name o) (value o) (attributes o) c (parent o) (repeat o).
Definition with_parent (p : option ref) (o : Node) : Node :=
  mkNode (name o) (value o) (attributes o) (children o) p (repeat o).
Definition with_repeat (r : option Repeat) (o : Node) : Node :=
  mkNode (name o) (value o) (attributes o) (children o) (parent o) r.

(** [node.value = v] *)
Definition set_value (node : ref) (v : option string) : M unit :=
  update_node node (with_value v).

(** Modelled from the spec: the attribute list after
    [setAttribute(name, value)], the attribute write of the node: the
    attribute of that name is replaced where it stands, or a new one is
    added last. *)
Fixpoint set_attribute (attrs : list Attribute) (n : string)
    (v : option string) : list Attribute :=
  match attrs with
  | [] => [mkAttribute n v]
  | a :: rest =>
    if String.eqb (attr_name a) n then mkAttribute n v :: rest
    else a :: set_attribute rest n v
  end.

(** [node.setAttribute(name, value)] *)
Definition setAttribute (node : ref) (n : string) (v : option string) : M unit :=
  update_node node (fun o => with_attributes (set_attribute (attributes o) n v) o).

(** Modelled from the spec: [node.hasAttribute(name)], the presence check. *)
Definition has_attribute (attrs : list Attribute) (n : string) : bool :=
  existsb (fun a => String.eqb (attr_name a) n) attrs.

(** [children.indexOf(node)] *)
Fixpoint index_of (r : ref) (l : list ref) : option nat :=
  match l with
  | [] => None
  | x :: rest => if x =? r then Some 0 else S <$> index_of r rest
  end.

(** [children.splice(ix, 1)] *)
Definition remove_at {A} (ix : nat) (l : list A) : list A :=
  take ix l ++ drop (S ix) l.

(** [children.splice(pos, 0, node)] *)
Definition insert_at {A} (pos : nat) (x : A) (l : list A) : list A :=
  take pos l ++ x :: drop pos l.

(** Modelled from the spec: [parent.removeChild(node)], by which a node
    removes itself: the node leaves the children of its parent and has no
    parent any more. *)
Definition removeChild (p node : ref) : M unit :=
  po ← get_node p;
  match index_of node (children po) with
  | Some ix =>
    update_node p (with_children (remove_at ix (children po))) ;;
    update_node node (with_parent None)
  | None => mret tt
  end.

(** Modelled from the spec: [node.remove()], remove-self; nothing happens
    to a node without parent. *)
Definition remove (node : ref) : M unit :=
  o ← get_node node;
  match parent o with
  | Some p => removeChild p node
  | None => mret tt
  end.

(** Modelled from the spec: [parent.insertAt(node, pos)], on which the
    insertions of the node rest; [pos] is [None] for a negative index.  A
    position outside the children is an error; the node leaves the parent it
    has, gets the new one and is put at [pos]. *)
Definition insertAt (p node : ref) (pos : option nat) : M unit :=
  po ← get_node p;
  match pos with
  | Some i =>
    if length (children po) <? i then throw NodeError
    else
      remove node ;;
      update_node node (with_parent (Some p)) ;;
      update_node p (fun o => with_children (insert_at i node (children o)) o)
  | None => throw NodeError
  end.

(** Modelled from the spec: [parent.appendChild(node)], with which clones
    get their children. *)
Definition appendChild (p node : ref) : M unit :=
  po ← get_node p; insertAt p node (Some (length (children po))).

(** Modelled from the spec: [parent.insertBefore(newNode, refNode)],
    insert-before-sibling. *)
Definition insertBefore (p newNode refNode : ref) : M unit :=
  po ← get_node p; insertAt p newNode (index_of refNode (children po)).

(** Modelled from the spec: [node.firstChild], from the children list. *)
Definition firstChild (node : ref) : M (option ref) :=
  o ← get_node node; mret (head (children o)).

(** The element that follows [r] in [l]. *)
Fixpoint after (r : ref) (l : list ref) : option ref :=
  match l with
  | [] => None
  | x :: rest => if x =? r then head rest else after r rest
  end.

(** Modelled from the spec: [node.next], the sibling after a node; the
    node class keeps its sibling links in step with the children of the
    parent, from which the link is read here. *)
Definition nextSibling (node : ref) : M (option ref) :=
  o ← get_node node;
  match parent o with
  | Some p => po ← get_node p; mret (after node (children po))
  | None => mret None
  end.

(** Modelled from the spec: [node.clone(deep)], the deep clone: a new
    object with the name, the value, a copy of the repeat object and copies
    of the attributes, sharing nothing with the original; with [deep],
    clones of the children are appended to it. *)
Fixpoint clone (fuel : nat) (deep : bool) (node : ref) : M ref :=
  match fuel with
  | 0 => throw OutOfFuel
  | S fuel' =>
    o ← get_node node;
    c ← alloc (mkNode (name o) (value o) (attributes o) [] None (repeat o));
    (if deep then
       for_each (children o) (fun child =>
         cc ← clone fuel' true child; appendChild c cc)
     else mret tt) ;;
    mret c
  end.

(** Modelled from the spec: the loop of [node.walk(fn)], the callback-based
    walk that the callback may edit as it goes.  Starting at the child
    [ctx], the next sibling is read before [fn] is called, so that a node
    detached by the call does not end the loop; then [fn] is called on
    [ctx], the descendants of [ctx] are walked, and the loop goes on with
    the sibling read first.  None of the callbacks of the source returns
    [false], the value that stops a walk.  The variable a callback assigns
    to is the accumulator [a]. *)
Fixpoint walk_from {A} (fuel : nat) (fn : ref -> A -> M A)
    (ctx : option ref) (a : A) : M A :=
  match ctx with
  | None => mret a
  | Some c =>
    match fuel with
    | 0 => throw OutOfFuel
    | S fuel' =>
      next ← nextSibling c;
      a1 ← fn c a;
      first ← firstChild c;
      a2 ← walk_from fuel' fn first a1;
      walk_from fuel' fn next a2
    end
  end.

(** Modelled from the spec: [node.walk(fn)].  [fn] is called on the
    descendants of [node] and not on [node] itself: [insertContent] below
    handles its node first and then walks it for the children. *)
Definition walk {A} (fuel : nat) (fn : ref -> A -> M A) (node : ref) (a : A) : M A :=
  first ← firstChild node; walk_from fuel fn first a.

(** ** The source: [lib/repeater-content.js] *)

(** The content argument of the exported functions. *)
Inductive content :=
  | CString (s : string)
  | CArray (items : list string)
  | COther.                             (* [undefined], a number, an object... *)

(** [clone.repeat.field = x]: an assignment to a field of the repeat
    object of a node. *)
Definition update_repeat (node : ref) (f : Repeat -> Repeat) : M unit :=
  o ← get_node node;
  match repeat o with
  | Some r => update_node node (with_repeat (Some (f r)))
  | None => throw TypeError
  end.

Definition set_implicit (b : bool) (r : Repeat) : Repeat :=
  mkRepeat (rep_count r) b (rep_value r) (rep_index r).
Definition set_count (c : option nat) (r : Repeat) : Repeat :=
  mkRepeat c (rep_implicit r) (rep_value r) (rep_index r).
Definition set_rep_value (v : nat) (r : Repeat) : Repeat :=
  mkRepeat (rep_count r) (rep_implicit r) v (rep_index r).
Definition set_index (i : nat) (r : Repeat) : Repeat :=
  mkRepeat (rep_count r) (rep_implicit r) (rep_value r) i.

(** [node.repeat && node.repeat.count === null] *)
Definition unresolved (o : Node) : bool :=
  match repeat o with
  | Some r => match rep_count r with None => true | Some _ => false end
  | None => false
  end.

(** [node.repeat && node.repeat.implicit] *)
Definition is_implicit (o : Node) : bool :=
  match repeat o with
  | Some r => rep_implicit r
  | None => false
  end.

(** The callback of the walk in [prepare]. *)
Definition prepare_node (fuel amount : nat) (node : ref) (_ : unit) : M unit :=
  o ← get_node node;
  if unresolved o then
    for_each (seq 0 amount) (fun i =>
      clone ← clone fuel true node;
      update_repeat clone (set_implicit true) ;;
      update_repeat clone (set_count (Some amount)) ;;
      update_repeat clone (set_rep_value (i + 1)) ;;
      update_repeat clone (set_index i) ;;
      o' ← get_node node;
      match parent o' with
      | Some p => insertBefore p clone node
      | None => throw TypeError
      end) ;;
    remove node
  else mret tt.

(** [export function prepare(tree, amount)] *)
Definition prepare (fuel : nat) (tree : ref) (amount : nat) : M ref :=
  let amount := if amount =? 0 then 1 else amount in
  walk fuel (prepare_node fuel amount) tree tt ;;
  mret tree.

(** A callback that assigns to a variable of the enclosing function, over
    a list it does not change. *)
Definition fold_each {A B} (l : list A) (f : A -> B -> M B) (b : B) : M B :=
  (fix go (l : list A) (b : B) : M B :=
     match l with
     | [] => mret b
     | x :: rest => b' ← f x b; go rest b'
     end) l b.

(** The truth value of a string-valued property. *)
Definition truthy (v : option string) : bool :=
  match v with
  | Some "" | None => false
  | Some _ => true
  end.

(** [function replacePlaceholder(str, value, _state)]; the field
    [_state.replaced] goes in and comes out as the boolean. *)
Definition replacePlaceholder (str value : option string) (replaced : bool)
    : option string * bool :=
  match str with
  | Some s =>
    let ranges := findUnescapedTokens s placeholder in
    if 0 <? ranges_length ranges then (Some (replaceRanges s ranges value), true)
    else (str, replaced)
  | None => (str, replaced)
  end.

(** One step of [node.attributes.forEach(attr => ...)]: the attribute at
    index [i] of the array as it is when the step runs. *)
Definition placeholder_in_attribute (node : ref) (value : option string)
    (i : nat) (replaced : bool) : M bool :=
  o ← get_node node;
  match attributes o !! i with
  | Some attr =>
    if truthy (attr_value attr) then
      let '(v, replaced') := replacePlaceholder (attr_value attr) value replaced in
      setAttribute node (attr_name attr) v ;; mret replaced'
    else mret replaced
  | None => mret replaced
  end.

(** [function insertContentIntoPlaceholder(node, content)] *)
Definition insertContentIntoPlaceholder (node : ref) (content : option string)
    : M bool :=
  o ← get_node node;
  let '(v, replaced) := replacePlaceholder (value o) content false in
  set_value node v ;;
  fold_each (seq 0 (length (attributes o)))
            (placeholder_in_attribute node content) replaced.

(** [function findDeepestNode(node)] *)
Fixpoint findDeepestNode (fuel : nat) (node : ref) : M ref :=
  o ← get_node node;
  match last (children o) with
  | None => mret node
  | Some child =>
    match fuel with
    | 0 => throw OutOfFuel
    | S fuel' => findDeepestNode fuel' child
    end
  end.

Definition lower_char (c : ascii) : ascii :=
  if is_upper c then ascii_of_nat (nat_of_ascii c + 32) else c.

(** [name.toLowerCase()], on the letters that can give ['a'] *)
Fixpoint toLowerCase (s : string) : string :=
  match s with
  | "" => ""
  | String c rest => String (lower_char c) (toLowerCase rest)
  end.

(** The first statement of [setNodeContent]: the value with the content at
    its carets, when the value is not empty and has an unescaped caret. *)
Definition replace_caret (v content : option string) : option string :=
  match v with
  | Some s =>
    if truthy v then
      let ranges := findUnescapedTokens s caret in
      if 0 <? ranges_length ranges then Some (replaceRanges s ranges content)
      else None
    else None
  | None => None
  end.

(** [node.name.toLowerCase() === 'a' || node.hasAttribute('href')] *)
Definition anchor_like (o : Node) : bool :=
  String.eqb (toLowerCase (name o)) "a" || has_attribute (attributes o) "href".

(** [function setNodeContent(node, content)] *)
Definition setNodeContent (node : ref) (content : option string) : M unit :=
  o ← get_node node;
  match replace_caret (value o) content with
  | Some v => set_value node (Some v)
  | None =>
    (if anchor_like o then
       if test reUrl content then
         setAttribute node "href"
           (Some ((if test reProto content then "" else "http://")
                    +:+ to_js_string content))
       else if test reEmail content then
         setAttribute node "href" (Some ("mailto:" +:+ to_js_string content))
       else mret tt
     else mret tt) ;;
    set_value node content
  end.

(** [function insertContent(node, content)] *)
Definition insertContent (fuel : nat) (node : ref) (content : option string)
    : M ref :=
  inserted ← insertContentIntoPlaceholder node content;
  inserted ← walk fuel (fun child inserted =>
                 b ← insertContentIntoPlaceholder child content;
                 mret (inserted || b)) node inserted;
  (if negb inserted then
     deepest ← findDeepestNode fuel node; setNodeContent deepest content
   else mret tt) ;;
  mret node.

(** The callback of the walk in [insert]; [updated] is the accumulator. *)
Definition insert_node (fuel : nat) (items : list string) (node : ref)
    (updated : bool) : M bool :=
  o ← get_node node;
  match repeat o with
  | Some r =>
    if rep_implicit r then
      insertContent fuel node (items !! rep_index r) ;; mret true
    else mret updated
  | None => mret updated
  end.

(** [content.join('\n')] *)
Definition join_lines (items : list string) : string :=
  String.concat (String "010" "") items.

(** [export function insert(tree, content)] *)
Definition insert (fuel : nat) (tree : ref) (c : content) : M ref :=
  match c with
  | CArray items =>
    if 0 <? length items then
      updated ← walk fuel (insert_node fuel items) tree false;
      (if negb updated then
         deepest ← findDeepestNode fuel tree;
         setNodeContent deepest (Some (join_lines items))
       else mret tt) ;;
      mret tree
    else mret tree
  | _ => mret tree
  end.

(** [if (typeof content === 'string') content = [content]] *)
Definition normalize_content (c : content) : content :=
  match c with
  | CString s => CArray [s]
  | _ => c
  end.

(** [export default function(tree, content)] *)
Definition default_export (fuel : nat) (tree : ref) (c : content) : M ref :=
  match normalize_content c with
  | CArray items =>
    if 0 <? length items then
      prepare fuel tree (length items) ;;
      insert fuel tree (CArray items) ;;
      mret tree
    else mret tree
  | _ => mret tree
  end.

(** ** Trees in the store *)

(** What a node holds besides its links. *)
Record Data := mkData {
  d_name : string;
  d_value : option string;
  d_attributes : list Attribute;
  d_repeat : option Repeat
}.

Definition data_of (o : Node) : Data :=
  mkData (name o) (value o) (attributes o) (repeat o).

(** A tree as a value, without references. *)
Inductive dtree := DNode (d : Data) (kids : list dtree).

(** The objects of the tree [t], created the way the parser does:
    children are appended to their parent one by one. *)
Fixpoint build (t : dtree) : M ref :=
  match t with
  | DNode d kids =>
    r ← alloc (mkNode (d_name d) (d_value d) (d_attributes d) [] None (d_repeat d));
    for_each kids (fun k => kr ← build k; appendChild r kr) ;;
    mret r
  end.

Definition empty_store : Store := mkStore ∅ 0.

(** The tree below [r], read from the store. *)
Fixpoint snapshot (fuel : nat) (st : Store) (r : ref) : option dtree :=
  match fuel with
  | 0 => None
  | S fuel' =>
    o ← cells st !! r;
    kids ← mapM (snapshot fuel' st) (children o);
    Some (DNode (data_of o) kids)
  end.


(** ** The scanner and the replace step, read as one substitution *)

(** What a scan and a replace do to a value, told without ranges: an
    escaped caret loses its marker, any other caret becomes the content. *)
Fixpoint substitute_caret (v s : string) : string :=
  match s with
  | "" => ""
  | String c rest =>
    if Ascii.eqb c escape_marker then
      match rest with
      | String a rest' =>
        if Ascii.eqb a "|" then String a (substitute_caret v rest')
        else String c (substitute_caret v rest)
      | "" => String c ""
      end
    else if Ascii.eqb c "|" then v +:+ substitute_caret v rest
    else String c (substitute_caret v rest)
  end.


Lemma prefix_empty (s : string) : String.prefix "" s = true.
Proof. by destruct s. Qed.

Lemma prefix_cons (a b : ascii) (s1 s2 : string) :
  String.prefix (String a s1) (String b s2) = Ascii.eqb a b && String.prefix s1 s2.
Proof.
  change (String.prefix (String a s1) (String b s2))
    with (if ascii_dec a b then String.prefix s1 s2 else false).
  destruct (ascii_dec a b) as [->|Hne].
  - by rewrite Ascii.eqb_refl.
  - apply Ascii.eqb_neq in Hne. by rewrite Hne.
Qed.

Lemma prefix_caret (s : string) :
  String.prefix caret s =
  match s with String a _ => Ascii.eqb a "|" | "" => false end.
Proof.
  destruct s as [|a s]; [done|]. unfold caret.
  by rewrite prefix_cons, prefix_empty, andb_true_r, Ascii.eqb_sym.
Qed.


Lemma scan_tokens_start token s pos k sp :
  In sp (scan_tokens token s pos k) -> pos + k <= span_start sp.
Proof.
  revert pos k. induction s as [|c s IH]; intros pos k; [done|].
  cbn [scan_tokens]. destruct k as [|k].
  - destruct (Ascii.eqb c escape_marker && String.prefix token s).
    { intros [<-|H]; [simpl; lia|]. apply IH in H. lia. }
    destruct (String.prefix token (String c s)).
    { intros [<-|H]; [simpl; lia|]. apply IH in H. lia. }
    intros H. apply IH in H. lia.
  - intros H. apply IH in H. lia.
Qed.

Lemma span_at_app l1 l2 pos :
  span_at (l1 ++ l2) pos =
  match span_at l1 pos with Some sp => Some sp | None => span_at l2 pos end.
Proof.
  unfold span_at. induction l1 as [|x l1 IH]; simpl; [done|].
  by destruct (span_start x =? pos).
Qed.

Lemma span_at_none l pos :
  (forall sp, In sp l -> span_start sp <> pos) -> span_at l pos = None.
Proof.
  unfold span_at. induction l as [|x l IH]; simpl; intros H; [done|].
  destruct (Nat.eqb_spec (span_start x) pos) as [Heq|_].
  - exfalso. by apply (H x); [left|].
  - apply IH. intros sp Hsp. apply H. by right.
Qed.

(** The spans of the part already passed do not matter to the rest. *)
Definition passed (l : list span) (pos : nat) : Prop :=
  forall sp, In sp l -> span_start sp < pos.

Lemma passed_snoc l sp pos pos' :
  passed l pos -> span_start sp < pos' -> pos <= pos' -> passed (l ++ [sp]) pos'.
Proof.
  intros Hl Hsp Hle x [Hx|[<-|[]]]%in_app_or; [|done].
  apply Hl in Hx. lia.
Qed.

Lemma passed_mono l pos pos' : passed l pos -> pos <= pos' -> passed l pos'.
Proof. intros Hl Hle x Hx. apply Hl in Hx. lia. Qed.

Lemma span_at_passed l l' pos :
  passed l pos -> span_at (l ++ l') pos = span_at l' pos.
Proof.
  intros Hl. rewrite span_at_app, span_at_none; [done|].
  intros sp Hsp. apply Hl in Hsp. lia.
Qed.

Lemma span_at_scan_later l token s pos pos' k :
  passed l pos -> pos < pos' + k ->
  span_at (l ++ scan_tokens token s pos' k) pos = None.
Proof.
  intros Hl Hlt. rewrite span_at_passed by done.
  apply span_at_none. intros sp Hsp%scan_tokens_start. lia.
Qed.

Lemma span_at_here l sp l' pos :
  passed l pos -> span_start sp = pos -> span_at (l ++ sp :: l') pos = Some sp.
Proof.
  intros Hl Hsp. rewrite span_at_passed by done.
  unfold span_at. simpl. by rewrite Hsp, Nat.eqb_refl.
Qed.

Lemma escape_is_not_caret c :
  Ascii.eqb c escape_marker = true -> Ascii.eqb c "|" = false.
Proof. intros ->%Ascii.eqb_eq. reflexivity. Qed.

Lemma rebuild_scan_caret v n : forall s pos l,
  String.length s <= n -> passed l pos ->
  rebuild s pos 0 (l ++ scan_tokens caret s pos 0) v = substitute_caret v s.
Proof.
  induction n as [|n IH]; intros [|c rest] pos l Hn Hl; simpl in Hn; try done; try lia.
  cbn [scan_tokens rebuild substitute_caret].
  change (String.length caret) with 1.
  rewrite !prefix_caret.
  destruct (Ascii.eqb c escape_marker) eqn:Hc.
  - destruct rest as [|a rest'].
    + rewrite (escape_is_not_caret c Hc). cbn [andb scan_tokens rebuild].
      by rewrite app_nil_r, span_at_none by (intros sp ?%Hl; lia).
    + destruct (Ascii.eqb a "|") eqn:Ha; cbn [andb].
      * rewrite span_at_here by done. cbn [scan_tokens rebuild].
        rewrite (cons_middle (Escaped _)), app_assoc.
        rewrite span_at_scan_later; [|by eapply passed_snoc; eauto; simpl; lia|lia].
        f_equal. apply IH; [simpl in Hn; lia|].
        eapply passed_snoc; eauto; simpl; lia.
      * rewrite (escape_is_not_caret c Hc).
        rewrite span_at_scan_later by (done || lia).
        f_equal. apply IH; [lia|]. eapply passed_mono; eauto.
  - cbn [andb]. destruct (Ascii.eqb c "|") eqn:Hbar.
    + rewrite span_at_here by done.
      replace (pos + 1 <=? pos) with false by (symmetry; apply Nat.leb_gt; lia).
      replace (pos + 1 - pos - 1) with 0 by lia. replace (1 - 1) with 0 by lia.
      f_equal. rewrite (cons_middle (Matched _)), app_assoc.
      apply IH; [lia|]. eapply passed_snoc; eauto; simpl; lia.
    + rewrite span_at_scan_later by (done || lia).
      f_equal. apply IH; [lia|]. eapply passed_mono; eauto.
Qed.

(** Scanning a value for carets and replacing the ranges found is the
    substitution. *)
Lemma replaceRanges_caret (s : string) (v : option string) :
  replaceRanges s (findUnescapedTokens s caret) v
  = substitute_caret (to_js_string v) s.
Proof.
  unfold replaceRanges, findUnescapedTokens.
  apply (rebuild_scan_caret _ (String.length s) s 0 []); [lia|].
  by intros sp [].
Qed.




(** The last character of a string is the escape marker. *)
Fixpoint ends_with_escape (s : string) : bool :=
  match s with
  | "" => false
  | String c "" => Ascii.eqb c escape_marker
  | String _ rest => ends_with_escape rest
  end.

Lemma substitute_caret_at v post n : forall pre,
  String.length pre <= n -> ends_with_escape pre = false ->
  substitute_caret v (pre +:+ caret +:+ post)
  = substitute_caret v pre +:+ v +:+ substitute_caret v post.
Proof.
  induction n as [|n IH]; intros [|c rest] Hn Hpre; simpl in Hn; try lia; try done.
  rewrite append_cons. cbn [substitute_caret].
  assert (Hplain : rest <> "" ->
    String c (substitute_caret v (rest +:+ caret +:+ post))
    = String c (substitute_caret v rest) +:+ v +:+ substitute_caret v post).
  { intros Hrest. rewrite append_cons. f_equal. apply IH; [lia|].
    by destruct rest. }
  destruct (Ascii.eqb c escape_marker) eqn:Hc.
  - destruct rest as [|a rest']; [simpl in Hpre; congruence|].
    specialize (Hplain ltac:(done)). rewrite append_cons in Hplain |- *.
    destruct (Ascii.eqb a "|").
    + rewrite append_cons. f_equal. apply IH; [simpl in Hn; lia|].
      by destruct rest'.
    + done.
  - destruct rest as [|b rest'].
    + rewrite append_empty_l.
      change (caret +:+ post) with (String "|" post).
      cbn [substitute_caret]. change (Ascii.eqb "|" escape_marker) with false.
      change (Ascii.eqb "|" "|") with true. cbv iota.
      destruct (Ascii.eqb c "|"); [by rewrite append_empty_r|].
      by rewrite !append_cons, append_empty_l.
    + specialize (Hplain ltac:(done)).
      destruct (Ascii.eqb c "|"); [|done].
      rewrite append_assoc. f_equal. apply IH; [lia|done].
Qed.


(** ** Reading programs *)

Lemma bind_run {A B} (m : M A) (f : A -> M B) (st : Store) :
  (m ≫= f) st = match m st with Ok a st' => f a st' | Err e => Err e end.
Proof. reflexivity. Qed.

Lemma bind_ok {A B} (m : M A) (f : A -> M B) (st st' : Store) (a : A) :
  m st = Ok a st' -> (m ≫= f) st = f a st'.
Proof. intros H. by rewrite bind_run, H. Qed.

Lemma ret_run {A} (a : A) (st : Store) : (mret a : M A) st = Ok a st.
Proof. reflexivity. Qed.

Lemma get_node_ok r o st : cells st !! r = Some o -> get_node r st = Ok o st.
Proof. intros H. unfold get_node. by rewrite H. Qed.

Lemma update_node_ok r f o st :
  cells st !! r = Some o ->
  update_node r f st = Ok tt (mkStore (<[r := f o]> (cells st)) (next_ref st)).
Proof. intros H. unfold update_node. by rewrite H. Qed.

Lemma fold_each_cons {A B} (x : A) (l : list A) (f : A -> B -> M B) (b : B) :
  fold_each (x :: l) f b = (b' ← f x b; fold_each l f b').
Proof. reflexivity. Qed.

Lemma fold_each_app {A B} (l1 l2 : list A) (f : A -> B -> M B) (b : B) st :
  fold_each (l1 ++ l2) f b st = (b' ← fold_each l1 f b; fold_each l2 f b') st.
Proof.
  revert b st. induction l1 as [|x l1 IH]; intros b st; [done|].
  rewrite <- app_comm_cons, !fold_each_cons, !bind_run.
  destruct (f x b st) as [b' st'|e]; [|done].
  by rewrite IH, bind_run.
Qed.

(** ** Trees of references *)

(** The objects of a tree and how they hang together. *)
Inductive rtree := RNode (r : ref) (kids : list rtree).

Definition root (t : rtree) : ref := match t with RNode r _ => r end.
Definition kids (t : rtree) : list rtree := match t with RNode _ ks => ks end.

(** The objects of a tree in document order. *)
Fixpoint refs (t : rtree) : list ref :=
  match t with RNode r ks => r :: flat_map refs ks end.

(** The descendants of the root in document order. *)
Definition desc (t : rtree) : list ref := flat_map refs (kids t).

Fixpoint size (t : rtree) : nat :=
  match t with RNode _ ks => S (list_sum (map size ks)) end.

Definition forest_size (ks : list rtree) : nat := list_sum (map size ks).

(** The deepest node: the last child of the last child, and so on. *)
Fixpoint deepest (t : rtree) : ref :=
  match t with
  | RNode r ks =>
    (fix go (ks : list rtree) (d : ref) : ref :=
       match ks with
       | [] => d
       | k :: ks' => go ks' (deepest k)
       end) ks r
  end.

Lemma rtree_forall_ind (P : rtree -> Prop) :
  (forall r ks, Forall P ks -> P (RNode r ks)) -> forall t, P t.
Proof.
  intros H. fix ind 1. intros [r ks]. apply H.
  induction ks as [|k ks IH]; constructor; [apply ind|apply IH].
Qed.

(** [shape st p t]: in the store, [t] is a tree whose root has parent [p]. *)
Inductive shape (st : Store) : option ref -> rtree -> Prop :=
  | shape_node p r ks o :
      cells st !! r = Some o ->
      parent o = p ->
      children o = map root ks ->
      Forall (shape st (Some r)) ks ->
      shape st p (RNode r ks).

(** Two stores with the same objects, linked the same way; values and
    attributes may differ. *)
Definition node_links_eq (o o' : Node) : Prop :=
  children o' = children o /\ parent o' = parent o /\
  name o' = name o /\ repeat o' = repeat o.

Definition links_eq (st st' : Store) : Prop :=
  next_ref st' = next_ref st /\
  forall r, option_Forall2 node_links_eq (cells st !! r) (cells st' !! r).

Lemma node_links_eq_refl o : node_links_eq o o.
Proof. by repeat split. Qed.

Lemma node_links_eq_trans o1 o2 o3 :
  node_links_eq o1 o2 -> node_links_eq o2 o3 -> node_links_eq o1 o3.
Proof. intros (?&?&?&?) (?&?&?&?). repeat split; congruence. Qed.

Lemma links_eq_refl st : links_eq st st.
Proof.
  split; [done|]. intros r. destruct (cells st !! r); constructor.
  apply node_links_eq_refl.
Qed.

Lemma links_eq_trans st1 st2 st3 :
  links_eq st1 st2 -> links_eq st2 st3 -> links_eq st1 st3.
Proof.
  intros [Hn1 H1] [Hn2 H2]. split; [congruence|]. intros r.
  specialize (H1 r). specialize (H2 r).
  destruct H1 as [o1 o2 H12|]; inversion H2; subst; constructor.
  by eapply node_links_eq_trans.
Qed.

Lemma links_eq_lookup st st' r o :
  links_eq st st' -> cells st !! r = Some o ->
  exists o', cells st' !! r = Some o' /\ node_links_eq o o'.
Proof.
  intros [_ H] Hr. specialize (H r). rewrite Hr in H.
  inversion H; subst. eauto.
Qed.

Lemma links_eq_update st r o f :
  cells st !! r = Some o -> node_links_eq o (f o) ->
  links_eq st (mkStore (<[r := f o]> (cells st)) (next_ref st)).
Proof.
  intros Hr Hf. split; [done|]. intros r'. simpl.
  destruct (decide (r = r')) as [<-|Hne].
  - rewrite lookup_insert_eq, Hr. by constructor.
  - rewrite lookup_insert_ne by done.
    destruct (cells st !! r'); constructor. apply node_links_eq_refl.
Qed.

Lemma shape_links_eq st st' p t :
  links_eq st st' -> shape st p t -> shape st' p t.
Proof.
  intros Heq. revert p.
  induction t as [r ks IH] using rtree_forall_ind. intros p Hs.
  inversion Hs as [? ? ? o Hr Hp Hc Hks]; subst.
  destruct (links_eq_lookup _ _ _ _ Heq Hr) as (o' & Hr' & Hc' & Hp' & _).
  econstructor; [done|done|congruence|].
  rewrite Forall_forall in IH, Hks |- *. intros k Hk. by apply IH, Hks.
Qed.

(** ** Programs that keep the links *)

(** The store with the object [o] at [r]. *)
Definition put (r : ref) (o : Node) (st : Store) : Store :=
  mkStore (<[r := o]> (cells st)) (next_ref st).

Lemma fold_each_inv {A B} (I : Store -> Prop) (l : list A) (f : A -> B -> M B) :
  (forall x b st, In x l -> I st -> exists b' st', f x b st = Ok b' st' /\ I st') ->
  forall b st, I st -> exists b' st', fold_each l f b st = Ok b' st' /\ I st'.
Proof.
  induction l as [|x l IH]; intros Hf b st HI.
  - exists b, st. done.
  - destruct (Hf x b st) as (b1 & st1 & Hx & HI1); [by left|done|].
    destruct (IH (fun y b st Hy => Hf y b st (or_intror Hy)) b1 st1 HI1)
      as (b2 & st2 & Hl & HI2).
    exists b2, st2. split; [|done].
    by rewrite fold_each_cons, (bind_ok _ _ _ _ _ Hx).
Qed.

Lemma update_node_run r f o st :
  cells st !! r = Some o -> update_node r f st = Ok tt (put r (f o) st).
Proof. apply update_node_ok. Qed.

Lemma set_value_run node v st o :
  cells st !! node = Some o ->
  set_value node v st = Ok tt (put node (with_value v o) st).
Proof. apply update_node_ok. Qed.

Lemma setAttribute_run node n v st o :
  cells st !! node = Some o ->
  setAttribute node n v st
  = Ok tt (put node (with_attributes (set_attribute (attributes o) n v) o) st).
Proof. intros H. unfold setAttribute. by rewrite (update_node_ok _ _ _ _ H). Qed.

Lemma put_lookup r o st : cells (put r o st) !! r = Some o.
Proof. apply lookup_insert_eq. Qed.

Lemma put_lookup_ne r r' o st : r <> r' -> cells (put r o st) !! r' = cells st !! r'.
Proof. intros. by apply lookup_insert_ne. Qed.

Lemma put_put r o o' st : put r o' (put r o st) = put r o' st.
Proof. unfold put. simpl. by rewrite insert_insert_eq. Qed.

Lemma links_eq_put st r o o' :
  cells st !! r = Some o -> node_links_eq o o' -> links_eq st (put r o' st).
Proof. intros Hr Ho. by apply (links_eq_update st r o (fun _ => o')). Qed.

(** What [setNodeContent] leaves in the object. *)
Definition with_href (content : option string) (o : Node) : Node :=
  if anchor_like o then
    if test reUrl content then
      with_attributes
        (set_attribute (attributes o) "href"
           (Some ((if test reProto content then "" else "http://")
                    +:+ to_js_string content))) o
    else if test reEmail content then
      with_attributes
        (set_attribute (attributes o) "href"
           (Some ("mailto:" +:+ to_js_string content))) o
    else o
  else o.

Definition content_set (content : option string) (o : Node) : Node :=
  match replace_caret (value o) content with
  | Some v => with_value (Some v) o
  | None => with_value content (with_href content o)
  end.

Lemma setNodeContent_run node content st o :
  cells st !! node = Some o ->
  setNodeContent node content st = Ok tt (put node (content_set content o) st).
Proof.
  intros Hr. unfold setNodeContent, content_set.
  rewrite (bind_ok _ _ _ _ _ (get_node_ok _ _ _ Hr)).
  destruct (replace_caret (value o) content) as [v|].
  { by apply set_value_run. }
  unfold with_href.
  destruct (anchor_like o).
  - destruct (test reUrl content).
    + rewrite (bind_ok _ _ _ _ _ (setAttribute_run _ _ _ _ _ Hr)).
      rewrite (set_value_run _ _ _ _ (put_lookup _ _ _)). by rewrite put_put.
    + destruct (test reEmail content).
      * rewrite (bind_ok _ _ _ _ _ (setAttribute_run _ _ _ _ _ Hr)).
        rewrite (set_value_run _ _ _ _ (put_lookup _ _ _)). by rewrite put_put.
      * rewrite bind_run, ret_run. by apply set_value_run.
  - rewrite bind_run, ret_run. by apply set_value_run.
Qed.

Lemma content_set_links content o : node_links_eq o (content_set content o).
Proof.
  unfold content_set, with_href.
  destruct (replace_caret _ _); [done|].
  destruct (anchor_like o); [|done].
  destruct (test reUrl content); [done|]. by destruct (test reEmail content).
Qed.

(** [node.getAttribute(name)] *)
Definition get_attribute (attrs : list Attribute) (n : string) : option Attribute :=
  find (fun a => String.eqb (attr_name a) n) attrs.

Lemma get_set_attribute attrs n v :
  get_attribute (set_attribute attrs n v) n = Some (mkAttribute n v).
Proof.
  unfold get_attribute. induction attrs as [|a attrs IH]; simpl.
  - by rewrite String.eqb_refl.
  - destruct (String.eqb (attr_name a) n) eqn:Ha; simpl.
    + by rewrite String.eqb_refl.
    + by rewrite Ha.
Qed.

Lemma replace_caret_none v content :
  (forall s, v = Some s -> ranges_length (findUnescapedTokens s caret) = 0) ->
  replace_caret v content = None.
Proof.
  intros H. destruct v as [s|]; [|done]. unfold replace_caret.
  rewrite (H s eq_refl). by destruct (truthy (Some s)).
Qed.

(** ** Walking a tree whose links stay as they are *)

Lemma shape_inv st p t :
  shape st p t ->
  exists o, cells st !! root t = Some o /\ parent o = p /\
            children o = map root (kids t) /\
            Forall (shape st (Some (root t))) (kids t).
Proof. intros H. inversion H; subst. simpl. eauto. Qed.

Lemma refs_root t : refs t = root t :: desc t.
Proof. by destruct t. Qed.

Lemma root_in_refs t : In (root t) (refs t).
Proof. rewrite refs_root. by left. Qed.

Lemma size_pos t : 0 < size t.
Proof. destruct t. simpl. lia. Qed.

Lemma size_kids t : size t = S (forest_size (kids t)).
Proof. by destruct t. Qed.

Lemma forest_size_cons k ks : forest_size (k :: ks) = size k + forest_size ks.
Proof. reflexivity. Qed.

Lemma shape_present st p t r :
  shape st p t -> In r (refs t) -> is_Some (cells st !! r).
Proof.
  revert p. induction t as [x ks IH] using rtree_forall_ind. intros p Hs Hr.
  inversion Hs as [? ? ? o Hx Hp Hc Hks]; subst.
  destruct Hr as [<-|Hr]; [by eexists|].
  apply in_flat_map in Hr as (k & Hk & Hr).
  apply list_elem_of_In in Hk.
  rewrite Forall_forall in IH, Hks. by eapply IH, Hr; [|apply Hks].
Qed.

Lemma NoDup_roots ks : NoDup (flat_map refs ks) -> NoDup (map root ks).
Proof.
  induction ks as [|k ks IH]; simpl; intros H; [constructor|].
  apply NoDup_app in H as (Hk & Hdis & Hks).
  constructor; [|by apply IH].
  intros Hin. apply list_elem_of_In, in_map_iff in Hin as (k' & Heq & Hk').
  apply (Hdis (root k)); [apply list_elem_of_In, root_in_refs|].
  apply list_elem_of_In, in_flat_map. exists k'. split; [done|].
  rewrite <- Heq. apply root_in_refs.
Qed.

Lemma after_middle r (pre l : list ref) : ~ In r pre -> after r (pre ++ r :: l) = head l.
Proof.
  induction pre as [|x pre IH]; simpl; intros Hr.
  - by rewrite Nat.eqb_refl.
  - destruct (Nat.eqb_spec x r) as [->|_]; [tauto|]. apply IH. tauto.
Qed.

(** A callback that always returns and keeps the links, on the objects
    [cs], in every store linked as [st] is. *)
Definition steady {A} (st : Store) (cs : list ref) (fn : ref -> A -> M A) : Prop :=
  forall c a st', In c cs -> links_eq st st' ->
    exists a' st'', fn c a st' = Ok a' st'' /\ links_eq st' st''.

Lemma steady_sub {A} st cs cs' (fn : ref -> A -> M A) :
  steady st cs fn -> (forall c, In c cs' -> In c cs) -> steady st cs' fn.
Proof. intros H Hsub c a st' Hc. apply H. by apply Hsub. Qed.

Lemma steady_links_eq {A} st st1 cs (fn : ref -> A -> M A) :
  steady st cs fn -> links_eq st st1 -> steady st1 cs fn.
Proof.
  intros H Heq c a st' Hc Heq'. apply H; [done|]. by eapply links_eq_trans.
Qed.

Lemma fold_each_steady {A} st cs (fn : ref -> A -> M A) a :
  steady st cs fn ->
  exists a' st', fold_each cs fn a st = Ok a' st' /\ links_eq st st'.
Proof.
  intros H.
  apply (fold_each_inv (links_eq st) cs fn); [|apply links_eq_refl].
  intros c b st1 Hc Heq. destruct (H c b st1 Hc Heq) as (b' & st2 & Hrun & Heq').
  exists b', st2. split; [done|]. by eapply links_eq_trans.
Qed.

Lemma walk_from_none {A} fuel (fn : ref -> A -> M A) a :
  walk_from fuel fn None a = mret a.
Proof. by destruct fuel. Qed.

Lemma walk_from_fold {A} (fn : ref -> A -> M A) :
  forall fuel ks (pre : list ref) r o a st,
  cells st !! r = Some o ->
  children o = pre ++ map root ks ->
  NoDup (children o) ->
  Forall (shape st (Some r)) ks ->
  NoDup (flat_map refs ks) ->
  steady st (flat_map refs ks) fn ->
  forest_size ks <= fuel ->
  walk_from fuel fn (head (map root ks)) a st
  = fold_each (flat_map refs ks) fn a st.
Proof.
  induction fuel as [|fuel IH]; intros [|k ks] pre r o a st Hr Hc Hnd Hks Hrefs Hfn Hfuel;
    try (by rewrite walk_from_none).
  { rewrite forest_size_cons in Hfuel. pose proof (size_pos k). lia. }
  apply Forall_cons in Hks as [Hk Hks].
  destruct (shape_inv _ _ _ Hk) as (ok & Hrk & Hpk & Hck & Hkk).
  cbn [map head walk_from flat_map].
  rewrite refs_root, <- app_comm_cons, fold_each_cons.
  (* the next sibling is read before the callback runs *)
  assert (Hnext : nextSibling (root k) st = Ok (head (map root ks)) st).
  { unfold nextSibling. rewrite (bind_ok _ _ _ _ _ (get_node_ok _ _ _ Hrk)), Hpk.
    rewrite (bind_ok _ _ _ _ _ (get_node_ok _ _ _ Hr)), ret_run, Hc.
    cbn [map]. rewrite after_middle; [done|].
    rewrite Hc in Hnd. cbn [map] in Hnd.
    apply NoDup_app in Hnd as (_ & Hdis & _).
    intros Hin. apply (Hdis (root k)); [by apply list_elem_of_In|]. by left. }
  rewrite (bind_ok _ _ _ _ _ Hnext).
  destruct (Hfn (root k) a st) as (a1 & st1 & Hrun & Heq1);
    [cbn [flat_map]; apply in_or_app; left; apply root_in_refs|apply links_eq_refl|].
  rewrite !(bind_ok _ _ _ _ _ Hrun).
  (* the descendants of [k] *)
  destruct (links_eq_lookup _ _ _ _ Heq1 Hrk) as (ok1 & Hrk1 & Hck1 & _).
  assert (Hfirst : firstChild (root k) st1 = Ok (head (map root (kids k))) st1).
  { unfold firstChild. rewrite (bind_ok _ _ _ _ _ (get_node_ok _ _ _ Hrk1)).
    by rewrite ret_run, Hck1, Hck. }
  rewrite (bind_ok _ _ _ _ _ Hfirst).
  cbn [flat_map] in Hrefs. rewrite refs_root in Hrefs.
  apply NoDup_app in Hrefs as (Hndk & Hdis & Hndks).
  apply NoDup_cons in Hndk as [Hrootk Hnddesc].
  assert (Hfn1 : steady st1 (flat_map refs (k :: ks)) fn) by by eapply steady_links_eq.
  cbn [flat_map] in Hfn1. rewrite refs_root in Hfn1.
  rewrite forest_size_cons, size_kids in Hfuel.
  assert (Hinner :
    walk_from fuel fn (head (map root (kids k))) a1 st1
    = fold_each (desc k) fn a1 st1).
  { apply (IH (kids k) [] (root k) ok1); try done.
    - by rewrite Hck1, Hck.
    - rewrite Hck1, Hck. by apply NoDup_roots.
    - eapply Forall_impl; [exact Hkk|]. intros t. by apply shape_links_eq.
    - eapply steady_sub; [exact Hfn1|]. intros c Hc'.
      apply in_or_app. left. by right.
    - unfold desc in *. lia. }
  rewrite fold_each_app, !bind_run, Hinner.
  destruct (fold_each_steady st1 (desc k) fn a1) as (a2 & st2 & Hrun2 & Heq2).
  { eapply steady_sub; [exact Hfn1|]. intros c Hc'. apply in_or_app. left. by right. }
  rewrite Hrun2.
  (* the siblings after [k] *)
  assert (Heq02 : links_eq st st2) by by eapply links_eq_trans.
  destruct (links_eq_lookup _ _ _ _ Heq02 Hr) as (o2 & Hr2 & Hc2 & _).
  apply (IH ks (pre ++ [root k]) r o2); try done.
  - rewrite Hc2, Hc. cbn [map]. by rewrite <- app_assoc.
  - by rewrite Hc2.
  - eapply Forall_impl; [exact Hks|]. intros t. by apply shape_links_eq.
  - eapply steady_sub; [by eapply steady_links_eq; [exact Hfn|]|].
    intros c Hc'. cbn [flat_map]. apply in_or_app. by right.
  - lia.
Qed.

Lemma firstChild_run r o st :
  cells st !! r = Some o -> firstChild r st = Ok (head (children o)) st.
Proof.
  intros Hr. unfold firstChild.
  by rewrite (bind_ok _ _ _ _ _ (get_node_ok _ _ _ Hr)).
Qed.

Lemma walk_fold {A} (fn : ref -> A -> M A) fuel p t a st :
  shape st p t -> NoDup (refs t) -> steady st (desc t) fn ->
  size t <= S fuel ->
  walk fuel fn (root t) a st = fold_each (desc t) fn a st.
Proof.
  intros Hs Hnd Hfn Hfuel.
  destruct (shape_inv _ _ _ Hs) as (o & Hr & Hp & Hc & Hks).
  unfold walk. rewrite (bind_ok _ _ _ _ _ (firstChild_run _ _ _ Hr)), Hc.
  rewrite refs_root in Hnd. apply NoDup_cons in Hnd as [_ Hnd].
  apply (walk_from_fold fn fuel (kids t) [] (root t) o); try done.
  - rewrite Hc. by apply NoDup_roots.
  - rewrite size_kids in Hfuel. lia.
Qed.

Lemma deepest_last r ks :
  deepest (RNode r ks)
  = match last ks with Some k => deepest k | None => r end.
Proof.
  cbn [deepest]. generalize r.
  induction ks as [|k ks IH]; intros d; [done|].
  cbn beta iota. rewrite IH. destruct ks as [|k' ks]; [done|].
  change (last (k :: k' :: ks)) with (last (k' :: ks)).
  destruct (last (k' :: ks)) eqn:Hlast; [done|]. by apply last_None in Hlast.
Qed.

Lemma last_map {A B} (f : A -> B) (l : list A) : last (map f l) = f <$> last l.
Proof.
  induction l as [|x l IH]; [done|]. destruct l as [|y l]; [done|].
  cbn [map] in *. by rewrite !last_cons_cons.
Qed.

Lemma last_in {A} (l : list A) (x : A) : last l = Some x -> In x l.
Proof. intros H. apply list_elem_of_In. by apply last_Some_elem_of. Qed.

Lemma size_kid_le k ks : In k ks -> size k <= forest_size ks.
Proof.
  induction ks as [|k' ks IH]; intros []; subst; rewrite forest_size_cons.
  - lia.
  - specialize (IH H). lia.
Qed.

Lemma findDeepestNode_run fuel : forall p t st,
  shape st p t -> size t <= S fuel ->
  findDeepestNode fuel (root t) st = Ok (deepest t) st.
Proof.
  induction fuel as [|fuel IH]; intros p [r ks] st Hs Hfuel;
    destruct (shape_inv _ _ _ Hs) as (o & Hr & Hp & Hc & Hks);
    cbn [root kids] in *; rewrite deepest_last;
    cbn [findDeepestNode];
    rewrite (bind_ok _ _ _ _ _ (get_node_ok _ _ _ Hr)), Hc, last_map;
    destruct (last ks) as [k|] eqn:Hlast; try done; cbn [fmap option_fmap option_map].
  - apply last_in, size_kid_le in Hlast. pose proof (size_pos k).
    rewrite size_kids in Hfuel. cbn [kids] in Hfuel. lia.
  - pose proof (last_in _ _ Hlast) as Hin.
    apply (IH (Some r)).
    + rewrite Forall_forall in Hks. by apply Hks, list_elem_of_In.
    + apply size_kid_le in Hin. rewrite size_kids in Hfuel.
      cbn [kids] in Hfuel. lia.
Qed.

(** ** Placeholders in one node *)

(** The string has an unescaped placeholder. *)
Definition has_placeholder (v : option string) : bool :=
  match v with
  | Some s => 0 <? ranges_length (findUnescapedTokens s placeholder)
  | None => false
  end.

(** The string after [replacePlaceholder]. *)
Definition fill_value (content v : option string) : option string :=
  (replacePlaceholder v content false).1.

Lemma replacePlaceholder_eq v content replaced :
  replacePlaceholder v content replaced
  = (fill_value content v, replaced || has_placeholder v).
Proof.
  unfold fill_value, has_placeholder, replacePlaceholder.
  destruct v as [s|]; [|by rewrite orb_false_r].
  destruct (0 <? _); simpl; [by rewrite orb_true_r|by rewrite orb_false_r].
Qed.

(** An attribute after its step of [insertContentIntoPlaceholder]. *)
Definition fill_attribute (content : option string) (a : Attribute) : Attribute :=
  if truthy (attr_value a)
  then mkAttribute (attr_name a) (fill_value content (attr_value a))
  else a.

Definition attribute_has_placeholder (a : Attribute) : bool :=
  truthy (attr_value a) && has_placeholder (attr_value a).

(** A node after [insertContentIntoPlaceholder], and what the call returns. *)
Definition fill_node (content : option string) (o : Node) : Node :=
  with_attributes (map (fill_attribute content) (attributes o))
    (with_value (fill_value content (value o)) o).

Definition node_has_placeholder (o : Node) : bool :=
  has_placeholder (value o) || existsb attribute_has_placeholder (attributes o).

Lemma placeholder_in_attribute_links node content i replaced st :
  is_Some (cells st !! node) ->
  exists b st', placeholder_in_attribute node content i replaced st = Ok b st'
                /\ links_eq st st'.
Proof.
  intros [o Hr]. unfold placeholder_in_attribute.
  rewrite (bind_ok _ _ _ _ _ (get_node_ok _ _ _ Hr)).
  destruct (attributes o !! i) as [attr|]; [|eexists _, _; split; [done|apply links_eq_refl]].
  destruct (truthy (attr_value attr)); [|eexists _, _; split; [done|apply links_eq_refl]].
  destruct (replacePlaceholder _ _ _) as [v b].
  rewrite (bind_ok _ _ _ _ _ (setAttribute_run _ _ _ _ _ Hr)), ret_run.
  eexists _, _. split; [done|]. by eapply links_eq_put.
Qed.

Lemma links_eq_present st st' r :
  links_eq st st' -> is_Some (cells st !! r) -> is_Some (cells st' !! r).
Proof.
  intros Heq [o Hr]. destruct (links_eq_lookup _ _ _ _ Heq Hr) as (o' & Hr' & _).
  by eexists.
Qed.

Lemma insertContentIntoPlaceholder_links node content st :
  is_Some (cells st !! node) ->
  exists b st', insertContentIntoPlaceholder node content st = Ok b st'
                /\ links_eq st st'.
Proof.
  intros [o Hr]. unfold insertContentIntoPlaceholder.
  rewrite (bind_ok _ _ _ _ _ (get_node_ok _ _ _ Hr)).
  destruct (replacePlaceholder _ _ _) as [v b].
  rewrite (bind_ok _ _ _ _ _ (set_value_run _ _ _ _ Hr)).
  assert (Heq : links_eq st (put node (with_value v o) st)) by by eapply links_eq_put.
  destruct (fold_each_inv (links_eq st) (seq 0 (length (attributes o)))
              (placeholder_in_attribute node content)) with (b := b)
              (st := put node (with_value v o) st) as (b' & st' & Hrun & Heq');
    [|done|by eauto].
  intros i b1 st1 _ Heq1.
  destruct (placeholder_in_attribute_links node content i b1 st1)
    as (b2 & st2 & Hrun2 & Heq2); [by eapply links_eq_present; eauto|].
  exists b2, st2. split; [done|]. by eapply links_eq_trans.
Qed.

Lemma fill_attribute_name content a :
  attr_name (fill_attribute content a) = attr_name a.
Proof. unfold fill_attribute. by destruct (truthy (attr_value a)). Qed.

Lemma set_attribute_middle (l1 l2 : list Attribute) a v :
  ~ In (attr_name a) (map attr_name l1) ->
  set_attribute (l1 ++ a :: l2) (attr_name a) v
  = l1 ++ mkAttribute (attr_name a) v :: l2.
Proof.
  induction l1 as [|x l1 IH]; simpl; intros Hn.
  - by rewrite String.eqb_refl.
  - destruct (String.eqb_spec (attr_name x) (attr_name a)) as [Heq|_]; [tauto|].
    f_equal. apply IH. tauto.
Qed.

Lemma put_same r o st : cells st !! r = Some o -> put r o st = st.
Proof.
  intros Hr. destruct st as [c n]. unfold put. simpl in *. f_equal.
  by apply insert_id.
Qed.

Lemma with_attributes_same o : with_attributes (attributes o) o = o.
Proof. by destruct o. Qed.

Lemma with_attributes_twice a a' o :
  with_attributes a' (with_attributes a o) = with_attributes a' o.
Proof. done. Qed.

Lemma attribute_loop node content : forall (todo done : list Attribute) b st o,
  NoDup (map attr_name (done ++ todo)) ->
  cells st !! node = Some o ->
  attributes o = map (fill_attribute content) done ++ todo ->
  fold_each (seq (length done) (length todo))
    (placeholder_in_attribute node content) b st
  = Ok (b || existsb attribute_has_placeholder todo)
       (put node
          (with_attributes (map (fill_attribute content) (done ++ todo)) o) st).
Proof.
  induction todo as [|a todo IH]; intros done b st o Hnd Hr Ha.
  - cbn [length seq existsb]. rewrite orb_false_r, app_nil_r in *.
    rewrite <- Ha, with_attributes_same, put_same by done. done.
  - cbn [length seq]. rewrite fold_each_cons.
    assert (Hstep : exists o',
      placeholder_in_attribute node content (length done) b st
      = Ok (b || attribute_has_placeholder a) (put node o' st)
      /\ o' = with_attributes
                (map (fill_attribute content) (done ++ [a]) ++ todo) o).
    { unfold placeholder_in_attribute.
      rewrite (bind_ok _ _ _ _ _ (get_node_ok _ _ _ Hr)).
      assert (Hlook : attributes o !! length done = Some a).
      { rewrite Ha, lookup_app_r by (rewrite length_map; lia).
        by rewrite length_map, Nat.sub_diag. }
      rewrite Hlook. unfold attribute_has_placeholder.
      rewrite map_app. cbn [map]. unfold fill_attribute at 2.
      destruct (truthy (attr_value a)) eqn:Htruthy.
      - rewrite replacePlaceholder_eq.
        rewrite (bind_ok _ _ _ _ _ (setAttribute_run _ _ _ _ _ Hr)), ret_run.
        eexists. split; [reflexivity|]. f_equal. rewrite Ha.
        rewrite set_attribute_middle, <- app_assoc; [done|].
        rewrite map_map. erewrite map_ext; [|intros; apply fill_attribute_name].
        rewrite map_app in Hnd. apply NoDup_app in Hnd as (_ & Hdis & _).
        intros Hin. apply (Hdis (attr_name a)); [by apply list_elem_of_In|].
        apply list_elem_of_In. by left.
      - rewrite ret_run, orb_false_r. exists o. split.
        + by rewrite put_same.
        + rewrite <- app_assoc. cbn [app]. by rewrite <- Ha, with_attributes_same. }
    destruct Hstep as (o' & Hrun & ->).
    rewrite (bind_ok _ _ _ _ _ Hrun).
    replace (S (length done)) with (length (done ++ [a]))
      by (rewrite length_app; simpl; lia).
    erewrite (IH (done ++ [a])); [| |apply put_lookup|done].
    + rewrite put_put, with_attributes_twice, <- app_assoc. cbn [app existsb].
      by rewrite orb_assoc.
    + by rewrite <- app_assoc.
Qed.

(** What [insertContentIntoPlaceholder] does to a node whose attributes
    have different names. *)
Lemma insertContentIntoPlaceholder_run node content st o :
  cells st !! node = Some o ->
  NoDup (map attr_name (attributes o)) ->
  insertContentIntoPlaceholder node content st
  = Ok (node_has_placeholder o) (put node (fill_node content o) st).
Proof.
  intros Hr Hnd. unfold insertContentIntoPlaceholder.
  rewrite (bind_ok _ _ _ _ _ (get_node_ok _ _ _ Hr)).
  rewrite replacePlaceholder_eq. cbn [orb].
  rewrite (bind_ok _ _ _ _ _ (set_value_run _ _ _ _ Hr)).
  rewrite (attribute_loop node content (attributes o) [] _ _
             (with_value (fill_value content (value o)) o));
    [|done|apply put_lookup|done].
  by rewrite put_put.
Qed.

(** ** [insertContent] and [insert] keep the links *)

Lemma deepest_in_refs t : In (deepest t) (refs t).
Proof.
  induction t as [r ks IH] using rtree_forall_ind.
  rewrite deepest_last. destruct (last ks) as [k|] eqn:Hlast; [|by left].
  right. apply in_flat_map. exists k. split; [by apply last_in|].
  rewrite Forall_forall in IH. by apply IH, list_elem_of_In, last_in.
Qed.

Lemma NoDup_flat_map_in ks k :
  NoDup (flat_map refs ks) -> In k ks -> NoDup (refs k).
Proof.
  induction ks as [|k' ks IH]; intros Hnd []; subst;
    cbn [flat_map] in Hnd; apply NoDup_app in Hnd as (? & _ & ?); auto.
Qed.

(** The subtree at an object of a tree. *)
Lemma subtree_at st p t c :
  shape st p t -> NoDup (refs t) -> In c (refs t) ->
  exists pc tc, shape st pc tc /\ root tc = c /\ NoDup (refs tc) /\
                size tc <= size t /\
                (forall x, In x (refs tc) -> In x (refs t)).
Proof.
  revert p. induction t as [r ks IH] using rtree_forall_ind.
  intros p Hs Hnd Hc. destruct Hc as [<-|Hc].
  { exists p, (RNode r ks). by repeat split. }
  destruct (shape_inv _ _ _ Hs) as (o & Hr & Hp & Hch & Hks). cbn [kids root] in *.
  apply in_flat_map in Hc as (k & Hk & Hc).
  rewrite Forall_forall in IH, Hks.
  cbn [refs] in Hnd. apply NoDup_cons in Hnd as [_ Hnd].
  destruct (IH k (proj2 (list_elem_of_In _ _) Hk) (Some r)) as (pc & tc & H1 & H2 & H3 & H4 & H5);
    [by apply Hks, list_elem_of_In|by eapply NoDup_flat_map_in|done|].
  exists pc, tc. repeat split; try done.
  - apply size_kid_le in Hk. cbn [size]. unfold forest_size in Hk. lia.
  - intros x Hx. right. apply in_flat_map. exists k. auto.
Qed.

Lemma placeholder_walk_steady st cs content :
  (forall c, In c cs -> is_Some (cells st !! c)) ->
  steady st cs (fun child inserted =>
    b ← insertContentIntoPlaceholder child content; mret (inserted || b)).
Proof.
  intros Hcs c a st' Hc Heq.
  destruct (insertContentIntoPlaceholder_links c content st')
    as (b & st'' & Hrun & Heq'); [by eapply links_eq_present; eauto|].
  exists (a || b), st''. split; [|done].
  by rewrite (bind_ok _ _ _ _ _ Hrun).
Qed.

Lemma insertContent_links fuel p t content st :
  shape st p t -> NoDup (refs t) -> size t <= S fuel ->
  exists st', insertContent fuel (root t) content st = Ok (root t) st'
              /\ links_eq st st'.
Proof.
  intros Hs Hnd Hfuel. unfold insertContent.
  destruct (insertContentIntoPlaceholder_links (root t) content st)
    as (b & st1 & Hrun1 & Heq1); [by eapply shape_present, root_in_refs|].
  rewrite (bind_ok _ _ _ _ _ Hrun1).
  assert (Hs1 : shape st1 p t) by by eapply shape_links_eq.
  assert (Hsteady : steady st1 (desc t) (fun child inserted =>
    b ← insertContentIntoPlaceholder child content; mret (inserted || b))).
  { apply placeholder_walk_steady. intros c Hc.
    eapply shape_present; [exact Hs1|]. rewrite refs_root. by right. }
  rewrite bind_run, (walk_fold _ fuel p t) by done.
  destruct (fold_each_steady _ _ _ b Hsteady) as (b2 & st2 & Hrun2 & Heq2).
  rewrite Hrun2.
  assert (Heq02 : links_eq st st2) by by eapply links_eq_trans.
  destruct (negb b2); [|exists st2; by rewrite bind_run, ret_run].
  assert (Hs2 : shape st2 p t) by by eapply shape_links_eq.
  rewrite bind_run, bind_run, (findDeepestNode_run fuel p t st2) by done.
  destruct (shape_present _ _ _ _ Hs2 (deepest_in_refs t)) as [od Hd].
  rewrite (setNodeContent_run _ _ _ _ Hd), ret_run.
  eexists. split; [done|]. eapply links_eq_trans; [exact Heq02|].
  eapply links_eq_put; [done|apply content_set_links].
Qed.

Lemma insert_node_steady fuel items st p t :
  shape st p t -> NoDup (refs t) -> size t <= S fuel ->
  steady st (refs t) (insert_node fuel items).
Proof.
  intros Hs Hnd Hfuel c a st' Hc Heq.
  destruct (subtree_at _ _ _ _ Hs Hnd Hc) as (pc & tc & Hsc & <- & Hndc & Hsize & _).
  assert (Hsc' : shape st' pc tc) by by eapply shape_links_eq.
  destruct (shape_inv _ _ _ Hsc') as (o & Hr & _).
  unfold insert_node. rewrite (bind_ok _ _ _ _ _ (get_node_ok _ _ _ Hr)).
  destruct (repeat o) as [r|]; [|exists a, st'; split; [done|apply links_eq_refl]].
  destruct (rep_implicit r); [|exists a, st'; split; [done|apply links_eq_refl]].
  destruct (insertContent_links fuel pc tc (items !! rep_index r) st')
    as (st'' & Hrun & Heq'); [done|done|lia|].
  exists true, st''. split; [|done]. by rewrite (bind_ok _ _ _ _ _ Hrun).
Qed.

Lemma insert_links fuel p t c st :
  shape st p t -> NoDup (refs t) -> size t <= S fuel ->
  exists st', insert fuel (root t) c st = Ok (root t) st' /\ links_eq st st'.
Proof.
  intros Hs Hnd Hfuel.
  destruct c as [s|items|]; try (exists st; split; [done|apply links_eq_refl]).
  unfold insert.
  destruct (0 <? length items); [|exists st; split; [done|apply links_eq_refl]].
  assert (Hsteady : steady st (desc t) (insert_node fuel items)).
  { eapply steady_sub; [by eapply insert_node_steady|].
    intros x Hx. rewrite refs_root. by right. }
  rewrite bind_run, (walk_fold _ fuel p t) by done.
  destruct (fold_each_steady _ _ _ false Hsteady) as (b & st1 & Hrun & Heq).
  rewrite Hrun.
  destruct (negb b); [|exists st1; by rewrite bind_run, ret_run].
  assert (Hs1 : shape st1 p t) by by eapply shape_links_eq.
  rewrite bind_run, bind_run, (findDeepestNode_run fuel p t st1) by done.
  destruct (shape_present _ _ _ _ Hs1 (deepest_in_refs t)) as [od Hd].
  rewrite (setNodeContent_run _ _ _ _ Hd), ret_run.
  eexists. split; [done|]. eapply links_eq_trans; [exact Heq|].
  eapply links_eq_put; [done|apply content_set_links].
Qed.

Lemma fold_each_id {A B} (l : list A) (f : A -> B -> M B) b st :
  (forall x b, In x l -> f x b st = Ok b st) -> fold_each l f b st = Ok b st.
Proof.
  induction l as [|x l IH]; intros Hf; [done|].
  rewrite fold_each_cons, (bind_ok _ _ _ _ _ (Hf x b (or_introl eq_refl))).
  apply IH. intros y b' Hy. apply Hf. by right.
Qed.

Lemma insert_node_skip fuel items node updated st o :
  cells st !! node = Some o -> is_implicit o = false ->
  insert_node fuel items node updated st = Ok updated st.
Proof.
  intros Hr Hi. unfold insert_node, is_implicit in *.
  rewrite (bind_ok _ _ _ _ _ (get_node_ok _ _ _ Hr)).
  destruct (repeat o) as [r|]; [|done]. by rewrite Hi.
Qed.

(** Example trees, made the way the parser makes them: the abbreviation
    [ul>li[title=t$#]*>a], and the same after [prepare] for two items. *)
Definition example_abbreviation : dtree :=
  DNode (mkData "" None [] None)
    [DNode (mkData "ul" None [] None)
       [DNode (mkData "li" None [mkAttribute "title" (Some "t$#")]
                 (Some (mkRepeat None false 0 0)))
          [DNode (mkData "a" None [] None) []]]].

Definition store_of {A} (m : M A) : Store :=
  match m empty_store with Ok _ st => st | Err _ => empty_store end.

Definition example_store : Store := store_of (build example_abbreviation).

Definition example_tree : rtree := RNode 0 [RNode 1 [RNode 2 [RNode 3 []]]].

Definition prepared_store : Store :=
  store_of (r ← build example_abbreviation; prepare 10 r 2).

Definition prepared_tree : rtree :=
  RNode 0 [RNode 1 [RNode 4 [RNode 5 []]; RNode 6 [RNode 7 []]]].

Ltac shape_by_computation :=
  repeat first
    [ apply Forall_nil_2
    | apply Forall_cons_2
    | eapply shape_node; [vm_compute; reflexivity|reflexivity|reflexivity|] ].

Ltac nodup_by_computation :=
  apply (bool_decide_unpack _); vm_compute; exact I.

(** ** What [insertContent] leaves in the store *)

(** The store with [f r o] in place of each object [o] at [r]. *)
Definition on_nodes (f : ref -> Node -> Node) (st : Store) : Store :=
  mkStore (map_imap (fun r o => Some (f r o)) (cells st)) (next_ref st).

(** The store after [insertContentIntoPlaceholder] on each of [rs]. *)
Definition fill_refs (content : option string) (rs : list ref) (st : Store) : Store :=
  on_nodes (fun r o => if bool_decide (r ∈ rs) then fill_node content o else o) st.

(** One of the nodes [rs] has an unescaped placeholder. *)
Definition refs_have_placeholder (st : Store) (rs : list ref) : bool :=
  existsb (fun r => match cells st !! r with
                    | Some o => node_has_placeholder o
                    | None => false
                    end) rs.

(** The attributes of a node are a mapping: no two have the same name. *)
Definition unique_attribute_names (st : Store) (rs : list ref) : Prop :=
  forall r o, In r rs -> cells st !! r = Some o ->
    NoDup (map attr_name (attributes o)).

Lemma store_eq st st' :
  next_ref st = next_ref st' -> (forall r, cells st !! r = cells st' !! r) ->
  st = st'.
Proof.
  destruct st as [c n], st' as [c' n']. simpl. intros -> H. f_equal.
  by apply map_eq.
Qed.

Lemma on_nodes_lookup f st r : cells (on_nodes f st) !! r = f r <$> cells st !! r.
Proof.
  unfold on_nodes. simpl. rewrite map_lookup_imap.
  by destruct (cells st !! r).
Qed.

Lemma existsb_ext_in {A} (f g : A -> bool) (l : list A) :
  (forall x, In x l -> f x = g x) -> existsb f l = existsb g l.
Proof.
  induction l as [|x l IH]; intros H; [done|]. cbn [existsb].
  rewrite (H x) by (by left). f_equal. apply IH. intros y Hy. apply H. by right.
Qed.

Lemma fill_refs_nil content st : fill_refs content [] st = st.
Proof.
  apply store_eq; [done|]. intros r. unfold fill_refs. rewrite on_nodes_lookup.
  by destruct (cells st !! r).
Qed.

Lemma fill_refs_cons content r rs st o :
  cells st !! r = Some o -> ~ In r rs ->
  fill_refs content (r :: rs) st
  = fill_refs content rs (put r (fill_node content o) st).
Proof.
  intros Hr Hnin. apply store_eq; [done|]. intros x. unfold fill_refs.
  rewrite !on_nodes_lookup. destruct (decide (x = r)) as [->|Hne].
  - rewrite put_lookup, Hr. cbn [fmap option_fmap option_map].
    rewrite bool_decide_eq_true_2 by (by left).
    rewrite bool_decide_eq_false_2; [done|]. by rewrite list_elem_of_In.
  - rewrite put_lookup_ne by done. destruct (cells st !! x) as [ox|]; [|done].
    cbn [fmap option_fmap option_map]. f_equal.
    destruct (decide (x ∈ rs)) as [Hin|Hnin'].
    + rewrite !bool_decide_eq_true_2; [done|done|by right].
    + rewrite !bool_decide_eq_false_2; [done|done|].
      intros [?|?]%elem_of_cons; done.
Qed.

Lemma fill_value_same content v : has_placeholder v = false -> fill_value content v = v.
Proof.
  unfold fill_value, has_placeholder, replacePlaceholder.
  destruct v as [s|]; [|done]. by intros ->.
Qed.

Lemma fill_attribute_same content a :
  attribute_has_placeholder a = false -> fill_attribute content a = a.
Proof.
  unfold attribute_has_placeholder, fill_attribute.
  destruct (truthy (attr_value a)); [|done]. simpl. intros H.
  rewrite fill_value_same by done. by destruct a.
Qed.

Lemma fill_node_same content o :
  node_has_placeholder o = false -> fill_node content o = o.
Proof.
  unfold node_has_placeholder, fill_node.
  intros [Hv Ha]%orb_false_elim. rewrite fill_value_same by done.
  replace (map (fill_attribute content) (attributes o)) with (attributes o).
  { by destruct o. }
  induction (attributes o) as [|a l IH]; [done|].
  cbn [existsb map] in *. apply orb_false_elim in Ha as [Ha Hl].
  by rewrite fill_attribute_same, <- IH.
Qed.

Lemma fill_refs_same content rs st :
  refs_have_placeholder st rs = false -> fill_refs content rs st = st.
Proof.
  intros H. apply store_eq; [done|]. intros r. unfold fill_refs.
  rewrite on_nodes_lookup. destruct (cells st !! r) as [o|] eqn:Hr; [|done].
  cbn [fmap option_fmap option_map]. f_equal.
  destruct (decide (r ∈ rs)) as [Hin|Hnin].
  - rewrite bool_decide_eq_true_2 by done. apply fill_node_same.
    destruct (node_has_placeholder o) eqn:Ho; [|done].
    rewrite <- H. symmetry. apply existsb_exists. exists r.
    split; [by apply list_elem_of_In|]. by rewrite Hr.
  - by rewrite bool_decide_eq_false_2.
Qed.

Lemma fold_each_fill content : forall rs b st,
  NoDup rs ->
  (forall r, In r rs -> is_Some (cells st !! r)) ->
  unique_attribute_names st rs ->
  fold_each rs (fun child inserted =>
      b ← insertContentIntoPlaceholder child content; mret (inserted || b)) b st
  = Ok (b || refs_have_placeholder st rs) (fill_refs content rs st).
Proof.
  induction rs as [|r rs IH]; intros b st Hnd Hpres Huniq.
  - cbn [refs_have_placeholder existsb]. by rewrite orb_false_r, fill_refs_nil.
  - apply NoDup_cons in Hnd as [Hr Hnd]. rewrite list_elem_of_In in Hr.
    destruct (Hpres r) as [o Ho]; [by left|].
    rewrite fold_each_cons.
    rewrite bind_run. cbn beta.
    rewrite bind_run, (insertContentIntoPlaceholder_run r content st o Ho
                         (Huniq r o (or_introl eq_refl) Ho)), ret_run.
    rewrite IH; [|done| |].
    + rewrite <- (fill_refs_cons content r rs st o) by done.
      f_equal. unfold refs_have_placeholder. cbn [existsb]. rewrite Ho.
      rewrite orb_assoc. f_equal. apply existsb_ext_in.
      intros x Hx. rewrite put_lookup_ne; [done|]. by intros ->.
    + intros x Hx. rewrite put_lookup_ne by (by intros ->). apply Hpres. by right.
    + intros x ox Hx Hox. rewrite put_lookup_ne in Hox by (by intros ->).
      eapply Huniq; [by right|done].
Qed.

(** [insertContent] on the tree [t]: the placeholders of all its nodes are
    filled; when there was none, [setNodeContent] runs on the deepest node. *)
Lemma insertContent_run fuel p t content st :
  shape st p t -> NoDup (refs t) -> size t <= S fuel ->
  unique_attribute_names st (refs t) ->
  insertContent fuel (root t) content st
  = if refs_have_placeholder st (refs t)
    then Ok (root t) (fill_refs content (refs t) st)
    else (setNodeContent (deepest t) content ;; mret (root t)) st.
Proof.
  intros Hs Hnd Hfuel Huniq. unfold insertContent.
  destruct (shape_inv _ _ _ Hs) as (o & Hr & _).
  assert (Hroot : In (root t) (refs t)) by apply root_in_refs.
  rewrite (bind_ok _ _ _ _ _
             (insertContentIntoPlaceholder_run _ content _ _ Hr (Huniq _ _ Hroot Hr))).
  set (st1 := put (root t) (fill_node content o) st).
  assert (Heq1 : links_eq st st1) by (by eapply links_eq_put).
  assert (Hs1 : shape st1 p t) by by eapply shape_links_eq.
  pose proof Hnd as Hnd0.
  rewrite refs_root in Hnd, Huniq |- *.
  apply NoDup_cons in Hnd as [Hnotin Hnd]. rewrite list_elem_of_In in Hnotin.
  assert (Hdesc : forall x, In x (desc t) -> cells st1 !! x = cells st !! x).
  { intros x Hx. unfold st1. rewrite put_lookup_ne; [done|].
    intros Heq. by subst x. }
  rewrite bind_run, (walk_fold _ fuel p t); [|done|done| |done].
  2:{ apply placeholder_walk_steady. intros c Hc.
      eapply shape_present; [exact Hs1|]. rewrite refs_root. by right. }
  rewrite fold_each_fill; [|done| |].
  2:{ intros x Hx. eapply shape_present; [exact Hs1|]. rewrite refs_root. by right. }
  2:{ intros x ox Hx Hox. rewrite Hdesc in Hox by done. eapply Huniq; [by right|done]. }
  unfold st1. rewrite <- (fill_refs_cons content (root t) (desc t) st o) by done.
  replace (node_has_placeholder o || refs_have_placeholder (put (root t) (fill_node content o) st) (desc t))
    with (refs_have_placeholder st (root t :: desc t)).
  2:{ unfold refs_have_placeholder. cbn [existsb]. rewrite Hr. f_equal.
      apply existsb_ext_in. intros x Hx. fold st1. by rewrite Hdesc. }
  destruct (refs_have_placeholder st (root t :: desc t)) eqn:Hfound; cbn [negb].
  - by rewrite bind_run, ret_run.
  - rewrite fill_refs_same by done.
    rewrite bind_run, bind_run, (findDeepestNode_run fuel p t st) by done.
    by rewrite bind_run.
Qed.

(** [content[node.repeat.index]] *)
Definition content_at (items : list string) (o : Node) : option string :=
  match repeat o with
  | Some r => items !! rep_index r
  | None => None
  end.

(** ** Cloning *)

(** Every object of the store was created before [next_ref]. *)
Definition store_ok (st : Store) : Prop :=
  forall r, is_Some (cells st !! r) -> r < next_ref st.

Definition no_data : Data := mkData "" None [] None.

(** The tree [t] of the store as a value. *)
Fixpoint erase (st : Store) (t : rtree) : dtree :=
  match t with
  | RNode r ks =>
    DNode (from_option data_of no_data (cells st !! r)) (map (erase st) ks)
  end.

(** The references of a deep clone: the objects are created in document
    order, the first of them being [b]. *)
Fixpoint relabel (b : nat) (t : rtree) : rtree :=
  match t with
  | RNode _ ks =>
    RNode b ((fix go (b : nat) (ks : list rtree) : list rtree :=
                match ks with
                | [] => []
                | k :: ks' => relabel b k :: go (b + size k) ks'
                end) (S b) ks)
  end.

Fixpoint relabel_kids (b : nat) (ks : list rtree) : list rtree :=
  match ks with
  | [] => []
  | k :: ks' => relabel b k :: relabel_kids (b + size k) ks'
  end.

Lemma relabel_node b r ks : relabel b (RNode r ks) = RNode b (relabel_kids (S b) ks).
Proof.
  cbn [relabel]. f_equal.
Qed.

Lemma relabel_node_root b t : relabel b t = RNode b (relabel_kids (S b) (kids t)).
Proof. destruct t. apply relabel_node. Qed.

Lemma root_relabel b t : root (relabel b t) = b.
Proof. by destruct t. Qed.

Lemma relabel_kids_app b ks1 ks2 :
  relabel_kids b (ks1 ++ ks2)
  = relabel_kids b ks1 ++ relabel_kids (b + forest_size ks1) ks2.
Proof.
  revert b. induction ks1 as [|k ks1 IH]; intros b.
  - cbn. by rewrite Nat.add_0_r.
  - cbn [app relabel_kids]. rewrite IH, forest_size_cons. f_equal.
    by rewrite Nat.add_assoc.
Qed.

Lemma forest_size_app ks1 ks2 :
  forest_size (ks1 ++ ks2) = forest_size ks1 + forest_size ks2.
Proof. unfold forest_size. by rewrite map_app, list_sum_app. Qed.

Lemma refs_relabel t : forall b, refs (relabel b t) = seq b (size t).
Proof.
  induction t as [r ks IH] using rtree_forall_ind. intros b.
  rewrite relabel_node. cbn [refs size seq]. f_equal.
  generalize (S b). induction ks as [|k ks IHks]; intros n; [done|].
  apply Forall_cons in IH as [Hk Hks].
  change (list_sum (map size (k :: ks))) with (size k + list_sum (map size ks)).
  cbn [relabel_kids flat_map]. rewrite seq_app, Hk. f_equal.
  by apply IHks.
Qed.

Lemma shape_agree st st' p t :
  (forall x, In x (refs t) -> cells st' !! x = cells st !! x) ->
  shape st p t -> shape st' p t.
Proof.
  revert p. induction t as [r ks IH] using rtree_forall_ind. intros p Hag Hs.
  inversion Hs as [? ? ? o Hr Hp Hc Hks]; subst.
  econstructor; [by rewrite Hag by (by left)|done|done|].
  rewrite Forall_forall in IH, Hks |- *. intros k Hk.
  apply IH; [done| |by apply Hks].
  intros x Hx. apply Hag. right. apply in_flat_map. exists k.
  split; [by apply list_elem_of_In|done].
Qed.

Lemma erase_agree st st' t :
  (forall x, In x (refs t) -> cells st' !! x = cells st !! x) ->
  erase st' t = erase st t.
Proof.
  induction t as [r ks IH] using rtree_forall_ind. intros Hag.
  cbn [erase]. rewrite Hag by (by left). f_equal.
  apply map_ext_in. intros k Hk. rewrite Forall_forall in IH.
  apply IH; [by apply list_elem_of_In|].
  intros x Hx. apply Hag. right. apply in_flat_map. eauto.
Qed.

Lemma shape_refs_lt st p t x :
  store_ok st -> shape st p t -> In x (refs t) -> x < next_ref st.
Proof. intros Hok Hs Hx. apply Hok. by eapply shape_present. Qed.

(** Giving the root of a tree another parent. *)
Lemma shape_reparent st p p' r ks o :
  shape st p (RNode r ks) -> cells st !! r = Some o -> ~ In r (flat_map refs ks) ->
  shape (put r (with_parent p' o) st) p' (RNode r ks).
Proof.
  intros Hs Hr Hnin. inversion Hs as [? ? ? o' Hr' Hp Hc Hks]; subst.
  assert (o' = o) as -> by congruence.
  econstructor; [apply put_lookup|done|done|].
  rewrite Forall_forall in Hks |- *. intros k Hk.
  eapply shape_agree; [|by apply Hks].
  intros x Hx. apply put_lookup_ne. intros <-. apply Hnin.
  apply in_flat_map. exists k. split; [by apply list_elem_of_In|done].
Qed.

Lemma remove_detached node o st :
  cells st !! node = Some o -> parent o = None -> remove node st = Ok tt st.
Proof.
  intros Hr Hp. unfold remove.
  by rewrite (bind_ok _ _ _ _ _ (get_node_ok _ _ _ Hr)), Hp.
Qed.

Lemma insert_at_end {A} (x : A) (l : list A) : insert_at (length l) x l = l ++ [x].
Proof. unfold insert_at. by rewrite firstn_all, drop_all. Qed.

Lemma appendChild_run c x oc ox st :
  cells st !! c = Some oc -> cells st !! x = Some ox -> parent ox = None ->
  c <> x ->
  appendChild c x st
  = Ok tt (put c (with_children (children oc ++ [x]) oc)
             (put x (with_parent (Some c) ox) st)).
Proof.
  intros Hc Hx Hp Hne. unfold appendChild, insertAt.
  rewrite !(bind_ok _ _ _ _ _ (get_node_ok _ _ _ Hc)).
  rewrite Nat.ltb_irrefl.
  rewrite (bind_ok _ _ _ _ _ (remove_detached _ _ _ Hx Hp)).
  rewrite (bind_ok _ _ _ _ _ (update_node_run _ _ _ _ Hx)).
  erewrite update_node_run by (rewrite put_lookup_ne by done; exact Hc).
  by rewrite insert_at_end.
Qed.

Lemma refs_relabel_kids ks : forall n,
  flat_map refs (relabel_kids n ks) = seq n (forest_size ks).
Proof.
  induction ks as [|k ks IH]; intros n; [done|].
  rewrite forest_size_cons. cbn [relabel_kids flat_map].
  by rewrite seq_app, refs_relabel, IH.
Qed.

Lemma store_ok_put st r o :
  store_ok st -> is_Some (cells st !! r) -> store_ok (put r o st).
Proof.
  intros Hok Hr x Hx. destruct (decide (r = x)) as [<-|Hne]; [by apply Hok|].
  rewrite put_lookup_ne in Hx by done. by apply Hok.
Qed.

Lemma store_ok_forall st :
  map_Forall (fun r _ => r < next_ref st) (cells st) -> store_ok st.
Proof. intros H r [o Hr]. exact (H r o Hr). Qed.

Ltac store_ok_by_computation :=
  apply store_ok_forall; apply (bool_decide_unpack _); vm_compute; exact I.

Lemma for_each_cons {A} (x : A) (l : list A) (f : A -> M unit) :
  for_each (x :: l) f = (f x ;; for_each l f).
Proof. reflexivity. Qed.

(** What a deep clone of the tree [t] adds to the store [st]. *)
Definition cloned (st st' : Store) (t : rtree) : Prop :=
  next_ref st' = next_ref st + size t /\
  (forall r, r < next_ref st -> cells st' !! r = cells st !! r) /\
  shape st' None (relabel (next_ref st) t) /\
  erase st' (relabel (next_ref st) t) = erase st t /\
  store_ok st'.

Definition clone_spec (fuel : nat) : Prop :=
  forall t p st, shape st p t -> store_ok st -> size t <= fuel ->
    exists st', clone fuel true (root t) st = Ok (next_ref st) st' /\ cloned st st' t.

Lemma clone_kids_run fuel c node0 st pr :
  clone_spec fuel -> store_ok st -> next_ref st = c ->
  forall todo done st1,
    cells st1 !! c
      = Some (with_children (map root (relabel_kids (S c) done)) node0) ->
    next_ref st1 = S c + forest_size done ->
    Forall (shape st1 (Some c)) (relabel_kids (S c) done) ->
    map (erase st1) (relabel_kids (S c) done) = map (erase st) done ->
    (forall r, r < c -> cells st1 !! r = cells st !! r) ->
    store_ok st1 ->
    Forall (shape st (Some pr)) todo -> forest_size todo <= fuel ->
    exists st2,
      for_each (map root todo)
        (fun child => cc ← clone fuel true child; appendChild c cc) st1
      = Ok tt st2
      /\ cells st2 !! c
         = Some (with_children (map root (relabel_kids (S c) (done ++ todo))) node0)
      /\ next_ref st2 = S c + forest_size (done ++ todo)
      /\ Forall (shape st2 (Some c)) (relabel_kids (S c) (done ++ todo))
      /\ map (erase st2) (relabel_kids (S c) (done ++ todo))
         = map (erase st) (done ++ todo)
      /\ (forall r, r < c -> cells st2 !! r = cells st !! r)
      /\ store_ok st2.
Proof.
  intros IH Hok Hnext.
  induction todo as [|k todo IHtodo];
    intros done st1 Hc Hn1 Hdone Herase Hold Hok1 Htodo Hfuel.
  { exists st1. rewrite app_nil_r. by repeat split. }
  apply Forall_cons in Htodo as [Hk Htodo]. rewrite forest_size_cons in Hfuel.
  assert (Hk1 : shape st1 (Some pr) k).
  { eapply shape_agree; [|exact Hk]. intros x Hx. apply Hold.
    rewrite <- Hnext. by eapply shape_refs_lt. }
  destruct (IH k (Some pr) st1 Hk1 Hok1) as (st1' & Hrun & Hn1' & Hold1 & Hs1 & He1 & Hok1');
    [lia|].
  set (bk := next_ref st1) in *.
  assert (Hbk : bk = S c + forest_size done) by done.
  destruct (shape_inv _ _ _ Hs1) as (obk & Hrbk & Hpbk & _).
  rewrite root_relabel in Hrbk.
  assert (Hc1' : cells st1' !! c
                 = Some (with_children (map root (relabel_kids (S c) done)) node0)).
  { rewrite Hold1 by lia. done. }
  cbn [map]. rewrite for_each_cons, bind_run. cbn beta.
  rewrite (bind_ok _ _ _ _ _ Hrun).
  rewrite (appendChild_run c bk _ obk st1') by (done || lia).
  cbn beta iota. cbn [children with_children].
  set (st2 := put c _ (put bk _ st1')).
  assert (Hst2 : forall x, x <> c -> x <> bk -> cells st2 !! x = cells st1' !! x).
  { intros x H1 H2. unfold st2. by rewrite !put_lookup_ne. }
  assert (Hkids : relabel_kids (S c) (done ++ [k])
                  = relabel_kids (S c) done ++ [relabel bk k]).
  { rewrite relabel_kids_app. cbn [relabel_kids]. by rewrite Hbk. }
  destruct (IHtodo (done ++ [k]) st2) as (st3 & Hrun3 & H1 & H2 & H3 & H4 & H5 & H6).
  - unfold st2. rewrite put_lookup, Hkids, map_app. cbn [map].
    by rewrite root_relabel.
  - unfold st2. cbn [put next_ref]. rewrite Hn1', forest_size_app, forest_size_cons.
    unfold forest_size at 2. simpl. lia.
  - rewrite Hkids. apply Forall_app. split.
    + rewrite Forall_forall in Hdone |- *. intros t Ht.
      eapply shape_agree; [|by apply Hdone].
      intros x Hx.
      assert (Hin : In x (flat_map refs (relabel_kids (S c) done))).
      { apply in_flat_map. exists t. split; [by apply list_elem_of_In|done]. }
      rewrite refs_relabel_kids in Hin. apply in_seq in Hin.
      rewrite Hst2 by lia. apply Hold1. lia.
    + apply Forall_singleton.
      eapply shape_agree with (st := put bk (with_parent (Some c) obk) st1').
      { intros x Hx. rewrite refs_relabel in Hx. apply in_seq in Hx.
        unfold st2. rewrite put_lookup_ne; [done|lia]. }
      pose proof Hs1 as Hs1r. rewrite (relabel_node_root bk k) in Hs1r |- *.
      apply shape_reparent with (p := None); [done|done|].
      rewrite refs_relabel_kids. intros Hin%in_seq. lia.
  - rewrite Hkids, !map_app. cbn [map]. f_equal.
    + rewrite <- Herase. apply map_ext_in. intros t Ht.
      apply erase_agree. intros x Hx.
      assert (Hin : In x (flat_map refs (relabel_kids (S c) done))).
      { apply in_flat_map. exists t. split; done. }
      rewrite refs_relabel_kids in Hin. apply in_seq in Hin.
      rewrite Hst2 by lia. apply Hold1. lia.
    + f_equal. rewrite <- (erase_agree st st1 k), <- He1.
      * rewrite (relabel_node_root bk k). cbn [erase].
        unfold st2. rewrite put_lookup_ne by lia. rewrite put_lookup, Hrbk.
        cbn [from_option]. f_equal.
        apply map_ext_in. intros t Ht. apply erase_agree. intros x Hx.
        assert (Hin : In x (flat_map refs (relabel_kids (S bk) (kids k)))).
        { apply in_flat_map. exists t. split; done. }
        rewrite refs_relabel_kids in Hin. apply in_seq in Hin.
        rewrite !put_lookup_ne; [done|lia|lia].
      * intros x Hx. apply Hold. rewrite <- Hnext. by eapply shape_refs_lt.
  - intros r Hr. rewrite Hst2 by lia. rewrite Hold1 by lia. by apply Hold.
  - unfold st2. apply store_ok_put; [apply store_ok_put; [done|by eexists]|].
    rewrite put_lookup_ne by lia. by eexists.
  - done.
  - lia.
  - exists st3. rewrite <- app_assoc in *. cbn [app] in *. by repeat split.
Qed.

Lemma clone_run fuel : clone_spec fuel.
Proof.
  induction fuel as [|fuel IH]; intros t p st Hs Hok Hsize.
  { pose proof (size_pos t). lia. }
  destruct (shape_inv _ _ _ Hs) as (o & Hr & Hp & Hc & Hks).
  cbn [clone]. rewrite (bind_ok _ _ _ _ _ (get_node_ok _ _ _ Hr)).
  set (c := next_ref st).
  set (node0 := mkNode (name o) (value o) (attributes o) [] None (repeat o)).
  set (st0 := mkStore (<[c := node0]> (cells st)) (S c)).
  assert (Halloc : alloc node0 st = Ok c st0) by done.
  rewrite (bind_ok _ _ _ _ _ Halloc), Hc.
  rewrite size_kids in Hsize.
  destruct (clone_kids_run fuel c node0 st (root t) IH Hok eq_refl (kids t) [] st0)
    as (st2 & Hrun & H1 & H2 & H3 & H4 & H5 & H6); try done.
  - apply lookup_insert_eq.
  - intros r Hlt. cbn. apply lookup_insert_ne. lia.
  - intros r Hsome. cbn in *. destruct (decide (c = r)) as [<-|Hne]; [lia|].
    rewrite lookup_insert_ne in Hsome by done. apply Hok in Hsome. fold c in Hsome. lia.
  - lia.
  - exists st2. rewrite (bind_ok _ _ _ _ _ Hrun), ret_run. split; [done|].
    cbn [app] in *. fold c. repeat split.
    + rewrite H2, size_kids. lia.
    + done.
    + rewrite relabel_node_root. by econstructor.
    + rewrite relabel_node_root. destruct t as [r ks]. cbn [erase kids root] in *.
      fold c. by rewrite H1, Hr, H4.
    + done.
Qed.

(** ** The callback of [prepare] on an unresolved node *)

Lemma shape_root_put st p p' r ks o' :
  shape st p (RNode r ks) -> children o' = map root ks -> parent o' = p' ->
  ~ In r (flat_map refs ks) ->
  shape (put r o' st) p' (RNode r ks).
Proof.
  intros Hs Hc Hp Hnin. inversion Hs as [? ? ? o Hr _ _ Hks]; subst.
  econstructor; [apply put_lookup|done|done|].
  rewrite Forall_forall in Hks |- *. intros k Hk.
  eapply shape_agree; [|by apply Hks].
  intros x Hx. apply put_lookup_ne. intros <-. apply Hnin.
  apply in_flat_map. exists k. split; [by apply list_elem_of_In|done].
Qed.

Lemma update_repeat_run b ob rp f st :
  cells st !! b = Some ob -> repeat ob = Some rp ->
  update_repeat b f st = Ok tt (put b (with_repeat (Some (f rp)) ob) st).
Proof.
  intros Hb Hrp. unfold update_repeat.
  rewrite (bind_ok _ _ _ _ _ (get_node_ok _ _ _ Hb)), Hrp.
  by apply update_node_run.
Qed.

(** The four assignments to the repeat object of a clone. *)
Definition resolved_repeat (amount i : nat) : Repeat :=
  mkRepeat (Some amount) true (i + 1) i.

Lemma resolve_repeat_run {A} (k : M A) b ob rp amount i st :
  cells st !! b = Some ob -> repeat ob = Some rp ->
  (update_repeat b (set_implicit true) ;;
   update_repeat b (set_count (Some amount)) ;;
   update_repeat b (set_rep_value (i + 1)) ;;
   update_repeat b (set_index i) ;;
   k) st
  = k (put b (with_repeat (Some (resolved_repeat amount i)) ob) st).
Proof.
  intros Hb Hrp.
  assert (Hstep : forall f ob' rp' st',
    repeat ob' = Some rp' ->
    update_repeat b f (put b ob' st')
    = Ok tt (put b (with_repeat (Some (f rp')) ob') st')).
  { intros f ob' rp' st' Hrp'.
    rewrite (update_repeat_run b ob' rp' f _ (put_lookup _ _ _) Hrp').
    by rewrite put_put. }
  rewrite (bind_ok _ _ _ _ _ (update_repeat_run _ _ _ _ _ Hb Hrp)).
  rewrite (bind_ok _ _ _ _ _
             (Hstep _ (with_repeat (Some (set_implicit true rp)) ob) _ st eq_refl)).
  rewrite (bind_ok _ _ _ _ _
             (Hstep _ (with_repeat (Some (set_count (Some amount) (set_implicit true rp))) ob)
                _ st eq_refl)).
  by rewrite (bind_ok _ _ _ _ _
                (Hstep _ (with_repeat
                            (Some (set_rep_value (i + 1)
                                     (set_count (Some amount) (set_implicit true rp)))) ob)
                   _ st eq_refl)).
Qed.

Lemma index_of_middle k (l1 l2 : list ref) :
  ~ In k l1 -> index_of k (l1 ++ k :: l2) = Some (length l1).
Proof.
  induction l1 as [|x l1 IH]; simpl; intros Hn.
  - by rewrite Nat.eqb_refl.
  - destruct (Nat.eqb_spec x k) as [->|_]; [tauto|].
    rewrite IH by tauto. done.
Qed.

Lemma insert_at_middle {A} (x : A) (l1 l2 : list A) :
  insert_at (length l1) x (l1 ++ l2) = l1 ++ x :: l2.
Proof.
  unfold insert_at. by rewrite take_app_length, drop_app_length.
Qed.

Lemma remove_at_middle {A} (x : A) (l1 l2 : list A) :
  remove_at (length l1) (l1 ++ x :: l2) = l1 ++ l2.
Proof.
  unfold remove_at. rewrite take_app_length. f_equal.
  rewrite drop_app_ge by lia.
  by replace (S (length l1) - length l1) with 1 by lia.
Qed.

Lemma insertBefore_run r b k o ob (l1 l2 : list ref) st :
  cells st !! r = Some o -> children o = l1 ++ k :: l2 -> ~ In k l1 ->
  cells st !! b = Some ob -> parent ob = None -> r <> b ->
  insertBefore r b k st
  = Ok tt (put r (with_children (l1 ++ b :: k :: l2) o)
             (put b (with_parent (Some r) ob) st)).
Proof.
  intros Hr Hc Hk Hb Hp Hne. unfold insertBefore, insertAt.
  rewrite !(bind_ok _ _ _ _ _ (get_node_ok _ _ _ Hr)).
  rewrite Hc, index_of_middle by done.
  replace (length (l1 ++ k :: l2) <? length l1) with false
    by (symmetry; apply Nat.ltb_ge; rewrite length_app; lia).
  rewrite (bind_ok _ _ _ _ _ (remove_detached _ _ _ Hb Hp)).
  rewrite (bind_ok _ _ _ _ _ (update_node_run _ _ _ _ Hb)).
  erewrite update_node_run by (rewrite put_lookup_ne by done; exact Hr).
  by rewrite Hc, insert_at_middle.
Qed.

Lemma remove_run r k o ok (l1 l2 : list ref) st :
  cells st !! k = Some ok -> parent ok = Some r ->
  cells st !! r = Some o -> children o = l1 ++ k :: l2 -> ~ In k l1 ->
  r <> k ->
  remove k st
  = Ok tt (put k (with_parent None ok) (put r (with_children (l1 ++ l2) o) st)).
Proof.
  intros Hk Hp Hr Hc Hnin Hne. unfold remove, removeChild.
  rewrite (bind_ok _ _ _ _ _ (get_node_ok _ _ _ Hk)), Hp.
  rewrite (bind_ok _ _ _ _ _ (get_node_ok _ _ _ Hr)).
  rewrite Hc, index_of_middle by done.
  rewrite (bind_ok _ _ _ _ _ (update_node_run _ _ _ _ Hr)).
  erewrite update_node_run by (rewrite put_lookup_ne by done; exact Hk).
  cbn [with_children children]. by rewrite remove_at_middle.
Qed.

(** [node.repeat && node.repeat.count === null], for the object at [r]. *)
Definition is_unresolved (st : Store) (r : ref) : bool :=
  match cells st !! r with
  | Some o => unresolved o
  | None => false
  end.

(** A tree with the repeat state of clone number [i] at its root. *)
Definition resolved (amount i : nat) (d : dtree) : dtree :=
  match d with
  | DNode dt ks =>
    DNode (mkData (d_name dt) (d_value dt) (d_attributes dt)
             (Some (resolved_repeat amount i))) ks
  end.

(** [clones] are the [amount] clones of the tree [k] of the store [st]:
    in [st'], clone number [i] is a copy of [k] as it was, with the repeat
    state of number [i], made of objects that [st] did not have. *)
Definition clones_of (st st' : Store) (amount : nat) (k : rtree)
    (clones : list rtree) : Prop :=
  length clones = amount /\
  forall i c, clones !! i = Some c ->
    erase st' c = resolved amount i (erase st k) /\
    forall x, In x (refs c) -> next_ref st <= x.

Section unresolved_node.
(** The unresolved node [root tk], child of [r] between [pre] and [post]. *)
Variables (st : Store) (amount fuel : nat) (r : ref) (o ok : Node)
          (pre post : list ref) (tk : rtree).
Hypothesis Hr : cells st !! r = Some o.
Hypothesis Hk : shape st (Some r) tk.
Hypothesis Hok : cells st !! root tk = Some ok.
Hypothesis Hun : unresolved ok = true.
Hypothesis Hpre : ~ In (root tk) pre.
Hypothesis Hst : store_ok st.
Hypothesis Hrk : ~ In r (refs tk).
Hypothesis Hfuel : size tk <= fuel.

Definition clones_inv (done : list rtree) (st1 : Store) : Prop :=
  cells st1 !! r
    = Some (with_children (pre ++ map root done ++ root tk :: post) o) /\
  Forall (shape st1 (Some r)) done /\
  (forall j c, done !! j = Some c ->
     erase st1 c = resolved amount j (erase st tk)) /\
  (forall x, In x (flat_map refs done) -> next_ref st <= x) /\
  NoDup (flat_map refs done) /\
  (forall x, x < next_ref st -> x <> r -> cells st1 !! x = cells st !! x) /\
  store_ok st1 /\ next_ref st <= next_ref st1.

Lemma unresolved_has_repeat : exists rp, repeat ok = Some rp.
Proof using Hun.
  unfold unresolved in Hun. destruct (repeat ok) as [rp|]; [by eexists|done].
Qed.

Lemma r_is_old : r < next_ref st.
Proof using Hr Hst. apply Hst. by eexists. Qed.

Lemma tk_is_old x : In x (refs tk) -> x < next_ref st /\ x <> r.
Proof using Hk Hst Hrk.
  intros Hx. split; [by eapply shape_refs_lt|]. by intros ->.
Qed.

Lemma clone_step i done st1 :
  length done = i -> clones_inv done st1 ->
  exists st2 c,
    (clone ← clone fuel true (root tk);
     update_repeat clone (set_implicit true) ;;
     update_repeat clone (set_count (Some amount)) ;;
     update_repeat clone (set_rep_value (i + 1)) ;;
     update_repeat clone (set_index i) ;;
     o' ← get_node (root tk);
     match parent o' with
     | Some p => insertBefore p clone (root tk)
     | None => throw TypeError
     end) st1 = Ok tt st2
    /\ clones_inv (done ++ [c]) st2.
Proof using All.
  intros Hlen (Hr1 & Hdone & Herase & Hfresh & Hnd & Hold & Hok1 & Hle).
  assert (Hk1 : shape st1 (Some r) tk).
  { eapply shape_agree; [|exact Hk]. intros x Hx.
    destruct (tk_is_old x Hx). by apply Hold. }
  destruct (clone_run fuel tk (Some r) st1 Hk1 Hok1 Hfuel)
    as (st1' & Hrun & Hn1' & Hold1 & Hs1 & He1 & Hok1').
  set (b := next_ref st1) in *.
  destruct (shape_inv _ _ _ Hs1) as (ob & Hb & Hpb & Hcb & Hkb).
  rewrite root_relabel in Hb, Hkb.
  destruct (tk_is_old (root tk) (root_in_refs tk)) as [Hkold Hkr].
  assert (Hok1k : cells st1' !! root tk = Some ok).
  { rewrite Hold1 by (unfold b; lia). by rewrite Hold. }
  assert (Hdata : data_of ob = data_of ok).
  { rewrite (relabel_node_root b tk) in He1. destruct tk as [k ks].
    cbn [erase root] in *. rewrite Hb in He1.
    rewrite <- (Hold1 k), Hok1k in He1 by (unfold b; lia).
    by apply (f_equal (fun d => match d with DNode x _ => x end)) in He1. }
  destruct unresolved_has_repeat as [rp Hrp].
  assert (Hrpb : repeat ob = Some rp).
  { rewrite <- Hrp. by injection Hdata. }
  rewrite (bind_ok _ _ _ _ _ Hrun).
  rewrite (resolve_repeat_run _ _ _ _ amount i _ Hb Hrpb).
  set (ob' := with_repeat (Some (resolved_repeat amount i)) ob).
  assert (Hka : cells (put b ob' st1') !! root tk = Some ok).
  { rewrite put_lookup_ne by (unfold b; lia). done. }
  rewrite (bind_ok _ _ _ _ _ (get_node_ok _ _ _ Hka)).
  destruct (shape_inv _ _ _ Hk) as (ok' & Hok' & Hpk & _).
  assert (ok' = ok) as -> by congruence. rewrite Hpk.
  pose proof r_is_old as Hrold.
  assert (Hra : cells (put b ob' st1') !! r
                = Some (with_children
                          ((pre ++ map root done) ++ root tk :: post) o)).
  { rewrite put_lookup_ne by (unfold b; lia).
    rewrite Hold1 by (unfold b; lia). by rewrite Hr1, <- app_assoc. }
  assert (Hnin : ~ In (root tk) (pre ++ map root done)).
  { intros [Hin|Hin]%in_app_or; [done|].
    apply in_map_iff in Hin as (c & Hc & Hin).
    assert (next_ref st <= root tk); [|lia].
    apply Hfresh, in_flat_map. exists c. split; [done|].
    rewrite <- Hc. apply root_in_refs. }
  rewrite (insertBefore_run r b (root tk) _ ob' _ _ _ Hra eq_refl Hnin
             (put_lookup _ _ _) Hpb) by (unfold b; lia).
  rewrite put_put. cbn [with_children children].
  set (st2 := put r _ (put b _ st1')).
  assert (Hst2 : forall x, x <> r -> x <> b -> cells st2 !! x = cells st1' !! x).
  { intros x H1 H2. unfold st2. by rewrite !put_lookup_ne. }
  assert (Hcrefs : forall x, In x (refs (relabel b tk)) -> b <= x < b + size tk).
  { intros x Hx. rewrite refs_relabel in Hx. by apply in_seq in Hx. }
  assert (Hdone_lt : forall x, In x (flat_map refs done) -> x < b).
  { intros x Hx. apply in_flat_map in Hx as (c & Hc & Hx).
    rewrite Forall_forall in Hdone.
    eapply shape_refs_lt; [done|by apply Hdone, list_elem_of_In|done]. }
  exists st2, (relabel b tk). split; [done|].
  repeat split.
  - unfold st2. rewrite put_lookup, map_app. cbn [map].
    rewrite root_relabel, <- !app_assoc. done.
  - apply Forall_app. split.
    + rewrite Forall_forall in Hdone |- *. intros c Hc.
      eapply shape_agree; [|by apply Hdone].
      intros x Hx.
      assert (Hin : In x (flat_map refs done)).
      { apply in_flat_map. exists c. split; [by apply list_elem_of_In|done]. }
      pose proof (Hdone_lt x Hin). pose proof (Hfresh x Hin).
      rewrite Hst2 by lia. apply Hold1. lia.
    + apply Forall_singleton.
      eapply shape_agree with (st := put b (with_parent (Some r) ob') st1').
      { intros x Hx. apply Hcrefs in Hx. unfold st2.
        rewrite put_lookup_ne; [done|lia]. }
      rewrite (relabel_node_root b tk) in Hs1, Hcb |- *.
      apply shape_root_put with (p := None); [done|exact Hcb|done|].
      rewrite refs_relabel_kids. intros Hin%in_seq. lia.
  - intros j c Hj. apply lookup_app_Some in Hj as [Hj|[Hge Hj]].
    + rewrite <- (Herase j c Hj). apply erase_agree. intros x Hx.
      assert (Hin : In x (flat_map refs done)).
      { apply in_flat_map. exists c. split; [|done].
        apply list_elem_of_In. by eapply list_elem_of_lookup_2. }
      pose proof (Hdone_lt x Hin). pose proof (Hfresh x Hin).
      rewrite Hst2 by lia. apply Hold1. lia.
    + apply list_lookup_singleton_Some in Hj as [Hj <-].
      assert (j = i) as -> by lia.
      rewrite <- (erase_agree st st1 tk), <- He1.
      2:{ intros x Hx. destruct (tk_is_old x Hx). by apply Hold. }
      rewrite (relabel_node_root b tk). cbn [erase resolved].
      unfold st2. rewrite put_lookup_ne by lia. rewrite put_lookup, Hb.
      cbn [from_option]. f_equal.
      apply map_ext_in. intros t Ht. apply erase_agree. intros x Hx.
      assert (Hin : In x (flat_map refs (relabel_kids (S b) (kids tk)))).
      { apply in_flat_map. exists t. split; done. }
      rewrite refs_relabel_kids in Hin. apply in_seq in Hin.
      rewrite !put_lookup_ne; [done|lia|lia].
  - intros x Hx. rewrite flat_map_app in Hx. apply in_app_or in Hx as [Hx|Hx].
    + by apply Hfresh.
    + cbn [flat_map] in Hx. rewrite app_nil_r in Hx. apply Hcrefs in Hx. lia.
  - rewrite flat_map_app. cbn [flat_map]. rewrite app_nil_r.
    apply NoDup_app. split; [done|]. split.
    + intros x Hx%list_elem_of_In Hx'%list_elem_of_In.
      apply Hdone_lt in Hx. apply Hcrefs in Hx'. lia.
    + rewrite refs_relabel. apply NoDup_seq.
  - intros x Hx Hxr. rewrite Hst2 by (done || lia).
    rewrite Hold1 by lia. by apply Hold.
  - unfold st2. apply store_ok_put; [apply store_ok_put; [done|by eexists]|].
    rewrite put_lookup_ne by lia. rewrite Hold1 by lia. by eexists.
  - unfold st2. cbn [put next_ref]. lia.
Qed.

Lemma clone_loop n : forall i done st1,
  length done = i -> clones_inv done st1 ->
  exists st2 more,
    for_each (seq i n) (fun i =>
      clone ← clone fuel true (root tk);
      update_repeat clone (set_implicit true) ;;
      update_repeat clone (set_count (Some amount)) ;;
      update_repeat clone (set_rep_value (i + 1)) ;;
      update_repeat clone (set_index i) ;;
      o' ← get_node (root tk);
      match parent o' with
      | Some p => insertBefore p clone (root tk)
      | None => throw TypeError
      end) st1 = Ok tt st2
    /\ length more = n /\ clones_inv (done ++ more) st2.
Proof using All.
  induction n as [|n IH]; intros i done st1 Hlen Hinv.
  { exists st1, []. rewrite app_nil_r. by split; [|split]. }
  destruct (clone_step i done st1 Hlen Hinv) as (st2 & c & Hrun & Hinv2).
  destruct (IH (S i) (done ++ [c]) st2) as (st3 & more & Hrun3 & Hlen3 & Hinv3);
    [rewrite length_app; simpl; lia|done|].
  exists st3, (c :: more). cbn [seq]. rewrite for_each_cons.
  rewrite (bind_ok _ _ _ _ _ Hrun). split; [done|]. split; [simpl; lia|].
  by rewrite <- app_assoc in Hinv3.
Qed.

Hypothesis Hc : children o = pre ++ root tk :: post.

Lemma prepare_node_unresolved :
  exists st' clones,
    prepare_node fuel amount (root tk) tt st = Ok tt st'
    /\ cells st' !! r = Some (with_children (pre ++ map root clones ++ post) o)
    /\ cells st' !! root tk = Some (with_parent None ok)
    /\ Forall (shape st' (Some r)) clones
    /\ clones_of st st' amount tk clones
    /\ NoDup (flat_map refs clones)
    /\ (forall x, x < next_ref st -> x <> r -> x <> root tk ->
          cells st' !! x = cells st !! x)
    /\ store_ok st' /\ next_ref st <= next_ref st'.
Proof using All.
  unfold prepare_node.
  rewrite (bind_ok _ _ _ _ _ (get_node_ok _ _ _ Hok)), Hun.
  destruct (clone_loop amount 0 [] st eq_refl)
    as (st2 & clones & Hrun & Hlen & Hr2 & Hshape & Herase & Hfresh & Hnd & Hold & Hok2 & Hle).
  { repeat split; try done.
    - cbn [map app]. by rewrite <- Hc, Hr; destruct o.
    - constructor. }
  cbn [app] in *. rewrite (bind_ok _ _ _ _ _ Hrun).
  destruct (tk_is_old (root tk) (root_in_refs tk)) as [Hkold Hkr].
  pose proof r_is_old as Hrold.
  assert (Hk2 : cells st2 !! root tk = Some ok) by (by rewrite Hold).
  destruct (shape_inv _ _ _ Hk) as (ok' & Hok' & Hpk & _).
  assert (ok' = ok) as -> by congruence.
  assert (Hnin : ~ In (root tk) (pre ++ map root clones)).
  { intros [Hin|Hin]%in_app_or; [done|].
    apply in_map_iff in Hin as (c & Hceq & Hin).
    assert (next_ref st <= root tk); [|lia].
    apply Hfresh, in_flat_map. exists c. split; [done|].
    rewrite <- Hceq. apply root_in_refs. }
  rewrite app_assoc in Hr2.
  rewrite (remove_run r (root tk) _ ok _ _ st2 Hk2 Hpk Hr2 eq_refl Hnin) by done.
  set (st' := put (root tk) _ (put r _ st2)).
  assert (Hst' : forall x, x <> r -> x <> root tk -> cells st' !! x = cells st2 !! x).
  { intros x H1 H2. unfold st'. by rewrite !put_lookup_ne. }
  assert (Hclones_new : forall c x, In c clones -> In x (refs c) ->
            cells st' !! x = cells st2 !! x).
  { intros c x Hcin Hx. apply Hst'.
    - assert (next_ref st <= x); [|lia]. apply Hfresh, in_flat_map. eauto.
    - assert (next_ref st <= x); [|lia]. apply Hfresh, in_flat_map. eauto. }
  exists st', clones.
  split; [done|]. split; [|split; [|split; [|split; [|split; [done|split; [|split]]]]]].
  - unfold st'. rewrite put_lookup_ne by done. rewrite put_lookup.
    by rewrite <- app_assoc.
  - unfold st'. by rewrite put_lookup.
  - rewrite Forall_forall in Hshape |- *. intros c Hcin.
    eapply shape_agree; [|by apply Hshape].
    intros x Hx. eapply Hclones_new; [|done]. by apply list_elem_of_In.
  - split; [done|]. intros i c Hi.
    assert (Hcin : In c clones).
    { apply list_elem_of_In. by eapply list_elem_of_lookup_2. }
    split.
    + rewrite <- (Herase i c Hi). apply erase_agree.
      intros x Hx. by eapply Hclones_new.
    + intros x Hx. apply Hfresh, in_flat_map. by exists c.
  - intros x Hx Hxr Hxk. rewrite Hst' by done. by apply Hold.
  - unfold st'. apply store_ok_put; [apply store_ok_put; [done|by eexists]|].
    rewrite put_lookup_ne by done. by eexists.
  - unfold st'. cbn [put next_ref]. lia.
Qed.
End unresolved_node.

(** ** What [prepare] makes of a tree *)

Definition data_at (st : Store) (r : ref) : option Data :=
  data_of <$> cells st !! r.

(** [expanded st st' amount t t']: the tree [t'] of the store [st'] is the
    tree [t] of the store [st] with each unresolved node below the root
    replaced, where it stood, by its [amount] clones, the other nodes
    keeping their data and, recursively, their expanded children.  What
    lies below a replaced node went away with it. *)
Inductive expanded (st st' : Store) (amount : nat) : rtree -> rtree -> Prop :=
  | expanded_node r ks ks' :
      data_at st' r = data_at st r ->
      expanded_kids st st' amount ks ks' ->
      expanded st st' amount (RNode r ks) (RNode r ks')
with expanded_kids (st st' : Store) (amount : nat)
    : list rtree -> list rtree -> Prop :=
  | expanded_nil : expanded_kids st st' amount [] []
  | expanded_keep k k' ks ks' :
      is_unresolved st (root k) = false ->
      expanded st st' amount k k' ->
      expanded_kids st st' amount ks ks' ->
      expanded_kids st st' amount (k :: ks) (k' :: ks')
  | expanded_clones k clones ks ks' :
      is_unresolved st (root k) = true ->
      clones_of st st' amount k clones ->
      expanded_kids st st' amount ks ks' ->
      expanded_kids st st' amount (k :: ks) (clones ++ ks').

Scheme expanded_mut := Induction for expanded Sort Prop
  with expanded_kids_mut := Induction for expanded_kids Sort Prop.

Combined Scheme expanded_mutind from expanded_mut, expanded_kids_mut.

Lemma clones_of_agree st0 st st1 st2 amount k clones :
  (forall x, In x (refs k) -> cells st0 !! x = cells st !! x) ->
  next_ref st0 <= next_ref st ->
  (forall x, In x (flat_map refs clones) -> cells st2 !! x = cells st1 !! x) ->
  clones_of st st1 amount k clones -> clones_of st0 st2 amount k clones.
Proof.
  intros Hl Hle Hr [Hlen Hc]. split; [done|]. intros i c Hi.
  destruct (Hc i c Hi) as [He Hf]. split.
  - rewrite (erase_agree st st0 k) by done. rewrite <- He.
    apply erase_agree. intros x Hx. apply Hr, in_flat_map. exists c.
    split; [|done]. apply list_elem_of_In. by eapply list_elem_of_lookup_2.
  - intros x Hx. specialize (Hf x Hx). lia.
Qed.

Lemma expanded_agree st0 st st1 st2 amount :
  next_ref st0 <= next_ref st ->
  (forall t t', expanded st st1 amount t t' ->
     (forall x, In x (refs t) -> cells st0 !! x = cells st !! x) ->
     (forall x, In x (refs t') -> cells st2 !! x = cells st1 !! x) ->
     expanded st0 st2 amount t t')
  /\ (forall ks ks', expanded_kids st st1 amount ks ks' ->
     (forall x, In x (flat_map refs ks) -> cells st0 !! x = cells st !! x) ->
     (forall x, In x (flat_map refs ks') -> cells st2 !! x = cells st1 !! x) ->
     expanded_kids st0 st2 amount ks ks').
Proof.
  intros Hle.
  apply (expanded_mutind st st1 amount
    (fun t t' _ =>
       (forall x, In x (refs t) -> cells st0 !! x = cells st !! x) ->
       (forall x, In x (refs t') -> cells st2 !! x = cells st1 !! x) ->
       expanded st0 st2 amount t t')
    (fun ks ks' _ =>
       (forall x, In x (flat_map refs ks) -> cells st0 !! x = cells st !! x) ->
       (forall x, In x (flat_map refs ks') -> cells st2 !! x = cells st1 !! x) ->
       expanded_kids st0 st2 amount ks ks')).
  - intros r ks ks' Hd Hk IH Hl Hr. constructor.
    + unfold data_at in *. rewrite Hl, Hr by (by left). done.
    + apply IH; intros x Hx; [apply Hl|apply Hr]; by right.
  - constructor.
  - intros k k' ks ks' Hu Hk IHk Hks IHks Hl Hr. constructor.
    + unfold is_unresolved in *. rewrite Hl; [done|].
      cbn [flat_map]. apply in_or_app. left. apply root_in_refs.
    + apply IHk; intros x Hx; [apply Hl|apply Hr]; cbn [flat_map];
        apply in_or_app; by left.
    + apply IHks; intros x Hx; [apply Hl|apply Hr]; cbn [flat_map];
        apply in_or_app; by right.
  - intros k clones ks ks' Hu Hc Hks IHks Hl Hr. constructor.
    + unfold is_unresolved in *. rewrite Hl; [done|].
      cbn [flat_map]. apply in_or_app. left. apply root_in_refs.
    + eapply clones_of_agree; [| | |exact Hc]; [|done|].
      * intros x Hx. apply Hl. cbn [flat_map]. apply in_or_app. by left.
      * intros x Hx. apply Hr. rewrite flat_map_app. apply in_or_app. by left.
    + apply IHks; intros x Hx; [apply Hl|apply Hr].
      * cbn [flat_map]. apply in_or_app. by right.
      * rewrite flat_map_app. apply in_or_app. by right.
Qed.

Lemma forest_refs_lt st p ks x :
  store_ok st -> Forall (shape st p) ks -> In x (flat_map refs ks) ->
  x < next_ref st.
Proof.
  intros Hok Hks Hx. apply in_flat_map in Hx as (k & Hk & Hx).
  rewrite Forall_forall in Hks.
  eapply shape_refs_lt; [done|by apply Hks, list_elem_of_In|done].
Qed.

Lemma with_children_same o : with_children (children o) o = o.
Proof. by destruct o. Qed.

(** What the walk of [prepare] leaves of the children [ks] of [r]. *)
Definition walked (st : Store) (amount : nat) (r : ref) (ks ks' : list rtree)
    (st' : Store) : Prop :=
  Forall (shape st' (Some r)) ks' /\
  expanded_kids st st' amount ks ks' /\
  NoDup (flat_map refs ks') /\
  (forall x, In x (flat_map refs ks') ->
     In x (flat_map refs ks) \/ next_ref st <= x) /\
  (forall x, x < next_ref st -> x <> r -> ~ In x (flat_map refs ks) ->
     cells st' !! x = cells st !! x) /\
  store_ok st' /\ next_ref st <= next_ref st'.

Lemma nextSibling_run r o k (pre post : list ref) ok st :
  cells st !! r = Some o -> children o = pre ++ k :: post -> ~ In k pre ->
  cells st !! k = Some ok -> parent ok = Some r ->
  nextSibling k st = Ok (head post) st.
Proof.
  intros Hr Hc Hk Hok Hp. unfold nextSibling.
  rewrite (bind_ok _ _ _ _ _ (get_node_ok _ _ _ Hok)), Hp.
  rewrite (bind_ok _ _ _ _ _ (get_node_ok _ _ _ Hr)), ret_run, Hc.
  by rewrite after_middle.
Qed.

Lemma prepare_node_resolved fuel amount k ok st :
  cells st !! k = Some ok -> unresolved ok = false ->
  prepare_node fuel amount k tt st = Ok tt st.
Proof.
  intros Hok Hun. unfold prepare_node.
  by rewrite (bind_ok _ _ _ _ _ (get_node_ok _ _ _ Hok)), Hun.
Qed.

(** The children [ks] of [r] that the walk has still to visit, after the
    children [pre]. *)
Definition walk_ready (st : Store) (r : ref) (o : Node) (pre : list ref)
    (ks : list rtree) : Prop :=
  cells st !! r = Some o /\
  children o = pre ++ map root ks /\
  Forall (shape st (Some r)) ks /\
  NoDup (flat_map refs ks) /\
  ~ In r (flat_map refs ks) /\
  (forall x, In x pre -> ~ In x (map root ks)) /\
  store_ok st.

Definition prepare_walk_spec (clone_fuel amount fuel : nat) : Prop :=
  forall ks pre r o st,
    walk_ready st r o pre ks ->
    forest_size ks <= fuel -> forest_size ks <= clone_fuel ->
    exists st' ks',
      walk_from fuel (prepare_node clone_fuel amount) (head (map root ks)) tt st
      = Ok tt st'
      /\ cells st' !! r = Some (with_children (pre ++ map root ks') o)
      /\ walked st amount r ks ks' st'.

Lemma walk_ready_kids st r o pre k rest :
  walk_ready st r o pre (k :: rest) ->
  exists ok,
    cells st !! root k = Some ok /\ parent ok = Some r /\
    walk_ready st (root k) ok [] (kids k) /\
    r <> root k /\ ~ In r (flat_map refs (kids k)) /\
    ~ In (root k) pre /\
    (forall x, In x (flat_map refs rest) -> x <> root k /\ ~ In x (flat_map refs (kids k))).
Proof.
  intros (Hr & Hc & Hks & Hnd & Hrn & Hpre & Hok).
  apply Forall_cons in Hks as [Hk Hks].
  destruct (shape_inv _ _ _ Hk) as (ok & Hrk & Hpk & Hck & Hkk).
  cbn [flat_map] in Hnd, Hrn. rewrite refs_root in Hnd, Hrn.
  apply NoDup_app in Hnd as (Hndk & Hdis & Hndr).
  apply NoDup_cons in Hndk as [Hrootk Hnddesc].
  exists ok. split; [done|]. split; [done|].
  split; [|split; [|split; [|split]]].
  - split; [done|]. split; [done|]. split; [done|]. split; [done|].
    split; [by rewrite list_elem_of_In in Hrootk|]. split; [by intros x []|done].
  - intros Heq. subst r. apply Hrn. apply in_or_app. left. by left.
  - intros Hin. apply Hrn. apply in_or_app. left. by right.
  - intros Hin. apply (Hpre _ Hin). by left.
  - intros x Hx. split.
    + intros Heq. subst x.
      apply (Hdis (root k)); [by left|by apply list_elem_of_In].
    + intros Hin. apply (Hdis x); [right|]; by apply list_elem_of_In.
Qed.

Lemma walk_ready_rest st st1 r o o1 (pre pre1 : list ref) k rest :
  walk_ready st r o pre (k :: rest) ->
  cells st1 !! r = Some o1 -> children o1 = pre1 ++ map root rest ->
  (forall x, In x (flat_map refs rest) -> cells st1 !! x = cells st !! x) ->
  (forall x, In x pre1 -> In x pre \/ x = root k \/ next_ref st <= x) ->
  store_ok st1 ->
  walk_ready st1 r o1 pre1 rest.
Proof.
  intros (Hr & Hc & Hks & Hnd & Hrn & Hpre & Hok) Hr1 Hc1 Hag Hpre1 Hok1.
  apply Forall_cons in Hks as [Hk Hks].
  cbn [flat_map] in Hnd, Hrn.
  apply NoDup_app in Hnd as (Hndk & Hdis & Hndr).
  split; [done|]. split; [done|]. split; [|split; [done|split; [|split; [|done]]]].
  - rewrite Forall_forall in Hks |- *. intros t Ht.
    eapply shape_agree; [|by apply Hks]. intros x Hx. apply Hag.
    apply in_flat_map. exists t. split; [by apply list_elem_of_In|done].
  - intros Hin. apply Hrn. apply in_or_app. by right.
  - intros x Hx Hin. destruct (Hpre1 x Hx) as [Hp|[->|Hfresh]].
    + apply (Hpre x Hp). by right.
    + apply (Hdis (root k)); [apply list_elem_of_In, root_in_refs|].
      apply list_elem_of_In. apply in_map_iff in Hin as (t & Heq & Ht).
      apply in_flat_map. exists t. split; [done|]. rewrite <- Heq. apply root_in_refs.
    + apply in_map_iff in Hin as (t & Heq & Ht).
      assert (x < next_ref st); [|lia].
      eapply forest_refs_lt; [done|exact Hks|].
      apply in_flat_map. exists t. split; [done|]. rewrite <- Heq. apply root_in_refs.
Qed.

Lemma prepare_walk_keep clone_fuel amount fuel k rest pre r o st :
  prepare_walk_spec clone_fuel amount fuel ->
  walk_ready st r o pre (k :: rest) ->
  is_unresolved st (root k) = false ->
  forest_size (k :: rest) <= S fuel -> forest_size (k :: rest) <= clone_fuel ->
  exists st' ks',
    walk_from (S fuel) (prepare_node clone_fuel amount) (Some (root k)) tt st
    = Ok tt st'
    /\ cells st' !! r = Some (with_children (pre ++ map root ks') o)
    /\ walked st amount r (k :: rest) ks' st'.
Proof.
  intros IH Hready Hun Hfuel HF.
  destruct (walk_ready_kids _ _ _ _ _ _ Hready)
    as (ok & Hrk & Hpk & Hready_k & Hne & Hrkids & Hkpre & Hrest_k).
  pose proof Hready as (Hr & Hc & Hks & Hnd & Hrn & Hpre & Hok).
  apply Forall_cons in Hks as [Hk Hks].
  rewrite forest_size_cons, size_kids in Hfuel, HF.
  assert (Hrold : r < next_ref st) by (apply Hok; by eexists).
  assert (Hkold : forall x, In x (refs k) -> x < next_ref st).
  { intros x Hx. by eapply shape_refs_lt. }
  assert (Hrestold : forall x, In x (flat_map refs rest) -> x < next_ref st).
  { intros x Hx. by eapply forest_refs_lt. }
  cbn [flat_map] in Hnd, Hrn.
  pose proof Hnd as (Hndk & Hdis & Hndr)%NoDup_app.
  (* the callback does nothing; the walk goes down to the children of [k] *)
  cbn [walk_from].
  rewrite (bind_ok _ _ _ _ _ (nextSibling_run r o (root k) pre (map root rest) ok st
                                Hr Hc Hkpre Hrk Hpk)).
  unfold is_unresolved in Hun. rewrite Hrk in Hun.
  rewrite (bind_ok _ _ _ _ _ (prepare_node_resolved _ _ _ _ _ Hrk Hun)).
  rewrite (bind_ok _ _ _ _ _ (firstChild_run _ _ _ Hrk)).
  destruct Hready_k as (_ & Hck & Hready_k').
  destruct (IH (kids k) [] (root k) ok st) as
    (st1 & kids' & Hrun1 & Hk1 & Hshape1 & Hexp1 & Hnd1 & Hbound1 & Hframe1 & Hok1 & Hle1);
    [by split|lia|lia|].
  rewrite Hck. cbn [app] in *. rewrite (bind_ok _ _ _ _ _ Hrun1).
  (* the siblings after [k] *)
  assert (Hr1 : cells st1 !! r = Some o) by (rewrite Hframe1; done).
  assert (Hready1 : walk_ready st1 r o (pre ++ [root k]) rest).
  { eapply walk_ready_rest; [exact Hready|done| | | |done].
    - rewrite Hc. cbn [map]. by rewrite <- app_assoc.
    - intros x Hx. destruct (Hrest_k x Hx). apply Hframe1; auto.
    - intros x [Hx|[<-|[]]]%in_app_or; auto. }
  destruct (IH rest (pre ++ [root k]) r o st1 Hready1) as
    (st2 & rest' & Hrun2 & Hr2 & Hshape2 & Hexp2 & Hnd2 & Hbound2 & Hframe2 & Hok2 & Hle2);
    [lia|lia|].
  set (k' := RNode (root k) kids').
  assert (Hk'1 : shape st1 (Some r) k') by (by econstructor).
  assert (Hk'old : forall x, In x (refs k') -> In x (refs k) \/ next_ref st <= x).
  { intros x [<-|Hx]; [left; apply root_in_refs|].
    destruct (Hbound1 x Hx) as [Hin|Hfresh]; [|by right].
    left. rewrite refs_root. by right. }
  assert (Hk'2 : forall x, In x (refs k') -> cells st2 !! x = cells st1 !! x).
  { intros x Hx. apply Hframe2.
    - by eapply shape_refs_lt.
    - destruct (Hk'old x Hx) as [Hin|Hfresh]; [|lia].
      intros ->. apply Hrn. apply in_or_app. by left.
    - destruct (Hk'old x Hx) as [Hin|Hfresh].
      + intros Hin'. apply (Hdis x); by apply list_elem_of_In.
      + intros Hin'. apply Hrestold in Hin'. lia. }
  exists st2, (k' :: rest'). split; [done|]. split.
  { rewrite Hr2. cbn [map root k']. by rewrite <- app_assoc. }
  split; [|split; [|split; [|split; [|split; [|split]]]]].
  - constructor; [|done]. by eapply shape_agree.
  - constructor.
    + unfold is_unresolved. by rewrite Hrk.
    + destruct k as [kr kks]. cbn [root kids] in *. constructor.
      * unfold data_at. rewrite Hk'2 by (by left). by rewrite Hk1, Hrk.
      * eapply (proj2 (expanded_agree st st st1 st2 amount (le_n _))); [done|done|].
        intros x Hx. apply Hk'2. by right.
    + eapply (proj2 (expanded_agree st st1 st2 st2 amount Hle1)); [done| |done].
      intros x Hx. destruct (Hrest_k x Hx). symmetry. apply Hframe1; auto.
  - cbn [flat_map]. apply NoDup_app. split; [|split; [|done]].
    + cbn [k' refs]. constructor; [|done].
      rewrite list_elem_of_In. intros Hin.
      destruct (Hbound1 _ Hin) as [Hin'|Hfresh].
      * destruct Hready_k' as (_ & _ & Hnin & _). done.
      * pose proof (Hkold _ (root_in_refs k)). lia.
    + intros x Hx%list_elem_of_In Hx'%list_elem_of_In.
      pose proof (shape_refs_lt _ _ _ _ Hok1 Hk'1 Hx) as Hlt.
      destruct (Hbound2 x Hx') as [Hin'|Hfresh]; [|lia].
      destruct (Hk'old x Hx) as [Hin|Hfresh].
      * apply (Hdis x); by apply list_elem_of_In.
      * apply Hrestold in Hin'. lia.
  - intros x [Hx|Hx]%in_app_or.
    + destruct (Hk'old x Hx) as [Hin|Hfresh]; [|by right].
      left. cbn [flat_map]. apply in_or_app. by left.
    + destruct (Hbound2 x Hx) as [Hin|Hfresh]; [|right; lia].
      left. cbn [flat_map]. apply in_or_app. by right.
  - intros x Hx Hxr Hnin. cbn [flat_map] in Hnin.
    rewrite Hframe2; [| lia | done |].
    + apply Hframe1; [done| |].
      * intros ->. apply Hnin. apply in_or_app. left. apply root_in_refs.
      * intros Hin. apply Hnin. apply in_or_app. left. rewrite refs_root. by right.
    + intros Hin. apply Hnin. apply in_or_app. by right.
  - done.
  - lia.
Qed.

Lemma prepare_walk_replace clone_fuel amount fuel k rest pre r o st :
  prepare_walk_spec clone_fuel amount fuel ->
  walk_ready st r o pre (k :: rest) ->
  is_unresolved st (root k) = true ->
  forest_size (k :: rest) <= S fuel -> forest_size (k :: rest) <= clone_fuel ->
  exists st' ks',
    walk_from (S fuel) (prepare_node clone_fuel amount) (Some (root k)) tt st
    = Ok tt st'
    /\ cells st' !! r = Some (with_children (pre ++ map root ks') o)
    /\ walked st amount r (k :: rest) ks' st'.
Proof.
  intros IH Hready Hun Hfuel HF.
  destruct (walk_ready_kids _ _ _ _ _ _ Hready)
    as (ok & Hrk & Hpk & Hready_k & Hne & Hrkids & Hkpre & Hrest_k).
  pose proof Hready as (Hr & Hc & Hks & Hnd & Hrn & Hpre & Hok).
  apply Forall_cons in Hks as [Hk Hks].
  rewrite forest_size_cons in Hfuel, HF.
  assert (Hrold : r < next_ref st) by (apply Hok; by eexists).
  assert (Hkold : forall x, In x (refs k) -> x < next_ref st).
  { intros x Hx. by eapply shape_refs_lt. }
  assert (Hrestold : forall x, In x (flat_map refs rest) -> x < next_ref st).
  { intros x Hx. by eapply forest_refs_lt. }
  cbn [flat_map] in Hnd, Hrn.
  pose proof Hnd as (Hndk & Hdis & Hndr)%NoDup_app.
  assert (Hrk_notin : ~ In r (refs k)).
  { intros Hin. apply Hrn. apply in_or_app. by left. }
  cbn [walk_from].
  rewrite (bind_ok _ _ _ _ _ (nextSibling_run r o (root k) pre (map root rest) ok st
                                Hr Hc Hkpre Hrk Hpk)).
  unfold is_unresolved in Hun. rewrite Hrk in Hun.
  (* the callback replaces [k] by its clones *)
  destruct (prepare_node_unresolved st amount clone_fuel r o ok pre (map root rest) k
              Hr Hk Hrk Hun Hkpre Hok Hrk_notin ltac:(lia) Hc)
    as (st1 & clones & Hrun0 & Hr1 & Hk1 & Hshape_c & Hclones & Hnd_c & Hframe0 & Hok1 & Hle1).
  rewrite (bind_ok _ _ _ _ _ Hrun0).
  (* the walk goes down to the children of the detached [k] *)
  rewrite (bind_ok _ _ _ _ _ (firstChild_run _ _ _ Hk1)).
  destruct Hready_k as (_ & Hck & Hkk & Hndkids & Hknin & _ & _).
  cbn [children with_parent]. rewrite Hck. cbn [app].
  rewrite size_kids in Hfuel, HF.
  destruct (IH (kids k) [] (root k) (with_parent None ok) st1) as
    (st2 & kids' & Hrun1 & _ & _ & _ & _ & _ & Hframe1 & Hok2 & Hle2); [|lia|lia|].
  { split; [done|]. split; [done|]. split; [|split; [done|split; [done|split; [by intros x []|done]]]].
    rewrite Forall_forall in Hkk |- *. intros t Ht.
    eapply shape_agree; [|by apply Hkk]. intros x Hx.
    assert (Hin : In x (flat_map refs (kids k))).
    { apply in_flat_map. exists t. split; [by apply list_elem_of_In|done]. }
    assert (Hin' : In x (refs k)) by (rewrite refs_root; by right).
    apply Hframe0; [by apply Hkold| |].
    - intros ->. done.
    - intros ->. done. }
  rewrite (bind_ok _ _ _ _ _ Hrun1).
  (* the siblings after [k] *)
  assert (Hclone_fresh : forall x, In x (flat_map refs clones) ->
            next_ref st <= x < next_ref st1).
  { intros x Hx. split; [|by eapply forest_refs_lt].
    apply in_flat_map in Hx as (c & Hcin & Hx).
    apply list_elem_of_In, list_elem_of_lookup_1 in Hcin as [i Hi].
    destruct Hclones as [_ Hclones]. by apply (Hclones i c Hi). }
  assert (Hr2 : cells st2 !! r
                = Some (with_children (pre ++ map root clones ++ map root rest) o)).
  { rewrite Hframe1; [done|lia|done|done]. }
  assert (Hrest2 : forall x, In x (flat_map refs rest) -> cells st2 !! x = cells st !! x).
  { intros x Hx. destruct (Hrest_k x Hx) as [Hxk Hxkids].
    pose proof (Hrestold x Hx).
    rewrite Hframe1; [|lia|done|done].
    apply Hframe0; [done| |done].
    intros ->. apply Hrn. apply in_or_app. by right. }
  assert (Hready2 : walk_ready st2 r
            (with_children (pre ++ map root clones ++ map root rest) o)
            (pre ++ map root clones) rest).
  { eapply walk_ready_rest; [exact Hready|done| |done| |done].
    - cbn [children with_children]. by rewrite <- app_assoc.
    - intros x [Hx|Hx]%in_app_or; [by left|]. right. right.
      apply in_map_iff in Hx as (c & <- & Hcin).
      apply Hclone_fresh, in_flat_map. exists c. split; [done|apply root_in_refs]. }
  destruct (IH rest (pre ++ map root clones) r _ st2 Hready2) as
    (st3 & rest' & Hrun3 & Hr3 & Hshape3 & Hexp3 & Hnd3 & Hbound3 & Hframe3 & Hok3 & Hle3);
    [lia|lia|].
  assert (Hclones3 : forall x, In x (flat_map refs clones) ->
            cells st3 !! x = cells st1 !! x).
  { intros x Hx. destruct (Hclone_fresh x Hx) as [Hge Hlt].
    rewrite Hframe3; [|lia|lia|].
    - apply Hframe1; [done| |].
      + intros ->. pose proof (Hkold _ (root_in_refs k)). lia.
      + intros Hin. assert (In x (refs k)) as Hin'%Hkold by (rewrite refs_root; by right).
        lia.
    - intros Hin%Hrestold. lia. }
  exists st3, (clones ++ rest'). split; [done|]. split.
  { rewrite Hr3. cbn [with_children]. by rewrite map_app, <- !app_assoc. }
  split; [|split; [|split; [|split; [|split; [|split]]]]].
  - apply Forall_app. split; [|done].
    rewrite Forall_forall in Hshape_c |- *. intros c Hcin.
    eapply shape_agree; [|by apply Hshape_c].
    intros x Hx. apply Hclones3, in_flat_map. exists c.
    split; [by apply list_elem_of_In|done].
  - constructor.
    + unfold is_unresolved. by rewrite Hrk.
    + eapply clones_of_agree; [| | |exact Hclones]; [done|done|done].
    + eapply (proj2 (expanded_agree st st2 st3 st3 amount ltac:(lia))); [done| |done].
      intros x Hx. symmetry. by apply Hrest2.
  - rewrite flat_map_app. apply NoDup_app. split; [done|]. split; [|done].
    intros x Hx%list_elem_of_In Hx'%list_elem_of_In.
    destruct (Hclone_fresh x Hx) as [Hge Hlt].
    destruct (Hbound3 x Hx') as [Hin%Hrestold|Hfresh]; lia.
  - intros x Hx. rewrite flat_map_app in Hx. apply in_app_or in Hx as [Hx|Hx].
    + right. by apply Hclone_fresh.
    + destruct (Hbound3 x Hx) as [Hin|Hfresh]; [|right; lia].
      left. cbn [flat_map]. apply in_or_app. by right.
  - intros x Hx Hxr Hnin. cbn [flat_map] in Hnin.
    rewrite Hframe3; [|lia|done|].
    + rewrite Hframe1; [|lia| |].
      * apply Hframe0; [done|done|].
        intros ->. apply Hnin. apply in_or_app. left. apply root_in_refs.
      * intros ->. apply Hnin. apply in_or_app. left. apply root_in_refs.
      * intros Hin. apply Hnin. apply in_or_app. left. rewrite refs_root. by right.
    + intros Hin. apply Hnin. apply in_or_app. by right.
  - done.
  - lia.
Qed.

Lemma prepare_walk clone_fuel amount fuel : prepare_walk_spec clone_fuel amount fuel.
Proof.
  assert (Hnil : forall fuel pre r o st,
    walk_ready st r o pre [] ->
    exists st' ks',
      walk_from fuel (prepare_node clone_fuel amount) (head (map root [])) tt st
      = Ok tt st'
      /\ cells st' !! r = Some (with_children (pre ++ map root ks') o)
      /\ walked st amount r [] ks' st').
  { intros f pre r o st (Hr & Hc & _ & _ & _ & _ & Hok).
    exists st, []. rewrite walk_from_none. split; [done|]. split.
    - by rewrite <- Hc, with_children_same.
    - split; [constructor|]. split; [constructor|]. split; [constructor|].
      split; [by intros x []|]. by split; [|split]. }
  induction fuel as [|fuel IH]; intros [|k rest] pre r o st Hready Hfuel HF;
    try (by apply Hnil).
  { rewrite forest_size_cons in Hfuel. pose proof (size_pos k). lia. }
  destruct (is_unresolved st (root k)) eqn:Hun.
  - by apply prepare_walk_replace.
  - by apply prepare_walk_keep.
Qed.

(** What [prepare] does to the tree [t] of the store [st]. *)
Lemma prepare_run fuel p t amount st :
  shape st p t -> NoDup (refs t) -> store_ok st -> size t <= S fuel ->
  exists st' t',
    prepare fuel (root t) amount st = Ok (root t) st'
    /\ shape st' p t' /\ NoDup (refs t')
    /\ expanded st st' (if amount =? 0 then 1 else amount) t t'
    /\ store_ok st'
    /\ (forall x, In x (refs t') -> In x (refs t) \/ next_ref st <= x).
Proof.
  intros Hs Hnd Hok Hfuel.
  destruct (shape_inv _ _ _ Hs) as (o & Hr & Hp & Hc & Hks).
  pose proof Hnd as Hnd'. rewrite refs_root in Hnd'.
  apply NoDup_cons in Hnd' as [Hroot Hnd']. rewrite list_elem_of_In in Hroot.
  rewrite size_kids in Hfuel.
  destruct (prepare_walk fuel (if amount =? 0 then 1 else amount) fuel
              (kids t) [] (root t) o st)
    as (st' & ks' & Hrun & Hr' & Hshape & Hexp & Hnd1 & Hbound & Hframe & Hok' & Hle);
    [|lia|lia|].
  { split; [done|]. split; [done|]. split; [done|]. split; [done|].
    split; [done|]. split; [by intros x []|done]. }
  exists st', (RNode (root t) ks'). cbn [app] in Hr'.
  unfold prepare, walk.
  rewrite bind_run, (bind_ok _ _ _ _ _ (firstChild_run _ _ _ Hr)), Hc, Hrun, ret_run.
  split; [done|]. split; [by econstructor|].
  assert (Hold : root t < next_ref st) by (apply Hok; by eexists).
  split; [|split; [|split; [done|]]].
  - cbn [refs]. constructor; [|done]. rewrite list_elem_of_In. intros Hin.
    destruct (Hbound _ Hin) as [Hin'|Hfresh]; [done|lia].
  - destruct t as [r ks]. cbn [root kids] in *. constructor; [|done].
    unfold data_at. by rewrite Hr', Hr.
  - intros x [<-|Hx]; [left; apply root_in_refs|].
    destruct (Hbound x Hx) as [Hin|Hfresh]; [|by right].
    left. rewrite refs_root. by right.
Qed.

(** The unresolved nodes that the walk of [prepare] meets: those below the
    root that are not below another one. *)
Fixpoint replaced (st : Store) (t : rtree) : list rtree :=
  match t with
  | RNode _ ks =>
    flat_map (fun k => if is_unresolved st (root k) then [k] else replaced st k) ks
  end.

(** The root and the nodes that are neither unresolved nor below an
    unresolved node. *)
Fixpoint kept (st : Store) (t : rtree) : list ref :=
  match t with
  | RNode r ks =>
    r :: flat_map (fun k => if is_unresolved st (root k) then [] else kept st k) ks
  end.

Lemma kept_in_refs st t x : In x (kept st t) -> In x (refs t).
Proof.
  induction t as [r ks IH] using rtree_forall_ind. intros [<-|Hx]; [by left|].
  right. apply in_flat_map in Hx as (k & Hk & Hx). apply in_flat_map. exists k.
  split; [done|]. destruct (is_unresolved st (root k)); [done|].
  rewrite Forall_forall in IH. by apply IH; [apply list_elem_of_In|].
Qed.

Lemma replaced_in_refs st t k x :
  In k (replaced st t) -> In x (refs k) -> In x (desc t).
Proof.
  induction t as [r ks IH] using rtree_forall_ind. intros Hk Hx.
  apply in_flat_map in Hk as (c & Hc & Hk). apply in_flat_map. exists c.
  split; [done|]. destruct (is_unresolved st (root c)).
  - destruct Hk as [<-|[]]. done.
  - rewrite Forall_forall in IH. rewrite refs_root. right.
    apply (IH c); [by apply list_elem_of_In|done|done].
Qed.

Lemma NoDup_flat_map_same ks c c' x :
  NoDup (flat_map refs ks) -> In c ks -> In c' ks ->
  In x (refs c) -> In x (refs c') -> c = c'.
Proof.
  induction ks as [|k ks IH]; [done|]. cbn [flat_map].
  intros (Hk & Hdis & Hks)%NoDup_app [<-|Hc] [<-|Hc'] Hx Hx'; try done.
  - exfalso. apply (Hdis x); [by apply list_elem_of_In|].
    apply list_elem_of_In, in_flat_map. eauto.
  - exfalso. apply (Hdis x); [by apply list_elem_of_In|].
    apply list_elem_of_In, in_flat_map. eauto.
  - by apply IH.
Qed.

Lemma replaced_not_kept st t k x :
  NoDup (refs t) -> In k (replaced st t) -> In x (refs k) -> ~ In x (kept st t).
Proof.
  induction t as [r ks IH] using rtree_forall_ind. intros Hnd Hk Hx Hkept.
  cbn [refs] in Hnd. apply NoDup_cons in Hnd as [Hr Hnd].
  rewrite list_elem_of_In in Hr.
  pose proof (replaced_in_refs st (RNode r ks) k x Hk Hx) as Hdesc.
  destruct Hkept as [<-|Hkept]; [done|].
  apply in_flat_map in Hk as (c & Hc & Hk).
  apply in_flat_map in Hkept as (c' & Hc' & Hkept).
  destruct (is_unresolved st (root c')) eqn:Hun'; [done|].
  assert (Hxc : In x (refs c)).
  { destruct (is_unresolved st (root c)).
    - by destruct Hk as [<-|[]].
    - rewrite refs_root. right. by eapply replaced_in_refs. }
  assert (c = c') as ->.
  { eapply NoDup_flat_map_same; eauto using kept_in_refs. }
  rewrite Hun' in Hk. rewrite Forall_forall in IH.
  eapply (IH c'); eauto using NoDup_flat_map_in. by apply list_elem_of_In.
Qed.

Lemma expanded_refs st st' amount :
  (forall t t', expanded st st' amount t t' ->
     forall x, In x (refs t') -> In x (kept st t) \/ next_ref st <= x)
  /\ (forall ks ks', expanded_kids st st' amount ks ks' ->
     forall x, In x (flat_map refs ks') ->
       In x (flat_map (fun k => if is_unresolved st (root k) then []
                                else kept st k) ks)
       \/ next_ref st <= x).
Proof.
  apply (expanded_mutind st st' amount
    (fun t t' _ => forall x, In x (refs t') -> In x (kept st t) \/ next_ref st <= x)
    (fun ks ks' _ => forall x, In x (flat_map refs ks') ->
       In x (flat_map (fun k => if is_unresolved st (root k) then []
                                else kept st k) ks)
       \/ next_ref st <= x)).
  - intros r ks ks' _ _ IH x [<-|Hx]; [left; by left|].
    destruct (IH x Hx) as [Hin|Hfresh]; [|by right]. left. by right.
  - by intros x [].
  - intros k k' ks ks' Hun _ IHk _ IHks x [Hx|Hx]%in_app_or.
    + destruct (IHk x Hx) as [Hin|Hfresh]; [|by right].
      left. cbn [flat_map]. rewrite Hun. apply in_or_app. by left.
    + destruct (IHks x Hx) as [Hin|Hfresh]; [|by right].
      left. cbn [flat_map]. apply in_or_app. by right.
  - intros k clones ks ks' Hun [_ Hclones] _ IHks x Hx.
    rewrite flat_map_app in Hx. apply in_app_or in Hx as [Hx|Hx].
    + right. apply in_flat_map in Hx as (c & Hc & Hx).
      apply list_elem_of_In, list_elem_of_lookup_1 in Hc as [i Hi].
      by apply (Hclones i c Hi).
    + destruct (IHks x Hx) as [Hin|Hfresh]; [|by right].
      left. cbn [flat_map]. apply in_or_app. by right.
Qed.




Lemma expanded_root st st' amount t t' : expanded st st' amount t t' -> root t' = root t.
Proof. by intros []. Qed.


(** Example: a node with an unresolved node inside another one, and a
    tree that is one unresolved node. *)
Definition nested_abbreviation : dtree :=
  DNode (mkData "" None [] None)
    [DNode (mkData "ul" None [] (Some (mkRepeat None false 0 0)))
       [DNode (mkData "li" None [] (Some (mkRepeat None false 0 0))) []]].

Definition unresolved_root : dtree :=
  DNode (mkData "li" None [] (Some (mkRepeat None false 0 0))) [].

(** * The claims *)

(** C4.  Link heuristic.  On a node that is anchor-like (its name is
    [a] in any case, or it has an [href] attribute) and whose value has
    no unescaped caret, [setNodeContent] with the content [example.com]
    sets [href] to [http://example.com] and the value to the content; with
    [user@example.com] it sets [href] to [mailto:user@example.com]; with a
    content that matches neither the URL nor the e-mail pattern it leaves
    the attributes as they are and still sets the value. *)
Theorem setNodeContent_link (st : Store) (node : ref) (o : Node) :
  cells st !! node = Some o ->
  (forall v, value o = Some v -> ranges_length (findUnescapedTokens v caret) = 0) ->
  anchor_like o = true ->
  setNodeContent node (Some "example.com") st
  = Ok tt (put node
             (with_value (Some "example.com")
                (with_attributes
                   (set_attribute (attributes o) "href" (Some "http://example.com"))
                   o)) st)
  /\ setNodeContent node (Some "user@example.com") st
     = Ok tt (put node
                (with_value (Some "user@example.com")
                   (with_attributes
                      (set_attribute (attributes o) "href"
                         (Some "mailto:user@example.com")) o)) st)
  /\ forall content,
       test reUrl content = false -> test reEmail content = false ->
       setNodeContent node content st = Ok tt (put node (with_value content o) st).
Proof.
  intros Hr Hcaret Ha.
  repeat split; [| |intros content Hurl Hmail];
    rewrite (setNodeContent_run _ _ _ _ Hr); unfold content_set, with_href;
    rewrite (replace_caret_none _ _ Hcaret), Ha.
  - reflexivity.
  - reflexivity.
  - by rewrite Hurl, Hmail.
Qed.

Definition link_node : Node :=
  mkNode "A" (Some "\|") [mkAttribute "class" (Some "x")] [] None None.

Lemma setNodeContent_link_witness :
  setNodeContent 0 (Some "example.com") (put 0 link_node empty_store)
  = Ok tt (put 0
             (with_value (Some "example.com")
                (with_attributes
                   (set_attribute (attributes link_node) "href"
                      (Some "http://example.com")) link_node))
             (put 0 link_node empty_store))
  /\ setNodeContent 0 (Some "user@example.com") (put 0 link_node empty_store)
     = Ok tt (put 0
                (with_value (Some "user@example.com")
                   (with_attributes
                      (set_attribute (attributes link_node) "href"
                         (Some "mailto:user@example.com")) link_node))
                (put 0 link_node empty_store))
  /\ forall content,
       test reUrl content = false -> test reEmail content = false ->
       setNodeContent 0 content (put 0 link_node empty_store)
       = Ok tt (put 0 (with_value content link_node) (put 0 link_node empty_store)).
Proof.
  apply (setNodeContent_link (put 0 link_node empty_store) 0 link_node).
  - reflexivity.
  - intros v Hv. injection Hv as <-. reflexivity.
  - reflexivity.
Defined.

(** C10.  Caret substitution.  On a node whose value is not empty and has
    an unescaped caret, [setNodeContent] puts the content at the carets
    and returns: only the value changes, whatever the name, the attributes
    and the content are, and the content stands at every unescaped caret
    of the value, not at the first one only. *)
Theorem setNodeContent_caret (st : Store) (node : ref) (o : Node) (v : string)
    (content : option string) :
  cells st !! node = Some o ->
  value o = Some v ->
  v <> "" ->
  0 < ranges_length (findUnescapedTokens v caret) ->
  setNodeContent node content st
  = Ok tt (put node
             (with_value
                (Some (replaceRanges v (findUnescapedTokens v caret) content)) o)
             st)
  /\ forall pre post,
       v = pre +:+ caret +:+ post -> ends_with_escape pre = false ->
       replaceRanges v (findUnescapedTokens v caret) content
       = replaceRanges pre (findUnescapedTokens pre caret) content
           +:+ to_js_string content
           +:+ replaceRanges post (findUnescapedTokens post caret) content.
Proof.
  intros Hr Hv Hne Hfound. split.
  - rewrite (setNodeContent_run _ _ _ _ Hr). unfold content_set, replace_caret.
    rewrite Hv. apply Nat.ltb_lt in Hfound. rewrite Hfound.
    by destruct v.
  - intros pre post -> Hpre. rewrite !replaceRanges_caret.
    by apply (substitute_caret_at _ _ (String.length pre)).
Qed.

Definition caret_node : Node :=
  mkNode "a" (Some "|x\||") [mkAttribute "href" (Some "#")] [] None None.

Lemma setNodeContent_caret_witness :
  setNodeContent 0 (Some "example.com") (put 0 caret_node empty_store)
  = Ok tt (put 0 (with_value (Some "example.comx|example.com") caret_node)
             (put 0 caret_node empty_store)).
Proof.
  apply (setNodeContent_caret (put 0 caret_node empty_store) 0 caret_node
           "|x\||" (Some "example.com")).
  - reflexivity.
  - reflexivity.
  - discriminate.
  - vm_compute. lia.
Defined.



(** C6.  [insert(tree, [])] and [insert(tree, "")] return the tree and
    leave the store as it is. *)
Theorem insert_empty_content (fuel : nat) (tree : ref) (st : Store) :
  insert fuel tree (CArray []) st = Ok tree st
  /\ insert fuel tree (CString "") st = Ok tree st.
Proof. split; reflexivity. Qed.

(** C7 as stated fails: an array of two items is not a string, and it is
    not made into a list of one element. *)
Lemma normalize_content_keeps_array :
  ~ (forall c, (forall s, c <> CString s) ->
       exists x, normalize_content c = CArray [x]).
Proof.
  intros H. destruct (H (CArray ["a"; "b"])) as [x Hx]; [done|].
  discriminate Hx.
Qed.

(** C7, as the code has it.  A content that is a string is made into a
    list of that one string; an array is taken as it is; with any other
    content the entry point returns the tree and changes nothing. *)
Theorem default_export_normalizes (fuel : nat) (tree : ref) (st : Store) :
  (forall s, normalize_content (CString s) = CArray [s]
             /\ default_export fuel tree (CString s) st
                = default_export fuel tree (CArray [s]) st)
  /\ (forall items, normalize_content (CArray items) = CArray items)
  /\ default_export fuel tree COther st = Ok tree st.
Proof. repeat split. Qed.

(** C9.  [insert] creates no node and removes none: it returns the tree,
    and in the store it leaves, the objects are those of before, each with
    the same children and the same parent (and the same name and repeat
    state), so the tree has the shape it had. *)
Theorem insert_keeps_nodes (fuel : nat) (p : option ref) (t : rtree)
    (c : content) (st : Store) :
  shape st p t -> NoDup (refs t) -> size t <= S fuel ->
  exists st', insert fuel (root t) c st = Ok (root t) st'
              /\ links_eq st st' /\ shape st' p t.
Proof.
  intros Hs Hnd Hfuel.
  destruct (insert_links fuel p t c st) as (st' & Hrun & Heq); try done.
  exists st'. split; [done|]. split; [done|]. by eapply shape_links_eq.
Qed.

Lemma insert_keeps_nodes_witness :
  exists st', insert 10 0 (CArray ["x"; "y"]) prepared_store = Ok 0 st'
              /\ links_eq prepared_store st' /\ shape st' None prepared_tree.
Proof.
  apply (insert_keeps_nodes 10 None prepared_tree (CArray ["x"; "y"]) prepared_store).
  - shape_by_computation.
  - nodup_by_computation.
  - vm_compute. lia.
Defined.







(** C1, as the code has it.  Let the store hold a tree and let the amount
    be at least 1.  [prepare] returns the tree; every unresolved node that
    lies below the root, and not below another unresolved node, is
    replaced where it stood by [amount] clones in ascending order, clone
    number [i] being a deep copy of the node as it was with the repeat
    state [{implicit: true, count: amount, value: i+1, index: i}], made of
    new objects; and neither the node nor anything below it is in the tree
    any more.  (The relation [expanded] says this node by node.) *)
Theorem prepare_replaces_unresolved (fuel : nat) (p : option ref) (t : rtree)
    (amount : nat) (st : Store) :
  shape st p t -> NoDup (refs t) -> store_ok st -> size t <= S fuel ->
  1 <= amount ->
  exists st' t',
    prepare fuel (root t) amount st = Ok (root t) st'
    /\ shape st' p t' /\ NoDup (refs t')
    /\ expanded st st' amount t t'
    /\ forall k x, In k (replaced st t) -> In x (refs k) -> ~ In x (refs t').
Proof.
  intros Hs Hnd Hok Hfuel Hamount.
  destruct (prepare_run fuel p t amount st Hs Hnd Hok Hfuel)
    as (st' & t' & Hrun & Hs' & Hnd' & Hexp & Hok' & Hbound).
  replace (if amount =? 0 then 1 else amount) with amount in Hexp
    by (by destruct amount; [lia|]).
  exists st', t'. repeat (split; [done|]).
  intros k x Hk Hx Hin.
  destruct (proj1 (expanded_refs st st' amount) t t' Hexp x Hin) as [Hkept|Hfresh].
  - by apply (replaced_not_kept st t k x).
  - assert (x < next_ref st); [|lia].
    eapply shape_refs_lt; [done|exact Hs|].
    rewrite refs_root. right. by eapply replaced_in_refs.
Qed.

Lemma prepare_replaces_unresolved_witness :
  exists st' t',
    prepare 10 0 2 example_store = Ok 0 st'
    /\ shape st' None t' /\ NoDup (refs t')
    /\ expanded example_store st' 2 example_tree t'
    /\ forall k x, In k (replaced example_store example_tree) ->
         In x (refs k) -> ~ In x (refs t').
Proof.
  apply (prepare_replaces_unresolved 10 None example_tree 2 example_store).
  - shape_by_computation.
  - nodup_by_computation.
  - store_ok_by_computation.
  - vm_compute. lia.
  - lia.
Defined.

(** C1 as stated fails in two places.  A tree that is one unresolved node:
    [prepare] leaves it as it is, the node is still there and unresolved.
    An unresolved [li] inside an unresolved [ul]: the [ul] is replaced by
    two clones, and the [li] inside each clone is a copy that is still
    unresolved, not two clones with a repeat state. *)
Lemma prepare_misses_root_and_nested :
  (let st := store_of (build unresolved_root) in
   prepare 5 0 2 st = Ok 0 st /\ is_unresolved st 0 = true)
  /\ (let st := store_of (build nested_abbreviation) in
      exists st',
        prepare 10 0 2 st = Ok 0 st'
        /\ snapshot 10 st' 0
           = Some (DNode (mkData "" None [] None)
                     [DNode (mkData "ul" None [] (Some (resolved_repeat 2 0)))
                        [DNode (mkData "li" None []
                                  (Some (mkRepeat None false 0 0))) []];
                      DNode (mkData "ul" None [] (Some (resolved_repeat 2 1)))
                        [DNode (mkData "li" None []
                                  (Some (mkRepeat None false 0 0))) []]])).
Proof.
  split.
  - split; vm_compute; reflexivity.
  - eexists. split; vm_compute; reflexivity.
Qed.




(** * Further properties of the code *)

(** ** [findDeepestNode] *)

Lemma deepest_childless st p t :
  shape st p t -> exists o, cells st !! deepest t = Some o /\ children o = [].
Proof.
  revert p. induction t as [r ks IH] using rtree_forall_ind. intros p Hs.
  destruct (shape_inv _ _ _ Hs) as (o & Hr & _ & Hc & Hks). cbn [root kids] in *.
  rewrite deepest_last. destruct (last ks) as [k|] eqn:Hlast.
  - apply last_in, list_elem_of_In in Hlast.
    rewrite Forall_forall in IH, Hks. by eapply IH, Hks.
  - apply last_None in Hlast. subst ks. by exists o.
Qed.

(** X1.  [findDeepestNode] returns a node of the tree it is given that has
    no children, and leaves the store as it is; it is the node itself when
    the node has no children. *)
Theorem findDeepestNode_childless (fuel : nat) (p : option ref) (t : rtree)
    (st : Store) :
  shape st p t -> size t <= S fuel ->
  exists d o,
    findDeepestNode fuel (root t) st = Ok d st
    /\ In d (refs t)
    /\ cells st !! d = Some o /\ children o = []
    /\ (forall o0, cells st !! root t = Some o0 -> children o0 = [] -> d = root t).
Proof.
  intros Hs Hfuel. destruct (deepest_childless _ _ _ Hs) as (o & Hd & Hc).
  exists (deepest t), o. split; [by eapply findDeepestNode_run|].
  split; [apply deepest_in_refs|]. split; [done|]. split; [done|].
  intros o0 Hr0 Hc0. destruct (shape_inv _ _ _ Hs) as (o1 & Hr1 & _ & Hc1 & _).
  assert (o1 = o0) as -> by congruence. rewrite Hc0 in Hc1.
  destruct t as [r [|k ks]]; [done|discriminate].
Qed.

Lemma findDeepestNode_childless_witness :
  exists d o,
    findDeepestNode 10 0 prepared_store = Ok d prepared_store
    /\ In d (refs prepared_tree)
    /\ cells prepared_store !! d = Some o /\ children o = []
    /\ (forall o0, cells prepared_store !! 0 = Some o0 -> children o0 = [] -> d = 0).
Proof.
  apply (findDeepestNode_childless 10 None prepared_tree prepared_store).
  - shape_by_computation.
  - vm_compute. lia.
Defined.

(** ** [prepare] on a tree without unresolved nodes *)

Lemma prepare_node_steady fuel amount st cs :
  (forall x, In x cs -> is_Some (cells st !! x)) ->
  (forall x, In x cs -> is_unresolved st x = false) ->
  forall c a st', In c cs -> links_eq st st' ->
    prepare_node fuel amount c a st' = Ok a st'.
Proof.
  intros Hpres Hnone c [] st' Hc Heq.
  destruct (Hpres c Hc) as [o Ho].
  destruct (links_eq_lookup _ _ _ _ Heq Ho) as (o' & Ho' & _ & _ & _ & Hrep).
  apply (prepare_node_resolved _ _ _ o'); [done|].
  specialize (Hnone c Hc). unfold is_unresolved in Hnone. rewrite Ho in Hnone.
  unfold unresolved in *. by rewrite Hrep.
Qed.

Lemma prepare_skip fuel p t amount st :
  shape st p t -> NoDup (refs t) -> size t <= S fuel ->
  (forall x, In x (desc t) -> is_unresolved st x = false) ->
  prepare fuel (root t) amount st = Ok (root t) st.
Proof.
  intros Hs Hnd Hfuel Hnone.
  assert (Hpres : forall x, In x (desc t) -> is_Some (cells st !! x)).
  { intros x Hx. eapply shape_present; [done|]. rewrite refs_root. by right. }
  unfold prepare. rewrite bind_run, (walk_fold _ fuel p t); [|done|done| |done].
  - rewrite fold_each_id; [done|]. intros x [] Hx.
    eapply prepare_node_steady; eauto using links_eq_refl.
  - intros c a st' Hc Heq. exists a, st'. split; [|apply links_eq_refl].
    eapply prepare_node_steady; eauto.
Qed.

(** X2.  When no node below the root of the tree is unresolved, [prepare]
    returns the tree and changes nothing, whatever the amount is: no node
    is cloned, moved or removed. *)
Theorem prepare_without_unresolved (fuel : nat) (p : option ref) (t : rtree)
    (amount : nat) (st : Store) :
  shape st p t -> NoDup (refs t) -> size t <= S fuel ->
  (forall x, In x (desc t) -> is_unresolved st x = false) ->
  prepare fuel (root t) amount st = Ok (root t) st.
Proof. apply prepare_skip. Qed.

Lemma prepare_without_unresolved_witness :
  prepare 10 0 3 prepared_store = Ok 0 prepared_store.
Proof.
  apply (prepare_without_unresolved 10 None prepared_tree 3 prepared_store).
  - shape_by_computation.
  - nodup_by_computation.
  - vm_compute. lia.
  - intros x Hx. vm_compute in Hx.
    destruct Hx as [<-|[<-|[<-|[<-|[<-|[]]]]]]; reflexivity.
Defined.

(** ** The entry point on a tree without repeated nodes *)







(** ** What [setNodeContent] leaves alone *)

Lemma get_set_attribute_ne attrs n m v :
  n <> m -> get_attribute (set_attribute attrs n v) m = get_attribute attrs m.
Proof.
  intros Hne. unfold get_attribute.
  induction attrs as [|a attrs IH]; cbn [set_attribute find].
  - cbn. destruct (String.eqb_spec n m); [done|done].
  - destruct (String.eqb_spec (attr_name a) n) as [Ha|Ha]; cbn [find attr_name].
    + destruct (String.eqb_spec n m); [done|].
      destruct (String.eqb_spec (attr_name a) m); [congruence|done].
    + by rewrite IH.
Qed.

Lemma with_href_attribute content o n :
  n <> "href"%string ->
  get_attribute (attributes (with_href content o)) n = get_attribute (attributes o) n.
Proof.
  intros Hn. unfold with_href.
  destruct (anchor_like o); [|done].
  destruct (test reUrl content).
  { cbn [attributes with_attributes]. apply get_set_attribute_ne. congruence. }
  destruct (test reEmail content); [|done].
  cbn [attributes with_attributes]. apply get_set_attribute_ne. congruence.
Qed.

(** X4.  [setNodeContent] changes one object only, the node it is given,
    and of that node only the value and the attribute [href]: the name, the
    children, the parent, the repeat state and every attribute of another
    name are as before; a node that is not anchor-like keeps all its
    attributes. *)
Theorem setNodeContent_frame (st : Store) (node : ref) (o : Node)
    (content : option string) :
  cells st !! node = Some o ->
  exists o',
    setNodeContent node content st = Ok tt (put node o' st)
    /\ name o' = name o /\ children o' = children o
    /\ parent o' = parent o /\ repeat o' = repeat o
    /\ (forall n, n <> "href"%string ->
          get_attribute (attributes o') n = get_attribute (attributes o) n)
    /\ (anchor_like o = false -> attributes o' = attributes o).
Proof.
  intros Hr. exists (content_set content o).
  split; [by apply setNodeContent_run|].
  destruct (content_set_links content o) as (Hc & Hp & Hn & Hrep).
  split; [done|]. split; [done|]. split; [done|]. split; [done|].
  unfold content_set. split.
  - intros n Hn'. destruct (replace_caret _ _); [done|].
    cbn [attributes with_value]. by apply with_href_attribute.
  - intros Ha. destruct (replace_caret _ _); [done|].
    unfold with_href. by rewrite Ha.
Qed.

Lemma setNodeContent_frame_witness :
  exists o',
    setNodeContent 0 (Some "example.com") (put 0 link_node empty_store)
    = Ok tt (put 0 o' (put 0 link_node empty_store))
    /\ name o' = name link_node /\ children o' = children link_node
    /\ parent o' = parent link_node /\ repeat o' = repeat link_node
    /\ (forall n, n <> "href"%string ->
          get_attribute (attributes o') n = get_attribute (attributes link_node) n)
    /\ (anchor_like link_node = false -> attributes o' = attributes link_node).
Proof.
  apply (setNodeContent_frame (put 0 link_node empty_store) 0 link_node
           (Some "example.com")).
  reflexivity.
Defined.

(** ** The three patterns *)

(** Every character class of [r] lies within [P]. *)
Fixpoint uses (P : ascii -> bool) (r : regex) : Prop :=
  match r with
  | Void | Eps => True
  | Class p => forall c, p c = true -> P c = true
  | Cat r1 r2 | Alt r1 r2 => uses P r1 /\ uses P r2
  | Star r1 => uses P r1
  end.

(** Every word of [r] has the character [c]. *)
Fixpoint needs (c : ascii) (r : regex) : Prop :=
  match r with
  | Void => True
  | Eps => False
  | Class p => forall a, p a = true -> a = c
  | Cat r1 r2 => needs c r1 \/ needs c r2
  | Alt r1 r2 => needs c r1 /\ needs c r2
  | Star _ => False
  end.

Lemma matches_void s : matches Void s = false.
Proof. induction s as [|a s IH]; [done|]. exact IH. Qed.

Lemma matches_app r s1 s2 :
  matches r (s1 +:+ s2)
  = matches (fold_left (fun r c => deriv c r) (list_ascii_of_string s1) r) s2.
Proof. revert r. induction s1 as [|a s1 IH]; intros r; [done|]. apply IH. Qed.

Lemma matches_any s : matches (Star (Class (fun _ => true))) s = true.
Proof. induction s as [|a s IH]; [done|]. exact IH. Qed.

Lemma uses_cat P r1 r2 : uses P r1 -> uses P r2 -> uses P (cat r1 r2).
Proof. destruct r1, r2; cbn; tauto. Qed.

Lemma uses_alt P r1 r2 : uses P r1 -> uses P r2 -> uses P (alt r1 r2).
Proof. destruct r1, r2; cbn; tauto. Qed.

Lemma uses_deriv P c r : uses P r -> uses P (deriv c r).
Proof.
  induction r as [| |p|r1 IH1 r2 IH2|r1 IH1 r2 IH2|r1 IH1]; cbn [deriv uses].
  - done.
  - done.
  - intros _. by destruct (p c).
  - intros [H1 H2]. destruct (nullable r1).
    + apply uses_alt; [apply uses_cat|]; auto.
    + apply uses_cat; auto.
  - intros [H1 H2]. apply uses_alt; auto.
  - intros H. apply uses_cat; auto.
Qed.

Lemma deriv_outside P c r : uses P r -> P c = false -> deriv c r = Void.
Proof.
  intros Hr Hc.
  induction r as [| |p|r1 IH1 r2 IH2|r1 IH1 r2 IH2|r1 IH1]; cbn [deriv uses] in *.
  - done.
  - done.
  - destruct (p c) eqn:Hp; [|done]. rewrite (Hr c Hp) in Hc. done.
  - destruct Hr as [H1 H2]. rewrite IH1, IH2 by done. by destruct (nullable r1).
  - destruct Hr as [H1 H2]. by rewrite IH1, IH2.
  - by rewrite IH1.
Qed.

(** A word of [r] is made of characters of its classes. *)
Lemma matches_uses P r s :
  uses P r -> matches r s = true ->
  forall c, In c (list_ascii_of_string s) -> P c = true.
Proof.
  revert r. induction s as [|a s IH]; intros r Hr Hm c Hc; [done|].
  cbn [matches list_ascii_of_string] in *.
  destruct (P a) eqn:Ha.
  - destruct Hc as [<-|Hc]; [done|]. eapply IH; [|exact Hm|done]. by apply uses_deriv.
  - rewrite (deriv_outside P a r Hr Ha), matches_void in Hm. done.
Qed.

Lemma needs_not_nullable c r : needs c r -> nullable r = false.
Proof.
  induction r as [| |p|r1 IH1 r2 IH2|r1 IH1 r2 IH2|r1 IH1]; cbn [needs nullable];
    try done.
  - intros [H|H]; [by rewrite IH1|by rewrite IH2, andb_false_r].
  - intros [H1 H2]. by rewrite IH1, IH2.
Qed.

Lemma needs_cat c r1 r2 : needs c r1 \/ needs c r2 -> needs c (cat r1 r2).
Proof. destruct r1, r2; cbn; tauto. Qed.

Lemma needs_alt c r1 r2 : needs c r1 -> needs c r2 -> needs c (alt r1 r2).
Proof. destruct r1, r2; cbn; tauto. Qed.

Lemma needs_deriv c a r : a <> c -> needs c r -> needs c (deriv a r).
Proof.
  intros Hne.
  induction r as [| |p|r1 IH1 r2 IH2|r1 IH1 r2 IH2|r1 IH1]; cbn [deriv needs].
  - done.
  - done.
  - intros H. destruct (p a) eqn:Hp; [|done]. by specialize (H a Hp).
  - intros H. destruct (nullable r1) eqn:Hn.
    + destruct H as [H|H]; [by rewrite (needs_not_nullable _ _ H) in Hn|].
      apply needs_alt; [apply needs_cat; by right|by apply IH2].
    + apply needs_cat. destruct H as [H|H]; [left; by apply IH1|by right].
  - intros [H1 H2]. apply needs_alt; auto.
  - done.
Qed.

Lemma matches_needs c r s :
  needs c r -> matches r s = true -> In c (list_ascii_of_string s).
Proof.
  revert r. induction s as [|a s IH]; intros r Hr Hm; cbn [matches] in Hm.
  - by rewrite (needs_not_nullable c r Hr) in Hm.
  - cbn [list_ascii_of_string]. destruct (ascii_dec a c) as [->|Hne]; [by left|].
    right. eapply IH; [|exact Hm]. by apply needs_deriv.
Qed.

Ltac class_without c :=
  let a := fresh "a" in let Ha := fresh "Ha" in
  intros a Ha; destruct (Ascii.eqb_spec a c) as [->|_];
    [vm_compute in Ha; discriminate|reflexivity].

(** No word of [reUrl] has the character [@]; every word of [reEmail]
    has. *)
Lemma reUrl_without_at : uses (fun a => negb (Ascii.eqb a "@")) reUrl.
Proof.
  cbn.
  repeat match goal with
         | |- _ /\ _ => split
         | |- True => exact I
         | |- forall _, _ => class_without "@"%char
         end.
Qed.

Lemma reEmail_with_at : needs "@" reEmail.
Proof. cbn. right. left. intros a Ha. symmetry. by apply Ascii.eqb_eq. Qed.

Lemma url_is_no_email content :
  test reUrl content = true -> test reEmail content = false.
Proof.
  unfold test. intros Hurl. destruct (matches reEmail _) eqn:Hmail; [|done].
  pose proof (matches_needs _ _ _ reEmail_with_at Hmail) as Hin.
  pose proof (matches_uses _ _ _ reUrl_without_at Hurl _ Hin) as Hout.
  done.
Qed.

Lemma reProto_after_http s : matches reProto ("http://" +:+ s) = true.
Proof.
  rewrite matches_app.
  replace (fold_left (fun r c => deriv c r) (list_ascii_of_string "http://") reProto)
    with (Star (Class (fun _ => true))) by (vm_compute; reflexivity).
  apply matches_any.
Qed.

(** X5.  Content that matches the URL pattern [reUrl], set on an
    anchor-like node whose value has no unescaped caret: the attribute
    [href] is set to the content itself when the protocol pattern [reProto]
    matches the content, and to the content after [http://] when it does
    not, so that [reProto] always matches the [href] written; the value is
    the content. *)
Theorem setNodeContent_url (st : Store) (node : ref) (o : Node)
    (content : option string) :
  cells st !! node = Some o ->
  (forall v, value o = Some v -> ranges_length (findUnescapedTokens v caret) = 0) ->
  anchor_like o = true ->
  test reUrl content = true ->
  exists href,
    setNodeContent node content st
    = Ok tt (put node
               (with_value content
                  (with_attributes (set_attribute (attributes o) "href" (Some href)) o))
               st)
    /\ href = (if test reProto content then to_js_string content
               else "http://" +:+ to_js_string content)
    /\ test reProto (Some href) = true.
Proof.
  intros Hr Hcaret Ha Hurl.
  rewrite (setNodeContent_run _ _ _ _ Hr). unfold content_set, with_href.
  rewrite (replace_caret_none _ _ Hcaret), Ha, Hurl.
  destruct (test reProto content) eqn:Hproto.
  - exists (to_js_string content). by rewrite append_empty_l.
  - eexists. split; [done|]. split; [done|]. apply reProto_after_http.
Qed.

Definition ftp_node : Node :=
  mkNode "span" None [mkAttribute "href" (Some "#")] [] None None.

Lemma setNodeContent_url_witness :
  exists href,
    setNodeContent 0 (Some "ftp://example.org/pub") (put 0 ftp_node empty_store)
    = Ok tt (put 0
               (with_value (Some "ftp://example.org/pub")
                  (with_attributes
                     (set_attribute (attributes ftp_node) "href" (Some href)) ftp_node))
               (put 0 ftp_node empty_store))
    /\ href = (if test reProto (Some "ftp://example.org/pub")
               then to_js_string (Some "ftp://example.org/pub")
               else "http://" +:+ to_js_string (Some "ftp://example.org/pub"))
    /\ test reProto (Some href) = true.
Proof.
  apply (setNodeContent_url (put 0 ftp_node empty_store) 0 ftp_node
           (Some "ftp://example.org/pub")).
  - reflexivity.
  - intros v Hv. discriminate Hv.
  - reflexivity.
  - vm_compute. reflexivity.
Defined.

(** X6.  Content that matches the e-mail pattern, set on an anchor-like
    node whose value has no unescaped caret: the attribute [href] is set to
    [mailto:] and the content, and the value to the content.  The URL
    pattern, which the code tries first, matches no e-mail address. *)
Theorem setNodeContent_email (st : Store) (node : ref) (o : Node)
    (content : option string) :
  cells st !! node = Some o ->
  (forall v, value o = Some v -> ranges_length (findUnescapedTokens v caret) = 0) ->
  anchor_like o = true ->
  test reEmail content = true ->
  test reUrl content = false
  /\ setNodeContent node content st
     = Ok tt (put node
                (with_value content
                   (with_attributes
                      (set_attribute (attributes o) "href"
                         (Some ("mailto:" +:+ to_js_string content))) o))
                st).
Proof.
  intros Hr Hcaret Ha Hmail.
  assert (Hurl : test reUrl content = false).
  { destruct (test reUrl content) eqn:Hurl; [|done].
    by rewrite (url_is_no_email _ Hurl) in Hmail. }
  split; [done|].
  rewrite (setNodeContent_run _ _ _ _ Hr). unfold content_set, with_href.
  by rewrite (replace_caret_none _ _ Hcaret), Ha, Hurl, Hmail.
Qed.

Lemma setNodeContent_email_witness :
  test reUrl (Some "info@mail.example.org") = false
  /\ setNodeContent 0 (Some "info@mail.example.org") (put 0 link_node empty_store)
     = Ok tt (put 0
                (with_value (Some "info@mail.example.org")
                   (with_attributes
                      (set_attribute (attributes link_node) "href"
                         (Some ("mailto:" +:+ to_js_string (Some "info@mail.example.org"))))
                      link_node))
                (put 0 link_node empty_store)).
Proof.
  apply (setNodeContent_email (put 0 link_node empty_store) 0 link_node
           (Some "info@mail.example.org")).
  - reflexivity.
  - intros v Hv. injection Hv as <-. reflexivity.
  - reflexivity.
  - vm_compute. reflexivity.
Defined.

(** ** Which nodes are anchor-like *)

Lemma lower_char_a c : lower_char c = "a"%char <-> c = "a"%char \/ c = "A"%char.
Proof.
  destruct c as [[] [] [] [] [] [] [] []]; vm_compute;
    (split; [intros H; first [discriminate H | by left | by right]
            |intros [H|H]; first [discriminate H | reflexivity]]).
Qed.

Lemma toLowerCase_a s : toLowerCase s = "a"%string <-> s = "a"%string \/ s = "A"%string.
Proof.
  destruct s as [|c [|c' s]]; cbn [toLowerCase].
  - split; [done|by intros [|]].
  - split.
    + intros H. injection H as H. apply lower_char_a in H as [->| ->]; [by left|by right].
    + intros [H|H]; injection H as ->; reflexivity.
  - split; [done|by intros [|]].
Qed.

(** X7.  The link heuristic of [setNodeContent] is for the nodes named [a]
    or [A] and for the nodes that have an attribute [href], and for no
    other: the name is compared without regard to case, and no other name
    becomes [a] in lower case. *)
Theorem anchor_like_names (o : Node) :
  anchor_like o = true
  <-> name o = "a"%string \/ name o = "A"%string
      \/ has_attribute (attributes o) "href" = true.
Proof.
  unfold anchor_like. rewrite orb_true_iff, String.eqb_eq, toLowerCase_a. tauto.
Qed.

(** ** What [insertContentIntoPlaceholder] returns *)

Lemma fill_node_links content o : node_links_eq o (fill_node content o).
Proof. by repeat split. Qed.

(** X8.  On a node whose attributes have different names,
    [insertContentIntoPlaceholder] returns [true] exactly when the value or
    an attribute value that is not empty has an unescaped placeholder.  It
    changes the one node only: the value and every attribute value that is
    not empty are what [replacePlaceholder] makes of them, each attribute
    staying in its place under its name; and when it returns [false] the
    store is as it was. *)
Theorem insertContentIntoPlaceholder_found (st : Store) (node : ref) (o : Node)
    (content : option string) :
  cells st !! node = Some o ->
  NoDup (map attr_name (attributes o)) ->
  exists o',
    insertContentIntoPlaceholder node content st
    = Ok (has_placeholder (value o)
          || existsb (fun a => truthy (attr_value a) && has_placeholder (attr_value a))
               (attributes o))
         (put node o' st)
    /\ value o' = (replacePlaceholder (value o) content false).1
    /\ attributes o'
       = map (fun a => if truthy (attr_value a)
                       then mkAttribute (attr_name a)
                              (replacePlaceholder (attr_value a) content false).1
                       else a) (attributes o)
    /\ node_links_eq o o'
    /\ (node_has_placeholder o = false -> put node o' st = st).
Proof.
  intros Hr Hnd. exists (fill_node content o).
  split; [by apply insertContentIntoPlaceholder_run|].
  split; [done|]. split; [done|]. split; [apply fill_node_links|].
  intros Hnone. rewrite fill_node_same by done. by apply put_same.
Qed.

Definition titled_node : Node :=
  mkNode "li" (Some "\$#")
    [mkAttribute "title" (Some "t$#"); mkAttribute "class" (Some "")] [] None None.

Lemma insertContentIntoPlaceholder_found_witness :
  exists o',
    insertContentIntoPlaceholder 0 (Some "x") (put 0 titled_node empty_store)
    = Ok true (put 0 o' (put 0 titled_node empty_store))
    /\ value o' = Some "\$#"
    /\ attributes o' = [mkAttribute "title" (Some "tx"); mkAttribute "class" (Some "")]
    /\ node_links_eq titled_node o'
    /\ (node_has_placeholder titled_node = false ->
        put 0 o' (put 0 titled_node empty_store) = put 0 titled_node empty_store).
Proof.
  apply (insertContentIntoPlaceholder_found (put 0 titled_node empty_store) 0
           titled_node (Some "x")).
  - reflexivity.
  - nodup_by_computation.
Defined.

(** ** An index outside the content list *)

Lemma setNodeContent_undefined node o st :
  cells st !! node = Some o ->
  (forall v, value o = Some v -> ranges_length (findUnescapedTokens v caret) = 0) ->
  setNodeContent node None st = Ok tt (put node (with_value None o) st).
Proof.
  intros Hr Hcaret. rewrite (setNodeContent_run _ _ _ _ Hr).
  unfold content_set, with_href. rewrite (replace_caret_none _ _ Hcaret).
  replace (test reUrl None) with false by (vm_compute; reflexivity).
  replace (test reEmail None) with false by (vm_compute; reflexivity).
  by destruct (anchor_like o).
Qed.

(** X9.  The callback of [insert] on a node with the implicit flag whose
    index is not an index of the content list ([content[index]] is
    [undefined]), when no node of its subtree has an unescaped placeholder
    and the value of its deepest node has no unescaped caret: the deepest
    node loses its value, its attributes stay as they are even if it is
    anchor-like, nothing else changes, and the walk counts the node as
    updated. *)
Theorem insert_node_index_outside (fuel : nat) (pc : option ref) (tc : rtree)
    (items : list string) (o od : Node) (r : Repeat) (updated : bool)
    (st : Store) :
  shape st pc tc -> NoDup (refs tc) -> size tc <= S fuel ->
  unique_attribute_names st (refs tc) ->
  cells st !! root tc = Some o ->
  repeat o = Some r -> rep_implicit r = true ->
  length items <= rep_index r ->
  refs_have_placeholder st (refs tc) = false ->
  cells st !! deepest tc = Some od ->
  (forall v, value od = Some v -> ranges_length (findUnescapedTokens v caret) = 0) ->
  insert_node fuel items (root tc) updated st
  = Ok true (put (deepest tc) (with_value None od) st).
Proof.
  intros Hs Hnd Hfuel Huniq Hr Hrep Himp Hidx Hnone Hd Hcaret.
  unfold insert_node.
  rewrite (bind_ok _ _ _ _ _ (get_node_ok _ _ _ Hr)), Hrep, Himp.
  rewrite (lookup_ge_None_2 items (rep_index r)) by done.
  rewrite bind_run, (insertContent_run fuel pc tc) by done.
  rewrite Hnone, bind_run, (setNodeContent_undefined _ _ _ Hd Hcaret).
  by rewrite !ret_run.
Qed.

Lemma insert_node_index_outside_witness :
  insert_node 10 ["x"] 6 false
    (put 6 (mkNode "li" None [] [7] (Some 1) (Some (resolved_repeat 2 1)))
       prepared_store)
  = Ok true
      (put 7 (with_value None (mkNode "a" None [] [] (Some 6) None))
         (put 6 (mkNode "li" None [] [7] (Some 1) (Some (resolved_repeat 2 1)))
            prepared_store)).
Proof.
  apply (insert_node_index_outside 10 (Some 1) (RNode 6 [RNode 7 []]) ["x"]
           (mkNode "li" None [] [7] (Some 1) (Some (resolved_repeat 2 1)))
           (mkNode "a" None [] [] (Some 6) None) (resolved_repeat 2 1)).
  - shape_by_computation.
  - nodup_by_computation.
  - vm_compute. lia.
  - intros x ox Hx Hox. vm_compute in Hx.
    destruct Hx as [<-|[<-|[]]]; vm_compute in Hox; injection Hox as <-;
      nodup_by_computation.
  - reflexivity.
  - reflexivity.
  - reflexivity.
  - vm_compute. lia.
  - vm_compute. reflexivity.
  - vm_compute. reflexivity.
  - intros v Hv. discriminate Hv.
Defined.

(** ** The attributes that [insert] leaves *)

Lemma has_attribute_names attrs n :
  has_attribute attrs n = existsb (fun m => String.eqb m n) (map attr_name attrs).
Proof.
  unfold has_attribute. induction attrs as [|a attrs IH]; [done|].
  cbn [existsb map]. by rewrite IH.
Qed.

Lemma set_attribute_names attrs n v :
  map attr_name (set_attribute attrs n v)
  = if has_attribute attrs n then map attr_name attrs
    else map attr_name attrs ++ [n].
Proof.
  unfold has_attribute.
  induction attrs as [|a attrs IH]; cbn [set_attribute existsb map app]; [done|].
  destruct (String.eqb_spec (attr_name a) n) as [Ha|Ha]; cbn [orb map attr_name].
  - by rewrite Ha.
  - rewrite IH. by destruct (existsb _ attrs).
Qed.

Lemma has_attribute_lookup attrs i a :
  attrs !! i = Some a -> has_attribute attrs (attr_name a) = true.
Proof.
  intros Hi. apply existsb_exists. exists a.
  split; [|apply String.eqb_refl].
  apply list_elem_of_In. by eapply list_elem_of_lookup_2.
Qed.

(** The names of the attributes of [o'] are those of [o], in the same
    order, after which an anchor-like [o] without [href] may have got
    one. *)
Definition names_kept (o o' : Node) : Prop :=
  map attr_name (attributes o') = map attr_name (attributes o)
  \/ (anchor_like o = true /\ has_attribute (attributes o) "href" = false /\
      map attr_name (attributes o') = map attr_name (attributes o) ++ ["href"%string]).

Definition node_kept (o o' : Node) : Prop :=
  node_links_eq o o' /\ names_kept o o'.

Definition kept_eq (st st' : Store) : Prop :=
  next_ref st' = next_ref st /\
  forall r, option_Forall2 node_kept (cells st !! r) (cells st' !! r).

Lemma node_kept_refl o : node_kept o o.
Proof. split; [apply node_links_eq_refl|by left]. Qed.

Lemma anchor_like_names_eq o o' :
  name o' = name o ->
  map attr_name (attributes o') = map attr_name (attributes o) ->
  anchor_like o' = anchor_like o.
Proof.
  intros Hn Ha. unfold anchor_like. by rewrite Hn, !has_attribute_names, Ha.
Qed.

Lemma node_kept_trans o1 o2 o3 : node_kept o1 o2 -> node_kept o2 o3 -> node_kept o1 o3.
Proof.
  intros [Hl12 Hn12] [Hl23 Hn23].
  split; [by eapply node_links_eq_trans|].
  destruct Hl12 as (_ & _ & Hname & _).
  destruct Hn12 as [H12|(Ha1 & Hh1 & H12)], Hn23 as [H23|(Ha2 & Hh2 & H23)].
  - left. congruence.
  - right. rewrite (anchor_like_names_eq o1 o2) in Ha2 by done.
    rewrite has_attribute_names, H12, <- has_attribute_names in Hh2.
    split; [done|]. split; [done|]. congruence.
  - right. split; [done|]. split; [done|]. congruence.
  - rewrite has_attribute_names, H12, existsb_app in Hh2. cbn in Hh2.
    by rewrite orb_true_r in Hh2.
Qed.

Lemma kept_eq_links st st' : kept_eq st st' -> links_eq st st'.
Proof.
  intros [Hn H]. split; [done|]. intros r. specialize (H r).
  destruct H as [o o' [Hl _]|]; by constructor.
Qed.

Lemma kept_eq_refl st : kept_eq st st.
Proof.
  split; [done|]. intros r. destruct (cells st !! r); constructor.
  apply node_kept_refl.
Qed.

Lemma kept_eq_trans st1 st2 st3 : kept_eq st1 st2 -> kept_eq st2 st3 -> kept_eq st1 st3.
Proof.
  intros [Hn1 H1] [Hn2 H2]. split; [congruence|]. intros r.
  specialize (H1 r). specialize (H2 r).
  destruct H1 as [o1 o2 H12|]; inversion H2; subst; constructor.
  by eapply node_kept_trans.
Qed.

Lemma kept_eq_put st r o o' :
  cells st !! r = Some o -> node_kept o o' -> kept_eq st (put r o' st).
Proof.
  intros Hr Ho. split; [done|]. intros r'.
  destruct (decide (r = r')) as [<-|Hne].
  - rewrite put_lookup, Hr. by constructor.
  - rewrite put_lookup_ne by done.
    destruct (cells st !! r'); constructor. apply node_kept_refl.
Qed.

Lemma kept_eq_present st st' r :
  kept_eq st st' -> is_Some (cells st !! r) -> is_Some (cells st' !! r).
Proof. intros H. by apply links_eq_present, kept_eq_links. Qed.

Lemma placeholder_in_attribute_kept node content i replaced st :
  is_Some (cells st !! node) ->
  exists b st', placeholder_in_attribute node content i replaced st = Ok b st'
                /\ kept_eq st st'.
Proof.
  intros [o Hr]. unfold placeholder_in_attribute.
  rewrite (bind_ok _ _ _ _ _ (get_node_ok _ _ _ Hr)).
  destruct (attributes o !! i) as [attr|] eqn:Hi;
    [|eexists _, _; split; [done|apply kept_eq_refl]].
  destruct (truthy (attr_value attr)); [|eexists _, _; split; [done|apply kept_eq_refl]].
  destruct (replacePlaceholder _ _ _) as [v b].
  rewrite (bind_ok _ _ _ _ _ (setAttribute_run _ _ _ _ _ Hr)), ret_run.
  eexists _, _. split; [done|]. eapply kept_eq_put; [done|].
  split; [done|]. left. cbn [attributes with_attributes].
  by rewrite set_attribute_names, (has_attribute_lookup _ _ _ Hi).
Qed.

Lemma insertContentIntoPlaceholder_kept node content st :
  is_Some (cells st !! node) ->
  exists b st', insertContentIntoPlaceholder node content st = Ok b st'
                /\ kept_eq st st'.
Proof.
  intros [o Hr]. unfold insertContentIntoPlaceholder.
  rewrite (bind_ok _ _ _ _ _ (get_node_ok _ _ _ Hr)).
  destruct (replacePlaceholder _ _ _) as [v b].
  rewrite (bind_ok _ _ _ _ _ (set_value_run _ _ _ _ Hr)).
  assert (Heq : kept_eq st (put node (with_value v o) st)).
  { eapply kept_eq_put; [done|]. split; [done|by left]. }
  destruct (fold_each_inv (kept_eq st) (seq 0 (length (attributes o)))
              (placeholder_in_attribute node content)) with (b := b)
              (st := put node (with_value v o) st) as (b' & st' & Hrun & Heq');
    [|done|by eauto].
  intros i b1 st1 _ Heq1.
  destruct (placeholder_in_attribute_kept node content i b1 st1)
    as (b2 & st2 & Hrun2 & Heq2); [by eapply kept_eq_present; eauto|].
  exists b2, st2. split; [done|]. by eapply kept_eq_trans.
Qed.

Lemma content_set_kept content o : node_kept o (content_set content o).
Proof.
  split; [apply content_set_links|].
  unfold content_set. destruct (replace_caret _ _); [by left|].
  cbn [attributes with_value]. unfold with_href.
  destruct (anchor_like o) eqn:Ha; [|by left].
  assert (Hset : forall v,
    names_kept o (with_attributes (set_attribute (attributes o) "href" v) o)).
  { intros v. unfold names_kept. cbn [attributes with_attributes].
    rewrite set_attribute_names.
    destruct (has_attribute (attributes o) "href"); [by left|by right]. }
  destruct (test reUrl content); [apply Hset|].
  destruct (test reEmail content); [apply Hset|by left].
Qed.

Lemma insertContent_kept fuel p t content st :
  shape st p t -> NoDup (refs t) -> size t <= S fuel ->
  exists st', insertContent fuel (root t) content st = Ok (root t) st'
              /\ kept_eq st st'.
Proof.
  intros Hs Hnd Hfuel. unfold insertContent.
  destruct (insertContentIntoPlaceholder_kept (root t) content st)
    as (b & st1 & Hrun1 & Heq1); [by eapply shape_present, root_in_refs|].
  rewrite (bind_ok _ _ _ _ _ Hrun1).
  assert (Hs1 : shape st1 p t) by (eapply shape_links_eq; [by apply kept_eq_links|done]).
  assert (Hpres : forall c, In c (desc t) -> is_Some (cells st1 !! c)).
  { intros c Hc. eapply shape_present; [exact Hs1|]. rewrite refs_root. by right. }
  rewrite bind_run, (walk_fold _ fuel p t);
    [|done|done|by apply placeholder_walk_steady|done].
  destruct (fold_each_inv (kept_eq st1) (desc t)
              (fun child inserted =>
                 b ← insertContentIntoPlaceholder child content; mret (inserted || b)))
    with (b := b) (st := st1) as (b2 & st2 & Hrun2 & Heq2); [|apply kept_eq_refl|].
  { intros c a st' Hc Heq.
    destruct (insertContentIntoPlaceholder_kept c content st')
      as (b' & st'' & Hrun & Heq'); [eapply kept_eq_present; eauto|].
    exists (a || b'), st''. split; [by rewrite (bind_ok _ _ _ _ _ Hrun)|].
    by eapply kept_eq_trans. }
  rewrite Hrun2.
  assert (Heq02 : kept_eq st st2) by by eapply kept_eq_trans.
  destruct (negb b2); [|exists st2; by rewrite bind_run, ret_run].
  assert (Hs2 : shape st2 p t) by (eapply shape_links_eq; [by apply kept_eq_links|done]).
  rewrite bind_run, bind_run, (findDeepestNode_run fuel p t st2) by done.
  destruct (shape_present _ _ _ _ Hs2 (deepest_in_refs t)) as [od Hd].
  rewrite (setNodeContent_run _ _ _ _ Hd), ret_run.
  eexists. split; [done|]. eapply kept_eq_trans; [exact Heq02|].
  eapply kept_eq_put; [done|apply content_set_kept].
Qed.

Lemma insert_node_kept fuel items st p t c a st' :
  shape st p t -> NoDup (refs t) -> size t <= S fuel ->
  In c (refs t) -> kept_eq st st' ->
  exists a' st'', insert_node fuel items c a st' = Ok a' st'' /\ kept_eq st' st''.
Proof.
  intros Hs Hnd Hfuel Hc Heq.
  destruct (subtree_at _ _ _ _ Hs Hnd Hc) as (pc & tc & Hsc & <- & Hndc & Hsize & _).
  assert (Hsc' : shape st' pc tc)
    by (eapply shape_links_eq; [by apply kept_eq_links|done]).
  destruct (shape_inv _ _ _ Hsc') as (o & Hr & _).
  unfold insert_node. rewrite (bind_ok _ _ _ _ _ (get_node_ok _ _ _ Hr)).
  destruct (repeat o) as [r|]; [|exists a, st'; split; [done|apply kept_eq_refl]].
  destruct (rep_implicit r); [|exists a, st'; split; [done|apply kept_eq_refl]].
  destruct (insertContent_kept fuel pc tc (items !! rep_index r) st')
    as (st'' & Hrun & Heq'); [done|done|lia|].
  exists true, st''. split; [|done]. by rewrite (bind_ok _ _ _ _ _ Hrun).
Qed.

Lemma insert_kept fuel p t c st :
  shape st p t -> NoDup (refs t) -> size t <= S fuel ->
  exists st', insert fuel (root t) c st = Ok (root t) st' /\ kept_eq st st'.
Proof.
  intros Hs Hnd Hfuel.
  destruct c as [s|items|]; try (exists st; split; [done|apply kept_eq_refl]).
  unfold insert.
  destruct (0 <? length items); [|exists st; split; [done|apply kept_eq_refl]].
  assert (Hsteady : steady st (desc t) (insert_node fuel items)).
  { eapply steady_sub; [by eapply insert_node_steady|].
    intros x Hx. rewrite refs_root. by right. }
  rewrite bind_run, (walk_fold _ fuel p t) by done.
  destruct (fold_each_inv (kept_eq st) (desc t) (insert_node fuel items))
    with (b := false) (st := st) as (b & st1 & Hrun & Heq); [|apply kept_eq_refl|].
  { intros x a st' Hx Heq.
    destruct (insert_node_kept fuel items st p t x a st') as (a' & st'' & Hrun & Heq');
      [done|done|done|rewrite refs_root; by right|done|].
    exists a', st''. split; [done|]. by eapply kept_eq_trans. }
  rewrite Hrun.
  destruct (negb b); [|exists st1; by rewrite bind_run, ret_run].
  assert (Hs1 : shape st1 p t) by (eapply shape_links_eq; [by apply kept_eq_links|done]).
  rewrite bind_run, bind_run, (findDeepestNode_run fuel p t st1) by done.
  destruct (shape_present _ _ _ _ Hs1 (deepest_in_refs t)) as [od Hd].
  rewrite (setNodeContent_run _ _ _ _ Hd), ret_run.
  eexists. split; [done|]. eapply kept_eq_trans; [exact Heq|].
  eapply kept_eq_put; [done|apply content_set_kept].
Qed.

(** X10.  [insert] removes no attribute, renames none and changes the
    order of none: after it, every node has the attributes it had, under the
    same names in the same order; the one thing that may be added is an
    attribute [href], last, on an anchor-like node that had none. *)
Theorem insert_keeps_attributes (fuel : nat) (p : option ref) (t : rtree)
    (c : content) (st : Store) :
  shape st p t -> NoDup (refs t) -> size t <= S fuel ->
  exists st',
    insert fuel (root t) c st = Ok (root t) st'
    /\ forall r o, cells st !! r = Some o ->
         exists o', cells st' !! r = Some o'
           /\ (map attr_name (attributes o') = map attr_name (attributes o)
               \/ (anchor_like o = true
                   /\ has_attribute (attributes o) "href" = false
                   /\ map attr_name (attributes o')
                      = map attr_name (attributes o) ++ ["href"%string])).
Proof.
  intros Hs Hnd Hfuel.
  destruct (insert_kept fuel p t c st Hs Hnd Hfuel) as (st' & Hrun & _ & Heq).
  exists st'. split; [done|]. intros r o Hr. specialize (Heq r).
  rewrite Hr in Heq. inversion Heq as [? o' [_ Hn] E1 E2|]; subst. by exists o'.
Qed.

Lemma insert_keeps_attributes_witness :
  exists st',
    insert 10 0 (CArray ["x"; "example.com"]) prepared_store = Ok 0 st'
    /\ forall r o, cells prepared_store !! r = Some o ->
         exists o', cells st' !! r = Some o'
           /\ (map attr_name (attributes o') = map attr_name (attributes o)
               \/ (anchor_like o = true
                   /\ has_attribute (attributes o) "href" = false
                   /\ map attr_name (attributes o')
                      = map attr_name (attributes o) ++ ["href"%string])).
Proof.
  apply (insert_keeps_attributes 10 None prepared_tree
           (CArray ["x"; "example.com"]) prepared_store).
  - shape_by_computation.
  - nodup_by_computation.
  - vm_compute. lia.
Defined.

(** ** The size of the prepared tree *)

Fixpoint dsize (d : dtree) : nat :=
  match d with DNode _ ks => S (list_sum (map dsize ks)) end.

(** The data of a tree in document order. *)
Fixpoint dnodes (d : dtree) : list Data :=
  match d with DNode x ks => x :: flat_map dnodes ks end.

(** The data of the object at [r]. *)
Definition node_data (st : Store) (r : ref) : Data :=
  from_option data_of no_data (cells st !! r).

(** The unresolved nodes met by the walk of [prepare] among the trees
    [ks] and below them, and the nodes that it keeps. *)
Definition replaced_in (st : Store) (ks : list rtree) : list rtree :=
  flat_map (fun k => if is_unresolved st (root k) then [k] else replaced st k) ks.

Definition kept_in (st : Store) (ks : list rtree) : list ref :=
  flat_map (fun k => if is_unresolved st (root k) then [] else kept st k) ks.

Lemma replaced_kids st t : replaced st t = replaced_in st (kids t).
Proof. by destruct t. Qed.

Lemma kept_kids st t : kept st t = root t :: kept_in st (kids t).
Proof. by destruct t. Qed.

Lemma replaced_in_cons st k ks :
  replaced_in st (k :: ks)
  = (if is_unresolved st (root k) then [k] else replaced st k) ++ replaced_in st ks.
Proof. reflexivity. Qed.

Lemma kept_in_cons st k ks :
  kept_in st (k :: ks)
  = (if is_unresolved st (root k) then [] else kept st k) ++ kept_in st ks.
Proof. reflexivity. Qed.

Lemma dsize_erase st t : dsize (erase st t) = size t.
Proof.
  induction t as [r ks IH] using rtree_forall_ind. cbn [erase dsize size].
  f_equal. f_equal. rewrite map_map. apply map_ext_in. intros k Hk.
  rewrite Forall_forall in IH. by apply IH, list_elem_of_In.
Qed.

Lemma dsize_resolved amount i d : dsize (resolved amount i d) = dsize d.
Proof. by destruct d. Qed.

Lemma clones_of_size st st' amount k clones c :
  clones_of st st' amount k clones -> In c clones -> size c = size k.
Proof.
  intros [_ H] Hc. apply list_elem_of_In, list_elem_of_lookup_1 in Hc as [i Hi].
  destruct (H i c Hi) as [He _].
  by rewrite <- (dsize_erase st' c), He, dsize_resolved, dsize_erase.
Qed.

Lemma forest_size_same (ks : list rtree) n :
  (forall c, In c ks -> size c = n) -> forest_size ks = length ks * n.
Proof.
  induction ks as [|k ks IH]; intros H; [done|].
  rewrite forest_size_cons, (H k) by (by left). cbn [length].
  rewrite IH by (intros c Hc; apply H; by right). lia.
Qed.

Lemma expanded_size st st' amount :
  (forall t t', expanded st st' amount t t' ->
     size t' + forest_size (replaced st t)
     = size t + amount * forest_size (replaced st t))
  /\ (forall ks ks', expanded_kids st st' amount ks ks' ->
     forest_size ks' + forest_size (replaced_in st ks)
     = forest_size ks + amount * forest_size (replaced_in st ks)).
Proof.
  apply (expanded_mutind st st' amount
    (fun t t' _ =>
       size t' + forest_size (replaced st t)
       = size t + amount * forest_size (replaced st t))
    (fun ks ks' _ =>
       forest_size ks' + forest_size (replaced_in st ks)
       = forest_size ks + amount * forest_size (replaced_in st ks))).
  - intros r ks ks' _ _ IH. rewrite replaced_kids. cbn [kids].
    rewrite !size_kids. cbn [kids]. lia.
  - cbn. lia.
  - intros k k' ks ks' Hun _ IHk _ IHks.
    rewrite replaced_in_cons, Hun, !forest_size_cons, !forest_size_app. lia.
  - intros k clones ks ks' Hun Hcl _ IHks.
    rewrite replaced_in_cons, Hun, !forest_size_app, !forest_size_cons.
    rewrite (forest_size_same clones (size k))
      by (intros c Hc; by eapply clones_of_size).
    destruct Hcl as [-> _]. change (forest_size []) with 0. lia.
Qed.

(** X11.  The number of nodes of the tree after [prepare]: each unresolved
    node that the walk meets has given place to [amount] copies of its
    subtree, so that the tree has grown by [amount - 1] times the number of
    nodes of these subtrees (by nothing when the amount is 0 or 1). *)
Theorem prepare_size (fuel : nat) (p : option ref) (t : rtree) (amount : nat)
    (st : Store) :
  shape st p t -> NoDup (refs t) -> store_ok st -> size t <= S fuel ->
  exists st' t',
    prepare fuel (root t) amount st = Ok (root t) st'
    /\ shape st' p t'
    /\ size t' = size t + (amount - 1) * forest_size (replaced st t).
Proof.
  intros Hs Hnd Hok Hfuel.
  destruct (prepare_run fuel p t amount st Hs Hnd Hok Hfuel)
    as (st' & t' & Hrun & Hs' & _ & Hexp & _).
  exists st', t'. split; [done|]. split; [done|].
  pose proof (proj1 (expanded_size st st' _) t t' Hexp) as Hsize.
  destruct (Nat.eqb_spec amount 0) as [->|Hne]; [lia|nia].
Qed.

Lemma prepare_size_witness :
  exists st' t',
    prepare 10 0 3 example_store = Ok 0 st'
    /\ shape st' None t'
    /\ size t' = size example_tree + (3 - 1) * forest_size (replaced example_store example_tree).
Proof.
  apply (prepare_size 10 None example_tree 3 example_store).
  - shape_by_computation.
  - nodup_by_computation.
  - store_ok_by_computation.
  - vm_compute. lia.
Defined.

(** ** Where the data of the prepared tree comes from *)

Definition unresolved_data (d : Data) : bool :=
  match d_repeat d with
  | Some r => match rep_count r with None => true | Some _ => false end
  | None => false
  end.

Definition implicit_data (d : Data) : bool :=
  match d_repeat d with
  | Some r => rep_implicit r
  | None => false
  end.

(** The data of clone number [i] of a node with the data [d]. *)
Definition resolve_data (amount i : nat) (d : Data) : Data :=
  mkData (d_name d) (d_value d) (d_attributes d) (Some (resolved_repeat amount i)).

Lemma is_unresolved_data st r : is_unresolved st r = unresolved_data (node_data st r).
Proof.
  unfold is_unresolved, node_data. by destruct (cells st !! r).
Qed.

Lemma data_at_node_data st st' r r' :
  data_at st' r' = data_at st r -> node_data st' r' = node_data st r.
Proof.
  unfold data_at, node_data.
  destruct (cells st' !! r'), (cells st !! r); cbn; congruence.
Qed.

Lemma dnodes_erase_forest st ks :
  Forall (fun t => dnodes (erase st t) = map (node_data st) (refs t)) ks ->
  flat_map dnodes (map (erase st) ks) = map (node_data st) (flat_map refs ks).
Proof.
  induction 1 as [|k ks Hk _ IH]; [done|].
  cbn [map flat_map]. by rewrite map_app, Hk, IH.
Qed.

Lemma dnodes_erase st t : dnodes (erase st t) = map (node_data st) (refs t).
Proof.
  induction t as [r ks IH] using rtree_forall_ind.
  cbn [erase dnodes refs map]. f_equal. by apply dnodes_erase_forest.
Qed.

Lemma clone_data st st' amount i k c :
  erase st' c = resolved amount i (erase st k) ->
  node_data st' (root c) = resolve_data amount i (node_data st (root k))
  /\ map (node_data st') (desc c) = map (node_data st) (desc k).
Proof.
  intros He. apply (f_equal dnodes) in He. rewrite dnodes_erase in He.
  destruct c as [rc kc], k as [rk kk]. cbn [erase resolved dnodes refs map] in He.
  rewrite dnodes_erase_forest in He
    by (apply Forall_forall; intros; apply dnodes_erase).
  injection He as Hroot Hdesc. by split.
Qed.

Lemma map_eq_in {A B C} (f : A -> C) (g : B -> C) l l' x :
  map f l = map g l' -> In x l -> exists y, In y l' /\ f x = g y.
Proof.
  intros Heq Hx. apply (in_map f) in Hx. rewrite Heq in Hx.
  apply in_map_iff in Hx as (y & Hy & Hin). by exists y.
Qed.

(** A node of the prepared tree is a kept node with its data, or the root
    of a clone of a replaced node, or a node inside such a clone, a copy of
    a node below the replaced node. *)
Definition came_from (st st' : Store) (amount : nat) (ks : list rtree) (x : ref)
    : Prop :=
  (In x (kept_in st ks) /\ node_data st' x = node_data st x)
  \/ (exists k i, In k (replaced_in st ks) /\ i < amount /\
        node_data st' x = resolve_data amount i (node_data st (root k)))
  \/ (exists k y, In k (replaced_in st ks) /\ In y (desc k) /\
        node_data st' x = node_data st y).

Lemma came_from_mono st st' amount ks ks' x :
  (forall y, In y (kept_in st ks) -> In y (kept_in st ks')) ->
  (forall k, In k (replaced_in st ks) -> In k (replaced_in st ks')) ->
  came_from st st' amount ks x -> came_from st st' amount ks' x.
Proof.
  intros Hk Hr [[H1 H2]|[(k & i & H1 & H2)|(k & y & H1 & H2)]].
  - left. auto.
  - right. left. exists k, i. auto.
  - right. right. exists k, y. auto.
Qed.

Lemma came_from_tail st st' amount k ks x :
  came_from st st' amount ks x -> came_from st st' amount (k :: ks) x.
Proof.
  apply came_from_mono.
  - intros y Hy. rewrite kept_in_cons. apply in_or_app. by right.
  - intros c Hc. rewrite replaced_in_cons. apply in_or_app. by right.
Qed.

Lemma came_from_head st st' amount k ks x :
  is_unresolved st (root k) = false ->
  came_from st st' amount (kids k) x -> came_from st st' amount (k :: ks) x.
Proof.
  intros Hun. apply came_from_mono.
  - intros y Hy. rewrite kept_in_cons, Hun, kept_kids. apply in_or_app. left. by right.
  - intros c Hc. rewrite replaced_in_cons, Hun, replaced_kids. apply in_or_app. by left.
Qed.

Lemma expanded_came_from st st' amount :
  (forall t t', expanded st st' amount t t' ->
     root t' = root t /\ node_data st' (root t) = node_data st (root t) /\
     forall x, In x (desc t') -> came_from st st' amount (kids t) x)
  /\ (forall ks ks', expanded_kids st st' amount ks ks' ->
     forall x, In x (flat_map refs ks') -> came_from st st' amount ks x).
Proof.
  apply (expanded_mutind st st' amount
    (fun t t' _ =>
       root t' = root t /\ node_data st' (root t) = node_data st (root t) /\
       forall x, In x (desc t') -> came_from st st' amount (kids t) x)
    (fun ks ks' _ =>
       forall x, In x (flat_map refs ks') -> came_from st st' amount ks x)).
  - intros r ks ks' Hd _ IH. split; [done|]. split; [by apply data_at_node_data|].
    exact IH.
  - by intros x [].
  - intros k k' ks ks' Hun _ (Hroot & Hdata & IHk) _ IHks x Hx.
    cbn [flat_map] in Hx. rewrite refs_root, Hroot in Hx.
    destruct Hx as [<-|Hx]; [|apply in_app_or in Hx as [Hx|Hx]].
    + left. split; [|done]. rewrite kept_in_cons, Hun, kept_kids. by left.
    + apply came_from_head; auto.
    + apply came_from_tail; auto.
  - intros k clones ks ks' Hun [Hlen Hcl] _ IHks x Hx.
    rewrite flat_map_app in Hx. apply in_app_or in Hx as [Hx|Hx];
      [|apply came_from_tail; auto].
    apply in_flat_map in Hx as (c & Hc & Hx).
    apply list_elem_of_In, list_elem_of_lookup_1 in Hc as [i Hi].
    destruct (Hcl i c Hi) as [He _].
    destruct (clone_data _ _ _ _ _ _ He) as [Hroot Hdesc].
    assert (Hk : In k (replaced_in st (k :: ks))).
    { rewrite replaced_in_cons, Hun. by left. }
    rewrite refs_root in Hx. destruct Hx as [<-|Hx].
    + right. left. exists k, i. split; [done|]. split; [|done].
      apply lookup_lt_Some in Hi. lia.
    + right. right. destruct (map_eq_in _ _ _ _ x Hdesc Hx) as (y & Hy & Heq).
      by exists k, y.
Qed.

Lemma kept_in_resolved st ks x : In x (kept_in st ks) -> is_unresolved st x = false.
Proof.
  enough (H : forall t y, In y (kept_in st (kids t)) -> is_unresolved st y = false)
    by apply (H (RNode 0 ks)).
  clear ks x. induction t as [r ks IH] using rtree_forall_ind. cbn [kids].
  intros y Hy. apply in_flat_map in Hy as (k & Hk & Hy).
  destruct (is_unresolved st (root k)) eqn:Hun; [done|].
  rewrite kept_kids in Hy. destruct Hy as [<-|Hy]; [done|].
  rewrite Forall_forall in IH. by apply (IH k); [apply list_elem_of_In|].
Qed.

(** After [prepare], when no unresolved node lay below another one: no
    node below the root is unresolved. *)
Lemma expanded_resolved st st' amount t t' :
  expanded st st' amount t t' ->
  (forall k y, In k (replaced st t) -> In y (desc k) -> is_unresolved st y = false) ->
  forall x, In x (desc t') -> is_unresolved st' x = false.
Proof.
  intros Hexp Hflat x Hx.
  destruct (proj1 (expanded_came_from st st' amount) t t' Hexp) as (_ & _ & H).
  rewrite is_unresolved_data.
  destruct (H x Hx) as [[H1 H2]|[(k & i & H1 & H2 & H3)|(k & y & H1 & H2 & H3)]].
  - rewrite H2, <- is_unresolved_data. by eapply kept_in_resolved.
  - by rewrite H3.
  - rewrite H3, <- is_unresolved_data. apply (Hflat k); [|done].
    by rewrite replaced_kids.
Qed.

(** X12.  When no unresolved node lies below another unresolved node,
    [prepare] leaves no unresolved node below the root, and running it once
    more, with any amount, changes nothing. *)
Theorem prepare_idempotent (fuel : nat) (p : option ref) (t : rtree)
    (amount : nat) (st : Store) :
  shape st p t -> NoDup (refs t) -> store_ok st ->
  size t + (amount - 1) * forest_size (replaced st t) <= S fuel ->
  (forall k y, In k (replaced st t) -> In y (desc k) -> is_unresolved st y = false) ->
  exists st' t',
    prepare fuel (root t) amount st = Ok (root t) st'
    /\ shape st' p t'
    /\ (forall x, In x (desc t') -> is_unresolved st' x = false)
    /\ forall amount', prepare fuel (root t) amount' st' = Ok (root t) st'.
Proof.
  intros Hs Hnd Hok Hfuel Hflat.
  destruct (prepare_run fuel p t amount st Hs Hnd Hok)
    as (st' & t' & Hrun & Hs' & Hnd' & Hexp & _);
    [eapply Nat.le_trans; [apply Nat.le_add_r|exact Hfuel]|].
  exists st', t'. split; [done|]. split; [done|].
  pose proof (expanded_resolved _ _ _ _ _ Hexp Hflat) as Hres.
  split; [done|]. intros amount'.
  rewrite <- (expanded_root _ _ _ _ _ Hexp).
  apply (prepare_skip fuel p t'); try done.
  pose proof (proj1 (expanded_size st st' _) t t' Hexp) as Hsize.
  destruct (Nat.eqb_spec amount 0) as [->|Hne]; [lia|nia].
Qed.

Lemma prepare_idempotent_witness :
  exists st' t',
    prepare 10 0 2 example_store = Ok 0 st'
    /\ shape st' None t'
    /\ (forall x, In x (desc t') -> is_unresolved st' x = false)
    /\ forall amount', prepare 10 0 amount' st' = Ok 0 st'.
Proof.
  apply (prepare_idempotent 10 None example_tree 2 example_store).
  - shape_by_computation.
  - nodup_by_computation.
  - store_ok_by_computation.
  - vm_compute. lia.
  - intros k y Hk Hy. vm_compute in Hk. destruct Hk as [<-|[]].
    vm_compute in Hy. destruct Hy as [<-|[]]. reflexivity.
Defined.

(** ** [insert] on implicit nodes that do not lie in one another *)

(** [node.repeat && node.repeat.implicit], for the object at [r]. *)
Definition is_implicit_at (st : Store) (r : ref) : bool :=
  match cells st !! r with
  | Some o => is_implicit o
  | None => false
  end.

(** The nodes with the implicit flag in [t] that are not below another
    one, with their subtrees, in document order; and those below the root
    of [t]. *)
Fixpoint implicit_tops (st : Store) (t : rtree) : list rtree :=
  match t with
  | RNode r ks =>
    if is_implicit_at st r then [RNode r ks] else flat_map (implicit_tops st) ks
  end.

Definition implicit_in (st : Store) (ks : list rtree) : list rtree :=
  flat_map (implicit_tops st) ks.

Definition implicit_subtrees (st : Store) (t : rtree) : list rtree :=
  implicit_in st (kids t).

(** The item for the node at [r]. *)
Definition item_at (items : list string) (st : Store) (r : ref) : option string :=
  match cells st !! r with
  | Some o => content_at items o
  | None => None
  end.

(** The store after [insertContent] on the tree [tc]. *)
Definition content_in (content : option string) (tc : rtree) (st : Store) : Store :=
  if refs_have_placeholder st (refs tc) then fill_refs content (refs tc) st
  else match cells st !! deepest tc with
       | Some od => put (deepest tc) (content_set content od) st
       | None => st
       end.

Lemma implicit_tops_root st t :
  implicit_tops st t
  = if is_implicit_at st (root t) then [t] else implicit_in st (kids t).
Proof. by destruct t. Qed.

Lemma insertContent_content_in fuel p t content st :
  shape st p t -> NoDup (refs t) -> size t <= S fuel ->
  unique_attribute_names st (refs t) ->
  insertContent fuel (root t) content st = Ok (root t) (content_in content t st).
Proof.
  intros Hs Hnd Hfuel Huniq. rewrite (insertContent_run fuel p t) by done.
  unfold content_in. destruct (refs_have_placeholder st (refs t)); [done|].
  destruct (shape_present _ _ _ _ Hs (deepest_in_refs t)) as [od Hd].
  by rewrite Hd, bind_run, (setNodeContent_run _ _ _ _ Hd), ret_run.
Qed.

Lemma fill_refs_lookup content rs st x :
  cells (fill_refs content rs st) !! x
  = (if bool_decide (x ∈ rs) then fill_node content <$> cells st !! x
     else cells st !! x).
Proof.
  unfold fill_refs. rewrite on_nodes_lookup.
  destruct (bool_decide (x ∈ rs)); [done|]. by destruct (cells st !! x).
Qed.

Lemma content_in_frame content tc st x :
  ~ In x (refs tc) -> cells (content_in content tc st) !! x = cells st !! x.
Proof.
  intros Hx. unfold content_in.
  destruct (refs_have_placeholder st (refs tc)).
  - rewrite fill_refs_lookup, bool_decide_eq_false_2; [done|].
    by rewrite list_elem_of_In.
  - destruct (cells st !! deepest tc); [|done].
    apply put_lookup_ne. intros Heq. apply Hx. rewrite <- Heq. apply deepest_in_refs.
Qed.

Lemma content_in_local content tc st st0 :
  (forall x, In x (refs tc) -> cells st !! x = cells st0 !! x) ->
  forall x, In x (refs tc) ->
    cells (content_in content tc st) !! x = cells (content_in content tc st0) !! x.
Proof.
  intros Hag x Hx. unfold content_in.
  replace (refs_have_placeholder st (refs tc))
    with (refs_have_placeholder st0 (refs tc)).
  2:{ apply existsb_ext_in. intros y Hy. by rewrite Hag. }
  destruct (refs_have_placeholder st0 (refs tc)).
  - rewrite !fill_refs_lookup, Hag by done. done.
  - rewrite (Hag (deepest tc)) by apply deepest_in_refs.
    destruct (cells st0 !! deepest tc) as [od|]; [|by apply Hag].
    destruct (decide (deepest tc = x)) as [<-|Hne].
    + by rewrite !put_lookup.
    + rewrite !put_lookup_ne by done. by apply Hag.
Qed.

Lemma content_in_next_ref content tc st :
  next_ref (content_in content tc st) = next_ref st.
Proof.
  unfold content_in. destruct (refs_have_placeholder st (refs tc)); [done|].
  by destruct (cells st !! deepest tc).
Qed.

Lemma implicit_tops_sub st : forall t c x,
  In c (implicit_tops st t) -> In x (refs c) -> In x (refs t).
Proof.
  induction t as [r ks IH] using rtree_forall_ind. intros c x Hc Hx.
  cbn [implicit_tops] in Hc. destruct (is_implicit_at st r).
  - by destruct Hc as [<-|[]].
  - apply in_flat_map in Hc as (k & Hk & Hc). right. apply in_flat_map.
    exists k. split; [done|]. rewrite Forall_forall in IH.
    eapply IH; eauto. by apply list_elem_of_In.
Qed.

Lemma implicit_in_sub st ks c x :
  In c (implicit_in st ks) -> In x (refs c) -> In x (flat_map refs ks).
Proof.
  intros Hc Hx. apply in_flat_map in Hc as (k & Hk & Hc). apply in_flat_map.
  exists k. split; [done|]. by eapply implicit_tops_sub.
Qed.

(** A node of the implicit subtrees of [t] is the root of a tree of the
    store, within [t]. *)
Lemma implicit_tops_shape st : forall t p c,
  shape st p t -> NoDup (refs t) -> In c (implicit_tops st t) ->
  exists pc, shape st pc c /\ NoDup (refs c) /\ size c <= size t /\
             is_implicit_at st (root c) = true.
Proof.
  induction t as [r ks IH] using rtree_forall_ind. intros p c Hs Hnd Hc.
  cbn [implicit_tops] in Hc. destruct (is_implicit_at st r) eqn:Hi.
  - destruct Hc as [<-|[]]. by exists p.
  - apply in_flat_map in Hc as (k & Hk & Hc).
    destruct (shape_inv _ _ _ Hs) as (o & _ & _ & _ & Hks). cbn [kids root] in *.
    rewrite Forall_forall in IH, Hks.
    cbn [refs] in Hnd. apply NoDup_cons in Hnd as [_ Hnd].
    destruct (IH k (proj2 (list_elem_of_In _ _) Hk) (Some r) c)
      as (pc & H1 & H2 & H3 & H4);
      [by apply Hks, list_elem_of_In|by eapply NoDup_flat_map_in|done|].
    exists pc. split; [done|]. split; [done|]. split; [|done].
    apply size_kid_le in Hk. cbn [size]. unfold forest_size in Hk. lia.
Qed.

Definition nonempty {A} (l : list A) : bool :=
  match l with [] => false | _ => true end.

Lemma nonempty_app {A} (l1 l2 : list A) :
  nonempty (l1 ++ l2) = nonempty l1 || nonempty l2.
Proof. by destruct l1, l2. Qed.

Section distribute.
(** The walk of [insert] over trees of the store [st0], as it is when
    [insert] is called; none of the implicit nodes met lies in another. *)
Variables (fuel : nat) (items : list string) (st0 : Store).

(** What the part of the walk that goes over [rs], the nodes of the trees
    whose implicit subtrees are [tops], makes of the store [st]. *)
Definition distributed (rs : list ref) (tops : list rtree) (b : bool)
    (st : Store) : Prop :=
  exists st',
    fold_each rs (insert_node fuel items) b st = Ok (b || nonempty tops) st'
    /\ next_ref st' = next_ref st
    /\ (forall x, ~ In x rs -> cells st' !! x = cells st !! x)
    /\ (forall c x, In c tops -> In x (refs c) ->
          cells st' !! x
          = cells (content_in (item_at items st0 (root c)) c st0) !! x)
    /\ (forall x, In x rs -> (forall c, In c tops -> ~ In x (refs c)) ->
          cells st' !! x = cells st0 !! x).

Definition distributes (t : rtree) : Prop :=
  forall p b st,
    shape st0 p t -> NoDup (refs t) -> size t <= S fuel ->
    unique_attribute_names st0 (refs t) ->
    (forall c x, In c (implicit_tops st0 t) -> In x (desc c) ->
       is_implicit_at st0 x = false) ->
    (forall x, In x (refs t) -> cells st !! x = cells st0 !! x) ->
    distributed (refs t) (implicit_tops st0 t) b st.

Lemma distributes_forest ks : Forall distributes ks ->
  forall p b st,
    Forall (shape st0 p) ks -> NoDup (flat_map refs ks) ->
    forest_size ks <= S fuel ->
    unique_attribute_names st0 (flat_map refs ks) ->
    (forall c x, In c (implicit_in st0 ks) -> In x (desc c) ->
       is_implicit_at st0 x = false) ->
    (forall x, In x (flat_map refs ks) -> cells st !! x = cells st0 !! x) ->
    distributed (flat_map refs ks) (implicit_in st0 ks) b st.
Proof.
  induction 1 as [|k ks Hk _ IH]; intros p b st Hs Hnd Hfuel Huniq Hflat Hag.
  { exists st. cbn. rewrite orb_false_r. repeat split; done. }
  apply Forall_cons in Hs as [Hsk Hs]. cbn [flat_map] in *.
  apply NoDup_app in Hnd as (Hndk & Hdis & Hndks).
  rewrite forest_size_cons in Hfuel.
  destruct (Hk p b st) as (st1 & Hrun1 & Hn1 & Hframe1 & Htops1 & Hrest1);
    [done|done|lia| | | |].
  { intros x o Hx. apply Huniq, in_or_app. by left. }
  { intros c x Hc. apply Hflat. unfold implicit_in. cbn [flat_map].
    apply in_or_app. by left. }
  { intros x Hx. apply Hag, in_or_app. by left. }
  assert (Hout : forall x, In x (flat_map refs ks) -> ~ In x (refs k)).
  { intros x Hx Hxk. apply (Hdis x); by apply list_elem_of_In. }
  destruct (IH p (b || nonempty (implicit_tops st0 k)) st1)
    as (st2 & Hrun2 & Hn2 & Hframe2 & Htops2 & Hrest2); [done|done|lia| | | |].
  { intros x o Hx. apply Huniq, in_or_app. by right. }
  { intros c x Hc. apply Hflat. unfold implicit_in. cbn [flat_map].
    apply in_or_app. by right. }
  { intros x Hx. rewrite Hframe1 by by apply Hout. apply Hag, in_or_app. by right. }
  exists st2. unfold implicit_in in *. cbn [flat_map].
  rewrite fold_each_app, bind_run, Hrun1, Hrun2, nonempty_app, orb_assoc.
  split; [done|]. split; [congruence|]. split; [|split].
  - intros x Hx. rewrite Hframe2, Hframe1; [done| |];
      intros Hin; apply Hx, in_or_app; [by left|by right].
  - intros c x [Hc|Hc]%in_app_or Hx.
    + rewrite Hframe2; [by apply Htops1|].
      intros Hin. apply (Hout x Hin). by eapply implicit_tops_sub.
    + by apply Htops2.
  - intros x [Hx|Hx]%in_app_or Hnone.
    + rewrite Hframe2 by (intros Hin; by apply (Hout x Hin)).
      apply Hrest1; [done|]. intros c Hc. apply Hnone, in_or_app. by left.
    + apply Hrest2; [done|]. intros c Hc. apply Hnone, in_or_app. by right.
Qed.

Lemma distributes_tree t : distributes t.
Proof.
  induction t as [r ks IH] using rtree_forall_ind.
  intros p b st Hs Hnd Hfuel Huniq Hflat Hag.
  destruct (shape_inv _ _ _ Hs) as (o & Hr & Hp & Hc & Hks). cbn [root kids] in *.
  assert (Hs' : shape st p (RNode r ks)) by (by eapply shape_agree).
  assert (Hr' : cells st !! r = Some o) by (rewrite Hag; [done|by left]).
  cbn [implicit_tops] in *. unfold is_implicit_at in *. rewrite Hr in *.
  cbn [refs]. destruct (is_implicit o) eqn:Hi.
  - (* the node gets its item, and what lies below it is passed over *)
    destruct (insertContent_links fuel p (RNode r ks)
                (item_at items st0 r) st) as (st1 & Hrun & Heq); try done.
    assert (Hst1 : st1 = content_in (item_at items st0 r) (RNode r ks) st).
    { rewrite (insertContent_content_in fuel p (RNode r ks)) in Hrun; try done.
      - by injection Hrun.
      - intros x ox Hx Hox. rewrite Hag in Hox by done. by eapply Huniq. }
    assert (Hnode : insert_node fuel items r b st = Ok true st1).
    { unfold insert_node. rewrite (bind_ok _ _ _ _ _ (get_node_ok _ _ _ Hr')).
      unfold is_implicit in Hi. unfold item_at, content_at in Hrun. rewrite Hr in Hrun.
      destruct (repeat o) as [rp|]; [|done]. rewrite Hi.
      cbn [root] in Hrun. by rewrite (bind_ok _ _ _ _ _ Hrun). }
    exists st1. rewrite fold_each_cons, (bind_ok _ _ _ _ _ Hnode), orb_true_r.
    split; [|split; [|split; [|split]]].
    + apply fold_each_id. intros x b' Hx.
      assert (Hx' : In x (refs (RNode r ks))) by (by right).
      destruct (shape_present _ _ _ _ Hs' Hx') as [ox Hox].
      destruct (links_eq_lookup _ _ _ _ Heq Hox) as (ox' & Hox' & _ & _ & _ & Hrep).
      apply (insert_node_skip _ _ _ _ _ ox'); [done|].
      specialize (Hflat (RNode r ks) x (or_introl eq_refl) Hx).
      rewrite <- (Hag x Hx'), Hox in Hflat. unfold is_implicit in *. by rewrite Hrep.
    + subst st1. apply content_in_next_ref.
    + intros x Hx. subst st1. by apply content_in_frame.
    + intros c x [<-|[]] Hx. subst st1. by apply content_in_local.
    + intros x Hx Hnone. by destruct (Hnone (RNode r ks) (or_introl eq_refl)).
  - (* the node is passed over, and the walk goes on below it *)
    cbn [refs] in Hnd. apply NoDup_cons in Hnd as [Hroot Hnd].
    rewrite list_elem_of_In in Hroot.
    destruct (distributes_forest ks IH (Some r) b st)
      as (st1 & Hrun & Hn & Hframe & Htops & Hrest); try done.
    { rewrite size_kids in Hfuel. cbn [kids] in Hfuel. lia. }
    { intros x ox Hx. apply Huniq. by right. }
    { intros x Hx. apply Hag. by right. }
    exists st1.
    rewrite fold_each_cons, (bind_ok _ _ _ _ _ (insert_node_skip _ _ _ b _ _ Hr' Hi)).
    split; [done|]. split; [done|]. split; [|split; [done|]].
    + intros x Hx. apply Hframe. intros Hin. apply Hx. by right.
    + intros x [<-|Hx] Hnone.
      * rewrite Hframe by done. by rewrite Hr', Hr.
      * by apply Hrest.
Qed.
End distribute.

Lemma implicit_subtrees_shape st p t c :
  shape st p t -> NoDup (refs t) -> In c (implicit_subtrees st t) ->
  exists pc, shape st pc c /\ NoDup (refs c) /\ size c <= size t /\
             is_implicit_at st (root c) = true /\
             forall x, In x (refs c) -> In x (desc t).
Proof.
  intros Hs Hnd Hc.
  destruct (shape_inv _ _ _ Hs) as (o & _ & _ & _ & Hks).
  rewrite refs_root in Hnd. apply NoDup_cons in Hnd as [_ Hnd].
  pose proof Hc as Hc'. apply in_flat_map in Hc' as (k & Hk & Hck).
  rewrite Forall_forall in Hks.
  destruct (implicit_tops_shape st k (Some (root t)) c) as (pc & H1 & H2 & H3 & H4);
    [by apply Hks, list_elem_of_In|by eapply NoDup_flat_map_in|done|].
  exists pc. split; [done|]. split; [done|]. split; [|split; [done|]].
  - apply size_kid_le in Hk. rewrite (size_kids t). lia.
  - intros x Hx. by eapply implicit_in_sub.
Qed.

Lemma insert_distributed fuel p t items st :
  shape st p t -> NoDup (refs t) -> size t <= S fuel ->
  unique_attribute_names st (desc t) ->
  items <> [] ->
  (forall c x, In c (implicit_subtrees st t) -> In x (desc c) ->
     is_implicit_at st x = false) ->
  implicit_subtrees st t <> [] ->
  exists st',
    insert fuel (root t) (CArray items) st = Ok (root t) st'
    /\ next_ref st' = next_ref st
    /\ (forall c x, In c (implicit_subtrees st t) -> In x (refs c) ->
          cells st' !! x
          = cells (content_in (item_at items st (root c)) c st) !! x)
    /\ (forall x, (forall c, In c (implicit_subtrees st t) -> ~ In x (refs c)) ->
          cells st' !! x = cells st !! x).
Proof.
  intros Hs Hnd Hfuel Huniq Hitems Hflat Hsome.
  destruct (shape_inv _ _ _ Hs) as (o & Hr & _ & _ & Hks).
  pose proof Hnd as Hnd'. rewrite refs_root in Hnd'.
  apply NoDup_cons in Hnd' as [_ Hnd'].
  destruct (distributes_forest fuel items st (kids t)) with (p := Some (root t))
    (b := false) (st := st) as (st' & Hrun & Hn & Hframe & Htops & Hrest); try done.
  { apply Forall_forall. intros k _. apply distributes_tree. }
  { rewrite size_kids in Hfuel. lia. }
  exists st'. unfold insert. destruct items as [|i items]; [done|].
  cbn [length Nat.ltb Nat.leb].
  assert (Hsteady : steady st (desc t) (insert_node fuel (i :: items))).
  { eapply steady_sub; [by eapply insert_node_steady|].
    intros x Hx. rewrite refs_root. by right. }
  rewrite bind_run, (walk_fold _ fuel p t) by done.
  unfold desc, implicit_subtrees in *. rewrite Hrun.
  destruct (implicit_in st (kids t)) as [|c0 tops]; [done|].
  cbn [orb nonempty negb]. rewrite bind_run, !ret_run.
  split; [done|]. split; [done|]. split; [done|].
  intros x Hnone. destruct (in_dec Nat.eq_dec x (flat_map refs (kids t))) as [Hx|Hx].
  - by apply Hrest.
  - by apply Hframe.
Qed.

(** X13.  [insert] on a tree in which no node with the implicit flag lies
    below another one, and which has such a node below its root: each of
    these nodes gets its item independently of the others.  After
    [insert], its subtree is as [insertContent] with [content[index]],
    called on the node alone in the store as it was, leaves it, and every
    object that is not in one of these subtrees is as it was. *)
Theorem insert_distributes (fuel : nat) (p : option ref) (t : rtree)
    (items : list string) (st : Store) :
  shape st p t -> NoDup (refs t) -> size t <= S fuel ->
  unique_attribute_names st (desc t) ->
  items <> [] ->
  (forall c x, In c (implicit_subtrees st t) -> In x (desc c) ->
     is_implicit_at st x = false) ->
  implicit_subtrees st t <> [] ->
  exists st',
    insert fuel (root t) (CArray items) st = Ok (root t) st'
    /\ (forall c o, In c (implicit_subtrees st t) ->
          cells st !! root c = Some o ->
          exists st_c,
            insertContent fuel (root c) (content_at items o) st = Ok (root c) st_c
            /\ forall x, In x (refs c) -> cells st' !! x = cells st_c !! x)
    /\ (forall x, (forall c, In c (implicit_subtrees st t) -> ~ In x (refs c)) ->
          cells st' !! x = cells st !! x).
Proof.
  intros Hs Hnd Hfuel Huniq Hitems Hflat Hsome.
  destruct (insert_distributed fuel p t items st)
    as (st' & Hrun & _ & Htops & Hrest); try done.
  exists st'. split; [done|]. split; [|done].
  intros c o Hc Ho.
  destruct (implicit_subtrees_shape st p t c Hs Hnd Hc)
    as (pc & Hsc & Hndc & Hsize & _ & Hsub).
  eexists. split.
  - apply (insertContent_content_in fuel pc c); [done|done|lia|].
    intros x ox Hx. apply Huniq. by apply Hsub.
  - intros x Hx. rewrite (Htops c x Hc Hx). unfold item_at. by rewrite Ho.
Qed.

Lemma insert_distributes_witness :
  exists st',
    insert 10 0 (CArray ["x"; "y"]) prepared_store = Ok 0 st'
    /\ (forall c o, In c (implicit_subtrees prepared_store prepared_tree) ->
          cells prepared_store !! root c = Some o ->
          exists st_c,
            insertContent 10 (root c) (content_at ["x"; "y"] o) prepared_store
            = Ok (root c) st_c
            /\ forall x, In x (refs c) -> cells st' !! x = cells st_c !! x)
    /\ (forall x,
          (forall c, In c (implicit_subtrees prepared_store prepared_tree) ->
             ~ In x (refs c)) ->
          cells st' !! x = cells prepared_store !! x).
Proof.
  apply (insert_distributes 10 None prepared_tree ["x"; "y"] prepared_store).
  - shape_by_computation.
  - nodup_by_computation.
  - vm_compute. lia.
  - intros x o Hx Ho. vm_compute in Hx.
    destruct Hx as [<-|[<-|[<-|[<-|[<-|[]]]]]]; vm_compute in Ho;
      injection Ho as <-; nodup_by_computation.
  - discriminate.
  - intros c x Hc Hx. vm_compute in Hc.
    destruct Hc as [<-|[<-|[]]]; vm_compute in Hx; destruct Hx as [<-|[]];
      reflexivity.
  - vm_compute. discriminate.
Defined.

(** ** The entry point: [prepare], then [insert] *)

Lemma is_implicit_at_data st r : is_implicit_at st r = implicit_data (node_data st r).
Proof. unfold is_implicit_at, node_data. by destruct (cells st !! r). Qed.

(** The tree [c] of the store is a clone made by [prepare]: its root has
    the repeat state of a clone, and no node below the root has the implicit
    flag. *)
Definition is_clone (st : Store) (amount : nat) (c : rtree) : Prop :=
  (exists i, i < amount /\
     d_repeat (node_data st (root c)) = Some (resolved_repeat amount i)) /\
  forall x, In x (desc c) -> is_implicit_at st x = false.

Lemma implicit_in_cons st k ks :
  implicit_in st (k :: ks) = implicit_tops st k ++ implicit_in st ks.
Proof. reflexivity. Qed.

Lemma implicit_in_app st ks1 ks2 :
  implicit_in st (ks1 ++ ks2) = implicit_in st ks1 ++ implicit_in st ks2.
Proof. apply flat_map_app. Qed.

Lemma implicit_in_all st ks :
  (forall c, In c ks -> is_implicit_at st (root c) = true) -> implicit_in st ks = ks.
Proof.
  induction ks as [|k ks IH]; intros H; [done|].
  rewrite implicit_in_cons, implicit_tops_root, (H k) by (by left).
  cbn [app]. f_equal. apply IH. intros c Hc. apply H. by right.
Qed.

Lemma expanded_implicit st st' amount :
  (forall t t', expanded st st' amount t t' ->
     (forall x, In x (desc t) -> is_implicit_at st x = false) ->
     Forall (is_clone st' amount) (implicit_subtrees st' t')
     /\ length (implicit_subtrees st' t') = amount * length (replaced st t))
  /\ (forall ks ks', expanded_kids st st' amount ks ks' ->
     (forall x, In x (flat_map refs ks) -> is_implicit_at st x = false) ->
     Forall (is_clone st' amount) (implicit_in st' ks')
     /\ length (implicit_in st' ks') = amount * length (replaced_in st ks)).
Proof.
  apply (expanded_mutind st st' amount
    (fun t t' _ =>
       (forall x, In x (desc t) -> is_implicit_at st x = false) ->
       Forall (is_clone st' amount) (implicit_subtrees st' t')
       /\ length (implicit_subtrees st' t') = amount * length (replaced st t))
    (fun ks ks' _ =>
       (forall x, In x (flat_map refs ks) -> is_implicit_at st x = false) ->
       Forall (is_clone st' amount) (implicit_in st' ks')
       /\ length (implicit_in st' ks') = amount * length (replaced_in st ks))).
  - intros r ks ks' _ _ IH Hnone. apply IH, Hnone.
  - intros _. split; [constructor|]. cbn. lia.
  - intros k k' ks ks' Hun Hexp IHk _ IHks Hnone.
    destruct (proj1 (expanded_came_from st st' amount) k k' Hexp) as (Hroot & Hdata & _).
    assert (Hk : is_implicit_at st' (root k') = false).
    { rewrite Hroot, is_implicit_at_data, Hdata, <- is_implicit_at_data.
      apply Hnone. cbn [flat_map]. apply in_or_app. left. apply root_in_refs. }
    destruct IHk as [IHk1 IHk2].
    { intros x Hx. apply Hnone. cbn [flat_map]. apply in_or_app. left.
      rewrite refs_root. by right. }
    destruct IHks as [IHks1 IHks2].
    { intros x Hx. apply Hnone. cbn [flat_map]. apply in_or_app. by right. }
    rewrite implicit_in_cons, implicit_tops_root, Hk, replaced_in_cons, Hun.
    split; [by apply Forall_app|].
    unfold implicit_subtrees in IHk2. rewrite !length_app, IHk2, IHks2. lia.
  - intros k clones ks ks' Hun [Hlen Hcl] _ IHks Hnone.
    destruct IHks as [IHks1 IHks2].
    { intros x Hx. apply Hnone. cbn [flat_map]. apply in_or_app. by right. }
    assert (Hclones : forall c, In c clones -> is_clone st' amount c).
    { intros c Hc. apply list_elem_of_In, list_elem_of_lookup_1 in Hc as [i Hi].
      destruct (Hcl i c Hi) as [He _].
      destruct (clone_data _ _ _ _ _ _ He) as [Hroot Hdesc]. split.
      - exists i. split; [apply lookup_lt_Some in Hi; lia|]. by rewrite Hroot.
      - intros x Hx. destruct (map_eq_in _ _ _ _ x Hdesc Hx) as (y & Hy & Heq).
        rewrite is_implicit_at_data, Heq, <- is_implicit_at_data.
        apply Hnone. cbn [flat_map]. apply in_or_app. left.
        rewrite refs_root. by right. }
    rewrite implicit_in_app, implicit_in_all, replaced_in_cons, Hun.
    + split; [apply Forall_app; split; [|done]|].
      * apply Forall_forall. intros c Hc. by apply Hclones, list_elem_of_In.
      * rewrite !length_app, IHks2, Hlen. cbn [length]. lia.
    + intros c Hc. destruct (Hclones c Hc) as [(i & _ & Hrep) _].
      rewrite is_implicit_at_data. unfold implicit_data. by rewrite Hrep.
Qed.

Lemma kept_in_desc st t x : In x (kept_in st (kids t)) -> In x (desc t).
Proof.
  intros Hx. apply in_flat_map in Hx as (k & Hk & Hx). apply in_flat_map.
  exists k. split; [done|]. destruct (is_unresolved st (root k)); [done|].
  by apply kept_in_refs in Hx.
Qed.

Lemma unique_attribute_data st rs y :
  unique_attribute_names st rs -> In y rs ->
  NoDup (map attr_name (d_attributes (node_data st y))).
Proof.
  intros Huniq Hy. unfold node_data.
  destruct (cells st !! y) as [o|] eqn:Ho; [|constructor].
  by apply (Huniq y o).
Qed.

Lemma expanded_unique st st' amount t t' :
  expanded st st' amount t t' ->
  unique_attribute_names st (desc t) -> unique_attribute_names st' (desc t').
Proof.
  intros Hexp Huniq x o Hx Ho.
  destruct (proj1 (expanded_came_from st st' amount) t t' Hexp) as (_ & _ & H).
  replace (attributes o) with (d_attributes (node_data st' x))
    by (unfold node_data; by rewrite Ho).
  destruct (H x Hx) as [[H1 H2]|[(k & i & H1 & H2 & H3)|(k & y & H1 & H2 & H3)]];
    rewrite H3 || rewrite H2.
  - apply (unique_attribute_data st (desc t)); [done|]. by apply (kept_in_desc st).
  - cbn [resolve_data d_attributes].
    apply (unique_attribute_data st (desc t)); [done|].
    rewrite <- replaced_kids in H1.
    apply (replaced_in_refs st t k); [done|apply root_in_refs].
  - apply (unique_attribute_data st (desc t)); [done|].
    rewrite <- replaced_kids in H1. apply (replaced_in_refs st t k); [done|].
    rewrite refs_root. by right.
Qed.

(** X14.  The entry point on a tree in which the walk of [prepare] meets an
    unresolved node and no node below the root has the implicit flag, with
    a list of items that is not empty.  The nodes with the implicit flag in
    the prepared tree are the clones, as many as there are items for each
    replaced node; clone number [i] gets item number [i], which is there:
    after the call its subtree is as [insertContent] with that item, called
    on the clone alone in the prepared store, leaves it; and every object
    outside the clones is as [prepare] left it. *)
Theorem default_export_distributes (fuel : nat) (p : option ref) (t : rtree)
    (items : list string) (st : Store) :
  shape st p t -> NoDup (refs t) -> store_ok st ->
  size t + (length items - 1) * forest_size (replaced st t) <= S fuel ->
  unique_attribute_names st (desc t) ->
  (forall x, In x (desc t) -> is_implicit_at st x = false) ->
  replaced st t <> [] ->
  items <> [] ->
  exists st1 t' st2,
    prepare fuel (root t) (length items) st = Ok (root t) st1
    /\ shape st1 p t'
    /\ default_export fuel (root t) (CArray items) st = Ok (root t) st2
    /\ shape st2 p t'
    /\ length (implicit_subtrees st1 t') = length items * length (replaced st t)
    /\ (forall c, In c (implicit_subtrees st1 t') ->
          exists i item o st_c,
            cells st1 !! root c = Some o
            /\ repeat o = Some (resolved_repeat (length items) i)
            /\ items !! i = Some item
            /\ insertContent fuel (root c) (Some item) st1 = Ok (root c) st_c
            /\ forall x, In x (refs c) -> cells st2 !! x = cells st_c !! x)
    /\ (forall x, (forall c, In c (implicit_subtrees st1 t') -> ~ In x (refs c)) ->
          cells st2 !! x = cells st1 !! x).
Proof.
  intros Hs Hnd Hok Hfuel Huniq Hnone Hsome Hitems.
  assert (Hn : (if length items =? 0 then 1 else length items) = length items).
  { destruct items; [done|reflexivity]. }
  destruct (prepare_run fuel p t (length items) st Hs Hnd Hok)
    as (st1 & t' & Hrun1 & Hs1 & Hnd1 & Hexp & _);
    [eapply Nat.le_trans; [apply Nat.le_add_r|exact Hfuel]|].
  rewrite Hn in Hexp.
  pose proof (expanded_root _ _ _ _ _ Hexp) as Hroot.
  assert (Hsize : size t' <= S fuel).
  { pose proof (proj1 (expanded_size st st1 _) t t' Hexp). nia. }
  destruct (proj1 (expanded_implicit st st1 _) t t' Hexp Hnone) as [Hclones Hlen].
  rewrite Forall_forall in Hclones.
  pose proof (expanded_unique _ _ _ _ _ Hexp Huniq) as Huniq1.
  assert (Htops : implicit_subtrees st1 t' <> []).
  { intros Hnil. rewrite Hnil in Hlen. cbn [length] in Hlen.
    destruct items; [done|]. by destruct (replaced st t). }
  destruct (insert_distributed fuel p t' items st1)
    as (st2 & Hrun2 & _ & Hin & Hout); try done.
  { intros c x Hc Hx. by apply (Hclones c); [apply list_elem_of_In|]. }
  destruct (insert_links fuel p t' (CArray items) st1 Hs1 Hnd1 Hsize)
    as (st2' & Hrun2' & Heq).
  assert (st2' = st2) as -> by congruence.
  exists st1, t', st2. split; [done|]. split; [done|].
  split; [|split; [by eapply shape_links_eq|split; [done|split; [|done]]]].
  - unfold default_export. cbn [normalize_content].
    destruct items as [|i items]; [done|]. cbn [Nat.ltb Nat.leb length] in *.
    rewrite bind_run, Hrun1, bind_run. rewrite Hroot in Hrun2. by rewrite Hrun2.
  - intros c Hc.
    destruct (Hclones c (proj2 (list_elem_of_In _ _) Hc)) as [(i & Hi & Hrep) _].
    destruct (implicit_subtrees_shape st1 p t' c Hs1 Hnd1 Hc)
      as (pc & Hsc & Hndc & Hsizec & _ & Hsub).
    destruct (shape_inv _ _ _ Hsc) as (o & Ho & _).
    unfold node_data in Hrep. rewrite Ho in Hrep. cbn in Hrep.
    destruct (lookup_lt_is_Some_2 items i Hi) as [item Hitem].
    exists i, item, o. eexists. split; [done|]. split; [done|]. split; [done|]. split.
    + apply (insertContent_content_in fuel pc c); [done|done|lia|].
      intros x ox Hx. apply Huniq1. by apply Hsub.
    + intros x Hx. rewrite (Hin c x Hc Hx). unfold item_at, content_at.
      rewrite Ho, Hrep. cbn [rep_index resolved_repeat]. by rewrite Hitem.
Qed.

Lemma default_export_distributes_witness :
  exists st1 t' st2,
    prepare 10 0 (length ["x"; "y"]) example_store = Ok 0 st1
    /\ shape st1 None t'
    /\ default_export 10 0 (CArray ["x"; "y"]) example_store = Ok 0 st2
    /\ shape st2 None t'
    /\ length (implicit_subtrees st1 t')
       = length ["x"; "y"] * length (replaced example_store example_tree)
    /\ (forall c, In c (implicit_subtrees st1 t') ->
          exists i item o st_c,
            cells st1 !! root c = Some o
            /\ repeat o = Some (resolved_repeat (length ["x"; "y"]) i)
            /\ ["x"; "y"] !! i = Some item
            /\ insertContent 10 (root c) (Some item) st1 = Ok (root c) st_c
            /\ forall x, In x (refs c) -> cells st2 !! x = cells st_c !! x)
    /\ (forall x, (forall c, In c (implicit_subtrees st1 t') -> ~ In x (refs c)) ->
          cells st2 !! x = cells st1 !! x).
Proof.
  apply (default_export_distributes 10 None example_tree ["x"; "y"] example_store).
  - shape_by_computation.
  - nodup_by_computation.
  - store_ok_by_computation.
  - vm_compute. lia.
  - intros x o Hx Ho. vm_compute in Hx.
    destruct Hx as [<-|[<-|[<-|[]]]]; vm_compute in Ho;
      injection Ho as <-; nodup_by_computation.
  - intros x Hx. vm_compute in Hx. destruct Hx as [<-|[<-|[<-|[]]]]; reflexivity.
  - vm_compute. discriminate.
  - discriminate.
Defined.

(** ** What lies outside the tree *)

(** X15.  [prepare] changes no object that is not in the tree it is given:
    the parent of the root, if it has one, the siblings of the root and any
    other tree of the store are as before.  The clones are new objects. *)
Theorem prepare_frame (fuel : nat) (p : option ref) (t : rtree) (amount : nat)
    (st : Store) :
  shape st p t -> NoDup (refs t) -> store_ok st -> size t <= S fuel ->
  exists st',
    prepare fuel (root t) amount st = Ok (root t) st'
    /\ next_ref st <= next_ref st'
    /\ forall x o, ~ In x (refs t) -> cells st !! x = Some o ->
         cells st' !! x = Some o.
Proof.
  intros Hs Hnd Hok Hfuel.
  destruct (shape_inv _ _ _ Hs) as (o & Hr & Hp & Hc & Hks).
  pose proof Hnd as Hnd'. rewrite refs_root in Hnd'.
  apply NoDup_cons in Hnd' as [Hroot Hnd']. rewrite list_elem_of_In in Hroot.
  rewrite size_kids in Hfuel.
  destruct (prepare_walk fuel (if amount =? 0 then 1 else amount) fuel
              (kids t) [] (root t) o st)
    as (st' & ks' & Hrun & _ & _ & _ & _ & _ & Hframe & _ & Hle);
    [|lia|lia|].
  { split; [done|]. split; [done|]. split; [done|]. split; [done|].
    split; [done|]. split; [by intros x []|done]. }
  exists st'. unfold prepare, walk.
  rewrite bind_run, (bind_ok _ _ _ _ _ (firstChild_run _ _ _ Hr)), Hc, Hrun, ret_run.
  split; [done|]. split; [done|]. intros x ox Hx Hox.
  rewrite refs_root in Hx. rewrite Hframe; [done| | |].
  - apply Hok. by eexists.
  - intros ->. apply Hx. by left.
  - intros Hin. apply Hx. by right.
Qed.

Lemma prepare_frame_witness :
  exists st',
    prepare 10 1 2 example_store = Ok 1 st'
    /\ next_ref example_store <= next_ref st'
    /\ forall x o, ~ In x (refs (RNode 1 [RNode 2 [RNode 3 []]])) ->
         cells example_store !! x = Some o -> cells st' !! x = Some o.
Proof.
  apply (prepare_frame 10 (Some 0) (RNode 1 [RNode 2 [RNode 3 []]]) 2 example_store).
  - shape_by_computation.
  - nodup_by_computation.
  - store_ok_by_computation.
  - vm_compute. lia.
Defined.

(** The stores have the same objects, linked the same way, and differ at
    most in the objects [rs]. *)
Definition framed (rs : list ref) (st st' : Store) : Prop :=
  links_eq st st' /\ forall x, ~ In x rs -> cells st' !! x = cells st !! x.

Lemma framed_refl rs st : framed rs st st.
Proof. split; [apply links_eq_refl|done]. Qed.

Lemma framed_trans rs st1 st2 st3 :
  framed rs st1 st2 -> framed rs st2 st3 -> framed rs st1 st3.
Proof.
  intros [Hl1 Hf1] [Hl2 Hf2]. split; [by eapply links_eq_trans|].
  intros x Hx. by rewrite Hf2, Hf1.
Qed.

Lemma framed_put rs st r o o' :
  cells st !! r = Some o -> node_links_eq o o' -> In r rs ->
  framed rs st (put r o' st).
Proof.
  intros Hr Ho Hin. split; [by eapply links_eq_put|].
  intros x Hx. apply put_lookup_ne. by intros ->.
Qed.

Lemma framed_mono rs rs' st st' :
  (forall x, In x rs -> In x rs') -> framed rs st st' -> framed rs' st st'.
Proof. intros Hsub [Hl Hf]. split; [done|]. intros x Hx. apply Hf. auto. Qed.

Lemma placeholder_in_attribute_framed rs node content i replaced st :
  In node rs -> is_Some (cells st !! node) ->
  exists b st', placeholder_in_attribute node content i replaced st = Ok b st'
                /\ framed rs st st'.
Proof.
  intros Hin [o Hr]. unfold placeholder_in_attribute.
  rewrite (bind_ok _ _ _ _ _ (get_node_ok _ _ _ Hr)).
  destruct (attributes o !! i) as [attr|];
    [|eexists _, _; split; [done|apply framed_refl]].
  destruct (truthy (attr_value attr)); [|eexists _, _; split; [done|apply framed_refl]].
  destruct (replacePlaceholder _ _ _) as [v b].
  rewrite (bind_ok _ _ _ _ _ (setAttribute_run _ _ _ _ _ Hr)), ret_run.
  eexists _, _. split; [done|]. by eapply framed_put.
Qed.

Lemma insertContentIntoPlaceholder_framed rs node content st :
  In node rs -> is_Some (cells st !! node) ->
  exists b st', insertContentIntoPlaceholder node content st = Ok b st'
                /\ framed rs st st'.
Proof.
  intros Hin [o Hr]. unfold insertContentIntoPlaceholder.
  rewrite (bind_ok _ _ _ _ _ (get_node_ok _ _ _ Hr)).
  destruct (replacePlaceholder _ _ _) as [v b].
  rewrite (bind_ok _ _ _ _ _ (set_value_run _ _ _ _ Hr)).
  assert (Heq : framed rs st (put node (with_value v o) st)) by by eapply framed_put.
  destruct (fold_each_inv (framed rs st) (seq 0 (length (attributes o)))
              (placeholder_in_attribute node content)) with (b := b)
              (st := put node (with_value v o) st) as (b' & st' & Hrun & Heq');
    [|done|by eauto].
  intros i b1 st1 _ Heq1.
  destruct (placeholder_in_attribute_framed rs node content i b1 st1)
    as (b2 & st2 & Hrun2 & Heq2);
    [done|eapply links_eq_present; [apply Heq1|by eexists]|].
  exists b2, st2. split; [done|]. by eapply framed_trans.
Qed.

Lemma insertContent_framed rs fuel p t content st :
  shape st p t -> NoDup (refs t) -> size t <= S fuel ->
  (forall x, In x (refs t) -> In x rs) ->
  exists st', insertContent fuel (root t) content st = Ok (root t) st'
              /\ framed rs st st'.
Proof.
  intros Hs Hnd Hfuel Hsub. unfold insertContent.
  destruct (insertContentIntoPlaceholder_framed rs (root t) content st)
    as (b & st1 & Hrun1 & Heq1);
    [apply Hsub, root_in_refs|by eapply shape_present, root_in_refs|].
  rewrite (bind_ok _ _ _ _ _ Hrun1).
  assert (Hs1 : shape st1 p t) by (eapply shape_links_eq; [apply Heq1|done]).
  assert (Hpres : forall c, In c (desc t) -> is_Some (cells st1 !! c)).
  { intros c Hc. eapply shape_present; [exact Hs1|]. rewrite refs_root. by right. }
  rewrite bind_run, (walk_fold _ fuel p t);
    [|done|done|by apply placeholder_walk_steady|done].
  destruct (fold_each_inv (framed rs st1) (desc t)
              (fun child inserted =>
                 b ← insertContentIntoPlaceholder child content; mret (inserted || b)))
    with (b := b) (st := st1) as (b2 & st2 & Hrun2 & Heq2); [|apply framed_refl|].
  { intros c a st' Hc Heq.
    destruct (insertContentIntoPlaceholder_framed rs c content st')
      as (b' & st'' & Hrun & Heq');
      [apply Hsub; rewrite refs_root; by right
      |eapply links_eq_present; [apply Heq|by apply Hpres]|].
    exists (a || b'), st''. split; [by rewrite (bind_ok _ _ _ _ _ Hrun)|].
    by eapply framed_trans. }
  rewrite Hrun2.
  assert (Heq02 : framed rs st st2) by by eapply framed_trans.
  destruct (negb b2); [|exists st2; by rewrite bind_run, ret_run].
  assert (Hs2 : shape st2 p t) by (eapply shape_links_eq; [apply Heq02|done]).
  rewrite bind_run, bind_run, (findDeepestNode_run fuel p t st2) by done.
  destruct (shape_present _ _ _ _ Hs2 (deepest_in_refs t)) as [od Hd].
  rewrite (setNodeContent_run _ _ _ _ Hd), ret_run.
  eexists. split; [done|]. eapply framed_trans; [exact Heq02|].
  eapply framed_put; [done|apply content_set_links|apply Hsub, deepest_in_refs].
Qed.

Lemma subtree_below st p t c :
  shape st p t -> NoDup (refs t) -> In c (desc t) ->
  exists pc tc, shape st pc tc /\ root tc = c /\ NoDup (refs tc) /\
                size tc <= size t /\
                (forall x, In x (refs tc) -> In x (desc t)).
Proof.
  intros Hs Hnd Hc.
  destruct (shape_inv _ _ _ Hs) as (o & _ & _ & _ & Hks).
  rewrite refs_root in Hnd. apply NoDup_cons in Hnd as [_ Hnd].
  apply in_flat_map in Hc as (k & Hk & Hc).
  rewrite Forall_forall in Hks.
  destruct (subtree_at st (Some (root t)) k c) as (pc & tc & H1 & H2 & H3 & H4 & H5);
    [by apply Hks, list_elem_of_In|by eapply NoDup_flat_map_in|done|].
  exists pc, tc. repeat (split; [done|]). split.
  - apply size_kid_le in Hk. rewrite (size_kids t). lia.
  - intros x Hx. apply in_flat_map. exists k. auto.
Qed.

Lemma deepest_in_desc t : kids t <> [] -> In (deepest t) (desc t).
Proof.
  destruct t as [r ks]. cbn [kids]. intros Hne. rewrite deepest_last.
  destruct (last ks) as [k|] eqn:Hlast; [|by apply last_None in Hlast].
  apply in_flat_map. exists k. split; [by apply last_in|apply deepest_in_refs].
Qed.

(** X16.  [insert] changes no object that is not in the tree it is given,
    and when the root of the tree has children it does not change the root
    either: what it writes, it writes below the root. *)
Theorem insert_frame (fuel : nat) (p : option ref) (t : rtree) (c : content)
    (st : Store) :
  shape st p t -> NoDup (refs t) -> size t <= S fuel ->
  exists st',
    insert fuel (root t) c st = Ok (root t) st'
    /\ (forall x, ~ In x (refs t) -> cells st' !! x = cells st !! x)
    /\ (kids t <> [] -> cells st' !! root t = cells st !! root t).
Proof.
  intros Hs Hnd Hfuel.
  assert (Hroot : ~ In (root t) (desc t)).
  { rewrite refs_root in Hnd. apply NoDup_cons in Hnd as [Hroot _].
    by rewrite list_elem_of_In in Hroot. }
  assert (Hdone : forall st', framed (desc t) st st' ->
    (forall x, ~ In x (refs t) -> cells st' !! x = cells st !! x)
    /\ (kids t <> [] -> cells st' !! root t = cells st !! root t)).
  { intros st' [_ Hf]. split.
    - intros x Hx. apply Hf. intros Hin. apply Hx. rewrite refs_root. by right.
    - intros _. by apply Hf. }
  destruct c as [s|items|];
    try (exists st; split; [done|]; apply Hdone, framed_refl).
  unfold insert.
  destruct (0 <? length items);
    [|exists st; split; [done|]; apply Hdone, framed_refl].
  assert (Hsteady : steady st (desc t) (insert_node fuel items)).
  { eapply steady_sub; [by eapply insert_node_steady|].
    intros x Hx. rewrite refs_root. by right. }
  rewrite bind_run, (walk_fold _ fuel p t) by done.
  destruct (fold_each_inv (framed (desc t) st) (desc t) (insert_node fuel items))
    with (b := false) (st := st) as (b & st1 & Hrun & Heq); [|apply framed_refl|].
  { intros x a st' Hx Heq.
    destruct (subtree_below _ _ _ _ Hs Hnd Hx)
      as (pc & tc & Hsc & <- & Hndc & Hsize & Hsub).
    assert (Hsc' : shape st' pc tc) by (eapply shape_links_eq; [apply Heq|done]).
    destruct (shape_inv _ _ _ Hsc') as (o & Hr & _).
    unfold insert_node. rewrite (bind_ok _ _ _ _ _ (get_node_ok _ _ _ Hr)).
    destruct (repeat o) as [r|]; [|by exists a, st'].
    destruct (rep_implicit r); [|by exists a, st'].
    destruct (insertContent_framed (desc t) fuel pc tc (items !! rep_index r) st')
      as (st'' & Hrun & Heq'); [done|done|lia|done|].
    exists true, st''. split; [by rewrite (bind_ok _ _ _ _ _ Hrun)|].
    by eapply framed_trans. }
  rewrite Hrun.
  destruct (negb b); [|exists st1; rewrite bind_run, ret_run; split; [done|by apply Hdone]].
  assert (Hs1 : shape st1 p t) by (eapply shape_links_eq; [apply Heq|done]).
  rewrite bind_run, bind_run, (findDeepestNode_run fuel p t st1) by done.
  destruct (shape_present _ _ _ _ Hs1 (deepest_in_refs t)) as [od Hd].
  rewrite (setNodeContent_run _ _ _ _ Hd), ret_run.
  eexists. split; [done|]. destruct Heq as [_ Hf]. split.
  - intros x Hx. rewrite put_lookup_ne.
    + apply Hf. intros Hin. apply Hx. rewrite refs_root. by right.
    + intros Heq. apply Hx. rewrite <- Heq. apply deepest_in_refs.
  - intros Hkids. rewrite put_lookup_ne; [by apply Hf|].
    intros Heq. apply Hroot. rewrite <- Heq. by apply deepest_in_desc.
Qed.

Lemma insert_frame_witness :
  exists st',
    insert 10 1 (CArray ["x"; "y"]) prepared_store = Ok 1 st'
    /\ (forall x, ~ In x (refs (RNode 1 [RNode 4 [RNode 5 []]; RNode 6 [RNode 7 []]])) ->
          cells st' !! x = cells prepared_store !! x)
    /\ (kids (RNode 1 [RNode 4 [RNode 5 []]; RNode 6 [RNode 7 []]]) <> [] ->
          cells st' !! root (RNode 1 [RNode 4 [RNode 5 []]; RNode 6 [RNode 7 []]])
          = cells prepared_store
              !! root (RNode 1 [RNode 4 [RNode 5 []]; RNode 6 [RNode 7 []]])).
Proof.
  apply (insert_frame 10 (Some 0) (RNode 1 [RNode 4 [RNode 5 []]; RNode 6 [RNode 7 []]])
           (CArray ["x"; "y"]) prepared_store).
  - shape_by_computation.
  - nodup_by_computation.
  - vm_compute. lia.
Defined.

(** X17.  The entry point returns, and returns the tree it was given, on
    every tree and every list of items: none of the calls it makes on the
    nodes fails (no clone is without repeat state, no walked node without
    parent).  The store then holds a tree with the same root, of the size
    that [prepare] gave it. *)
Theorem default_export_returns (fuel : nat) (p : option ref) (t : rtree)
    (items : list string) (st : Store) :
  shape st p t -> NoDup (refs t) -> store_ok st ->
  size t + (length items - 1) * forest_size (replaced st t) <= S fuel ->
  exists st' t',
    default_export fuel (root t) (CArray items) st = Ok (root t) st'
    /\ shape st' p t' /\ NoDup (refs t') /\ root t' = root t
    /\ size t' = size t + (length items - 1) * forest_size (replaced st t).
Proof.
  intros Hs Hnd Hok Hfuel.
  unfold default_export. cbn [normalize_content].
  destruct items as [|i items].
  { exists st, t. cbn. by rewrite Nat.add_0_r. }
  cbn [length Nat.ltb Nat.leb] in *.
  destruct (prepare_run fuel p t (S (length items)) st Hs Hnd Hok)
    as (st1 & t' & Hrun1 & Hs1 & Hnd1 & Hexp & _);
    [eapply Nat.le_trans; [apply Nat.le_add_r|exact Hfuel]|].
  cbn [Nat.eqb] in Hexp.
  pose proof (expanded_root _ _ _ _ _ Hexp) as Hroot.
  assert (Hsize : size t' = size t + (S (length items) - 1) * forest_size (replaced st t)).
  { pose proof (proj1 (expanded_size st st1 _) t t' Hexp). nia. }
  destruct (insert_links fuel p t' (CArray (i :: items)) st1 Hs1 Hnd1)
    as (st2 & Hrun2 & Heq); [lia|].
  exists st2, t'. rewrite bind_run, Hrun1, bind_run.
  rewrite Hroot in Hrun2. rewrite Hrun2, ret_run.
  split; [done|]. split; [by eapply shape_links_eq|]. done.
Qed.

Lemma default_export_returns_witness :
  exists st' t',
    default_export 10 0 (CArray ["x"; "y"; "z"])
      (store_of (build nested_abbreviation))
    = Ok 0 st'
    /\ shape st' None t' /\ NoDup (refs t') /\ root t' = 0
    /\ size t'
       = size (RNode 0 [RNode 1 [RNode 2 []]])
         + (length ["x"; "y"; "z"] - 1)
           * forest_size (replaced (store_of (build nested_abbreviation))
                            (RNode 0 [RNode 1 [RNode 2 []]])).
Proof.
  apply (default_export_returns 10 None (RNode 0 [RNode 1 [RNode 2 []]])
           ["x"; "y"; "z"] (store_of (build nested_abbreviation))).
  - shape_by_computation.
  - nodup_by_computation.
  - store_ok_by_computation.
  - vm_compute. lia.
Defined.

(** ** When [insert] falls back on the deepest node *)

Lemma insert_walk_flag fuel items st p t :
  shape st p t -> NoDup (refs t) -> size t <= S fuel ->
  forall l b st1,
    (forall x, In x l -> In x (refs t)) -> links_eq st st1 ->
    exists st2,
      fold_each l (insert_node fuel items) b st1
      = Ok (b || existsb (is_implicit_at st) l) st2
      /\ links_eq st st2
      /\ (existsb (is_implicit_at st) l = false -> st2 = st1).
Proof.
  intros Hs Hnd Hfuel. induction l as [|x l IH]; intros b st1 Hsub Heq.
  { exists st1. cbn. by rewrite orb_false_r. }
  destruct (subtree_at _ _ _ _ Hs Hnd (Hsub x (or_introl eq_refl)))
    as (pc & tc & Hsc & <- & Hndc & Hsize & _).
  destruct (shape_inv _ _ _ Hsc) as (o & Ho & _).
  destruct (links_eq_lookup _ _ _ _ Heq Ho) as (o1 & Ho1 & _ & _ & _ & Hrep).
  assert (Hsc1 : shape st1 pc tc) by (by eapply shape_links_eq).
  rewrite fold_each_cons. cbn [existsb]. unfold is_implicit_at at 1 3. rewrite Ho.
  destruct (is_implicit o) eqn:Hi.
  - destruct (insertContent_links fuel pc tc (items !! match repeat o1 with
                 | Some r => rep_index r | None => 0 end) st1)
      as (st' & Hrun & Heq'); [done|done|lia|].
    assert (Hnode : insert_node fuel items (root tc) b st1 = Ok true st').
    { unfold insert_node. rewrite (bind_ok _ _ _ _ _ (get_node_ok _ _ _ Ho1)).
      unfold is_implicit in Hi. rewrite <- Hrep in Hi.
      destruct (repeat o1) as [r|]; [|done]. rewrite Hi.
      by rewrite (bind_ok _ _ _ _ _ Hrun). }
    rewrite (bind_ok _ _ _ _ _ Hnode).
    destruct (IH true st') as (st2 & Hrun2 & Heq2 & _);
      [intros y Hy; apply Hsub; by right|by eapply links_eq_trans|].
    exists st2. rewrite Hrun2, orb_true_r. by cbn.
  - assert (Hi1 : is_implicit o1 = false) by (unfold is_implicit in *; by rewrite Hrep).
    rewrite (bind_ok _ _ _ _ _ (insert_node_skip _ _ _ b _ _ Ho1 Hi1)).
    destruct (IH b st1) as (st2 & Hrun2 & Heq2 & Hsame);
      [intros y Hy; apply Hsub; by right|done|].
    exists st2. by rewrite Hrun2.
Qed.

(** X18.  [insert] with a list of items that is not empty gives the items
    to the nodes one by one, or all of them to the deepest node, never
    both: when a node below the root has the implicit flag, [insert] is the
    walk alone; when none has, the walk changes nothing and [insert] is
    [setNodeContent] on the deepest node of the tree with the items joined
    by newlines. *)
Theorem insert_fallback_iff (fuel : nat) (p : option ref) (t : rtree)
    (items : list string) (st : Store) :
  shape st p t -> NoDup (refs t) -> size t <= S fuel ->
  items <> [] ->
  insert fuel (root t) (CArray items) st
  = if existsb (is_implicit_at st) (desc t)
    then (fold_each (desc t) (insert_node fuel items) false ;; mret (root t)) st
    else (setNodeContent (deepest t) (Some (join_lines items)) ;; mret (root t)) st.
Proof.
  intros Hs Hnd Hfuel Hitems.
  unfold insert. destruct items as [|i items]; [done|]. cbn [length Nat.ltb Nat.leb].
  assert (Hsteady : steady st (desc t) (insert_node fuel (i :: items))).
  { eapply steady_sub; [by eapply insert_node_steady|].
    intros x Hx. rewrite refs_root. by right. }
  rewrite bind_run, (walk_fold _ fuel p t) by done.
  destruct (insert_walk_flag fuel (i :: items) st p t Hs Hnd Hfuel (desc t) false st)
    as (st1 & Hrun & _ & Hsame);
    [intros x Hx; rewrite refs_root; by right|apply links_eq_refl|].
  rewrite bind_run, Hrun. cbn [orb].
  destruct (existsb (is_implicit_at st) (desc t)); cbn [negb].
  - by rewrite bind_run, ret_run.
  - rewrite (Hsame eq_refl).
    by rewrite bind_run, bind_run, (findDeepestNode_run fuel p t st).
Qed.

Lemma insert_fallback_iff_witness :
  insert 10 0 (CArray ["x"; "y"]) prepared_store
  = if existsb (is_implicit_at prepared_store) (desc prepared_tree)
    then (fold_each (desc prepared_tree) (insert_node 10 ["x"; "y"]) false ;;
          mret (root prepared_tree)) prepared_store
    else (setNodeContent (deepest prepared_tree) (Some (join_lines ["x"; "y"])) ;;
          mret (root prepared_tree)) prepared_store.
Proof.
  apply (insert_fallback_iff 10 None prepared_tree ["x"; "y"] prepared_store).
  - shape_by_computation.
  - nodup_by_computation.
  - vm_compute. lia.
  - discriminate.
Defined.

(** ** Unresolved nodes inside unresolved nodes *)

Lemma expanded_clones_present st st' amount :
  (forall t t', expanded st st' amount t t' ->
     forall k, In k (replaced st t) ->
     exists clones, clones_of st st' amount k clones /\
       forall c x, In c clones -> In x (refs c) -> In x (desc t'))
  /\ (forall ks ks', expanded_kids st st' amount ks ks' ->
     forall k, In k (replaced_in st ks) ->
     exists clones, clones_of st st' amount k clones /\
       forall c x, In c clones -> In x (refs c) -> In x (flat_map refs ks')).
Proof.
  apply (expanded_mutind st st' amount
    (fun t t' _ =>
       forall k, In k (replaced st t) ->
       exists clones, clones_of st st' amount k clones /\
         forall c x, In c clones -> In x (refs c) -> In x (desc t'))
    (fun ks ks' _ =>
       forall k, In k (replaced_in st ks) ->
       exists clones, clones_of st st' amount k clones /\
         forall c x, In c clones -> In x (refs c) -> In x (flat_map refs ks'))).
  - intros r ks ks' _ _ IH k Hk. by apply IH.
  - by intros k [].
  - intros k k' ks ks' Hun _ IHk _ IHks k0 Hk0.
    rewrite replaced_in_cons, Hun in Hk0. apply in_app_or in Hk0 as [Hk0|Hk0].
    + destruct (IHk k0 Hk0) as (clones & Hcl & Hsub). exists clones. split; [done|].
      intros c x Hc Hx. cbn [flat_map]. apply in_or_app. left.
      rewrite refs_root. right. by eapply Hsub.
    + destruct (IHks k0 Hk0) as (clones & Hcl & Hsub). exists clones. split; [done|].
      intros c x Hc Hx. cbn [flat_map]. apply in_or_app. right. by eapply Hsub.
  - intros k clones ks ks' Hun Hcl _ IHks k0 Hk0.
    rewrite replaced_in_cons, Hun in Hk0. destruct Hk0 as [<-|Hk0].
    + exists clones. split; [done|]. intros c x Hc Hx.
      rewrite flat_map_app. apply in_or_app. left. apply in_flat_map. eauto.
    + destruct (IHks k0 Hk0) as (clones0 & Hcl0 & Hsub). exists clones0.
      split; [done|]. intros c x Hc Hx.
      rewrite flat_map_app. apply in_or_app. right. by eapply Hsub.
Qed.

(** X19.  The clones are not walked: an unresolved node that lies below a
    replaced node is unresolved in the clones of that node after [prepare],
    so that the prepared tree still has an unresolved node, with the data of
    the one that was below the replaced node. *)
Theorem prepare_leaves_nested (fuel : nat) (p : option ref) (t : rtree)
    (amount : nat) (st : Store) :
  shape st p t -> NoDup (refs t) -> store_ok st -> size t <= S fuel ->
  exists st' t',
    prepare fuel (root t) amount st = Ok (root t) st'
    /\ shape st' p t'
    /\ forall k y, In k (replaced st t) -> In y (desc k) ->
         is_unresolved st y = true ->
         exists x, In x (desc t') /\ is_unresolved st' x = true
                   /\ node_data st' x = node_data st y.
Proof.
  intros Hs Hnd Hok Hfuel.
  destruct (prepare_run fuel p t amount st Hs Hnd Hok Hfuel)
    as (st' & t' & Hrun & Hs' & _ & Hexp & _).
  exists st', t'. split; [done|]. split; [done|].
  intros k y Hk Hy Hun.
  destruct (proj1 (expanded_clones_present st st' _) t t' Hexp k Hk)
    as (clones & [Hlen Hcl] & Hsub).
  destruct clones as [|c clones].
  { cbn [length] in Hlen. destruct (Nat.eqb_spec amount 0); [done|lia]. }
  destruct (Hcl 0 c eq_refl) as [He _].
  destruct (clone_data _ _ _ _ _ _ He) as [_ Hdesc].
  destruct (map_eq_in _ _ _ _ y (eq_sym Hdesc) Hy) as (x & Hx & Heq).
  exists x. split; [|split; [|done]].
  - apply (Hsub c); [by left|]. rewrite refs_root. by right.
  - by rewrite is_unresolved_data, <- Heq, <- is_unresolved_data.
Qed.

Lemma prepare_leaves_nested_witness :
  exists st' t',
    prepare 10 0 2 (store_of (build nested_abbreviation)) = Ok 0 st'
    /\ shape st' None t'
    /\ forall k y,
         In k (replaced (store_of (build nested_abbreviation))
                 (RNode 0 [RNode 1 [RNode 2 []]])) ->
         In y (desc k) ->
         is_unresolved (store_of (build nested_abbreviation)) y = true ->
         exists x, In x (desc t') /\ is_unresolved st' x = true
                   /\ node_data st' x
                      = node_data (store_of (build nested_abbreviation)) y.
Proof.
  apply (prepare_leaves_nested 10 None (RNode 0 [RNode 1 [RNode 2 []]]) 2
           (store_of (build nested_abbreviation))).
  - shape_by_computation.
  - nodup_by_computation.
  - store_ok_by_computation.
  - vm_compute. lia.
Defined.

(** ** The clones after the entry point, as values *)

Section set_last.
Context {A : Type} (g : A -> A).


End set_last.

(** What [insertContentIntoPlaceholder] and [setNodeContent] do to the data
    of a node. *)
Definition fill_data (content : option string) (d : Data) : Data :=
  mkData (d_name d) (fill_value content (d_value d))
    (map (fill_attribute content) (d_attributes d)) (d_repeat d).








Lemma data_of_fill_node content o :
  data_of (fill_node content o) = fill_data content (data_of o).
Proof. reflexivity. Qed.













(** ** Content that is no link *)

Lemma reUrl_with_dot : needs "." reUrl.
Proof. cbn. right. right. left. intros a Ha. symmetry. by apply Ascii.eqb_eq. Qed.

Lemma reEmail_with_dot : needs "." reEmail.
Proof.
  cbn. right. right. right. left. intros a Ha. symmetry. by apply Ascii.eqb_eq.
Qed.

(** X21.  Content without a dot is neither a URL nor an e-mail address for
    [setNodeContent]: on a node whose value has no unescaped caret, be it
    anchor-like or not, such content becomes the value and the attributes
    stay as they are; no [href] is written. *)
Theorem setNodeContent_without_dot (st : Store) (node : ref) (o : Node)
    (content : option string) :
  cells st !! node = Some o ->
  (forall v, value o = Some v -> ranges_length (findUnescapedTokens v caret) = 0) ->
  ~ In "."%char (list_ascii_of_string (to_js_string content)) ->
  test reUrl content = false /\ test reEmail content = false
  /\ setNodeContent node content st = Ok tt (put node (with_value content o) st).
Proof.
  intros Hr Hcaret Hdot.
  assert (Hurl : test reUrl content = false).
  { destruct (test reUrl content) eqn:H; [|done].
    destruct Hdot. by apply (matches_needs _ reUrl), H; [apply reUrl_with_dot]. }
  assert (Hmail : test reEmail content = false).
  { destruct (test reEmail content) eqn:H; [|done].
    destruct Hdot. by apply (matches_needs _ reEmail), H; [apply reEmail_with_dot]. }
  split; [done|]. split; [done|].
  rewrite (setNodeContent_run _ _ _ _ Hr). unfold content_set, with_href.
  rewrite (replace_caret_none _ _ Hcaret), Hurl, Hmail. by destruct (anchor_like o).
Qed.

Lemma setNodeContent_without_dot_witness :
  test reUrl (Some "localhost:8080/x") = false
  /\ test reEmail (Some "localhost:8080/x") = false
  /\ setNodeContent 0 (Some "localhost:8080/x") (put 0 link_node empty_store)
     = Ok tt (put 0 (with_value (Some "localhost:8080/x") link_node)
                (put 0 link_node empty_store)).
Proof.
  apply (setNodeContent_without_dot (put 0 link_node empty_store) 0 link_node
           (Some "localhost:8080/x")).
  - reflexivity.
  - intros v Hv. injection Hv as <-. reflexivity.
  - vm_compute. intuition discriminate.
Defined.

(** ** Two runs of the entry point *)

(** The tree below the root after the entry point, as a value. *)
Definition expand (fuel : nat) (abbreviation : dtree) (c : content) : option dtree :=
  match (r ← build abbreviation; default_export fuel r c) empty_store with
  | Ok r st => snapshot fuel st r
  | Err _ => None
  end.

Definition link_abbreviation : dtree :=
  DNode (mkData "" None [] None)
    [DNode (mkData "ul" None [] None)
       [DNode (mkData "li" None [] (Some (mkRepeat None false 0 0)))
          [DNode (mkData "a" None [] None) []]]].

(** [ul>li[title=t$#]*>a] with two items: the placeholder takes the item,
    and the [a] stays empty. *)
Example expand_placeholder :
  expand 10 example_abbreviation (CArray ["x"; "y"])
  = Some
      (DNode (mkData "" None [] None)
         [DNode (mkData "ul" None [] None)
            [DNode (mkData "li" None [mkAttribute "title" (Some "tx")]
                      (Some (mkRepeat (Some 2) true 1 0)))
               [DNode (mkData "a" None [] None) []];
             DNode (mkData "li" None [mkAttribute "title" (Some "ty")]
                      (Some (mkRepeat (Some 2) true 2 1)))
               [DNode (mkData "a" None [] None) []]]]).
Proof. vm_compute. reflexivity. Qed.

(** [ul>li*>a] with a URL and an e-mail address: each goes to the [a] of
    its clone, with an [href]. *)
Example expand_links :
  expand 10 link_abbreviation (CArray ["example.com"; "me@example.org"])
  = Some
      (DNode (mkData "" None [] None)
         [DNode (mkData "ul" None [] None)
            [DNode (mkData "li" None [] (Some (mkRepeat (Some 2) true 1 0)))
               [DNode (mkData "a" (Some "example.com")
                         [mkAttribute "href" (Some "http://example.com")] None) []];
             DNode (mkData "li" None [] (Some (mkRepeat (Some 2) true 2 1)))
               [DNode (mkData "a" (Some "me@example.org")
                         [mkAttribute "href" (Some "mailto:me@example.org")] None) []]]]).
Proof. vm_compute. reflexivity. Qed.
